(** * Pub-sub log aggregator: model of the ingest, dedup and persist pipeline

    A shallow embedding of [src/models.py], [src/database.py] and
    [src/main.py], and the properties of the specification stated over it.

    Python coroutines become functions in a state-and-exception monad over
    a [World] holding the database tables, the pool handle, the connection
    in use, the queue and the log. Everything the program cannot control (a
    server error, a serialization failure, a lost connection) is an oracle
    in the world: each database round trip consumes one entry of [faults].
    Calls that run concurrently on connections of their own are modelled
    apart, as an interleaving of their awaits ([Concurrent]); the
    arithmetic of the rates of [GET /stats] is IEEE 754 binary64
    ([Binary64]). *)

From Stdlib Require Import ZArith List Ascii String Bool Lia Permutation Arith.
From Stdlib Require Import DecimalString.
From Stdlib Require Floats.
From Stdlib Require Import Reals Lra.
Import ListNotations.
Local Open Scope string_scope.
Local Open Scope Z_scope.

Set Implicit Arguments.
Set Warnings "-register-all".

(** ** Python exceptions that the code raises, catches or lets through *)

(** A pydantic error entry: the failing field and what is wrong with it. *)
Inductive ErrorKind := Missing | StringTooShort | StringTooLong | DictType.

Definition FieldError : Type := string * ErrorKind.

Inductive exn :=
| ValidationError (errs : list FieldError)      (* pydantic *)
| ResponseValidationError (errs : list FieldError)  (* fastapi *)
| AttributeError (msg : string)
| RuntimeError (msg : string)
| ValueError (msg : string)
| UniqueViolationError (msg : string)           (* asyncpg, SQLSTATE 23505 *)
| SerializationError (msg : string)             (* asyncpg, SQLSTATE 40001 *)
| PostgresError (msg : string)                  (* another error of the server *)
| DataError (msg : string)                      (* asyncpg, an argument out of range *)
| ConnectionDoesNotExistError (msg : string)    (* asyncpg, the connection broke *)
| InterfaceError (msg : string)                 (* asyncpg, the connection is closed *)
| ZeroDivisionError (msg : string)
| OverflowError (msg : string)
| HTTPException (status : Z) (detail : string). (* fastapi *)

(** What a round trip to the database can meet. The first three are
    errors the server answers with, and the connection stays up: a unique
    constraint, a serialization conflict, or another one (a statement
    timeout, a full disk). With the last the connection breaks under the
    round trip, before the server has taken the request. *)
Inductive fault :=
| UniqueViolation (msg : string)
| SerializationFailure (msg : string)
| ServerError (msg : string)
| ConnectionLost (msg : string).

Definition exn_of (f : fault) : exn :=
  match f with
  | UniqueViolation m => UniqueViolationError m
  | SerializationFailure m => SerializationError m
  | ServerError m => PostgresError m
  | ConnectionLost m => ConnectionDoesNotExistError m
  end.

Definition lost (f : fault) : bool :=
  match f with
  | ConnectionLost _ => true
  | _ => false
  end.

(** [str(e)] *)
Definition str (e : exn) : string :=
  match e with
  | ValidationError _ => "validation error for Event"
  | ResponseValidationError _ => "validation error for EventResponse"
  | AttributeError m | RuntimeError m | ValueError m
  | UniqueViolationError m | SerializationError m | PostgresError m
  | DataError m | ConnectionDoesNotExistError m | InterfaceError m
  | ZeroDivisionError m | OverflowError m => m
  | HTTPException _ d => d
  end.

(** ** Python's text for numbers and strings *)

(** [str(n)] for an [int] *)
Definition str_int (z : Z) : string := NilZero.string_of_int (Z.to_int z).

Definition str_nat (n : nat) : string := str_int (Z.of_nat n).

Definition quote1 : ascii := ascii_of_nat 39.
Definition quote2 : ascii := ascii_of_nat 34.
Definition backslash : ascii := ascii_of_nat 92.

Definition hex_digit (n : N) : ascii :=
  ascii_of_N (if (n <? 10)%N then 48 + n else 87 + n)%N.

Fixpoint contains (c : ascii) (s : string) : bool :=
  match s with
  | EmptyString => false
  | String c' rest => Ascii.eqb c c' || contains c rest
  end.

(** One character of [repr(s)] between the quotes [q]: the quote and the
    backslash are escaped, tab, newline and carriage return have their
    letters, and what is not printable is written in hexadecimal. A
    character is its code point, from 0 to 255. *)
Definition repr_char (q c : ascii) : string :=
  let n := N_of_ascii c in
  if Ascii.eqb c q || Ascii.eqb c backslash then String backslash (String c "")
  else if (n =? 9)%N then String backslash "t"
  else if (n =? 10)%N then String backslash "n"
  else if (n =? 13)%N then String backslash "r"
  else if (n <? 32)%N || (n =? 127)%N || ((128 <=? n)%N && (n <=? 160)%N)
          || (n =? 173)%N
  then String backslash
         (String "x" (String (hex_digit (n / 16)) (String (hex_digit (n mod 16)) "")))
  else String c "".

Fixpoint repr_chars (q : ascii) (s : string) : string :=
  match s with
  | EmptyString => ""
  | String c rest => repr_char q c ++ repr_chars q rest
  end.

(** [repr(s)] for a [str]: in single quotes, unless the string has a
    single quote and no double quote. *)
Definition repr_str (s : string) : string :=
  let q := if contains quote1 s && negb (contains quote2 s)
           then quote2 else quote1 in
  String q (repr_chars q s ++ String q "").

(** ** src/models.py *)

Module Models.

(** JSON values, for [payload: Dict[str, Any]]. *)
Inductive json :=
| JNull
| JBool (b : bool)
| JNum (n : Z)
| JStr (s : string)
| JArr (items : list json)
| JObj (members : list (string * json)).

Definition Payload : Type := list (string * json).

(** [class Event(BaseModel)] *)
Record Event := mkEvent {
  topic : string;
  event_id : string;
  timestamp : string;
  source : string;
  payload : Payload
}.

(** The keyword arguments given to [Event(...)]: every field carries a
    value of its declared type or is absent. *)
Record RawEvent := mkRaw {
  raw_topic : option string;
  raw_event_id : option string;
  raw_timestamp : option string;
  raw_source : option string;
  raw_payload : option Payload
}.

(** [Field(..., min_length=1, max_length=255)]: required, one to 255
    characters. *)
Definition check_required (name : string) (v : option string)
  : list FieldError :=
  match v with
  | None => [(name, Missing)]
  | Some s =>
      if (String.length s <? 1)%nat then [(name, StringTooShort)]
      else if (255 <? String.length s)%nat then [(name, StringTooLong)]
      else []
  end.

(** [Field(default_factory=...)] *)
Definition with_default {A} (v : option A) (factory : A) : A :=
  match v with
  | Some a => a
  | None => factory
  end.

(** The constructor of [Event]. [uuid] is what [str(uuid.uuid4())]
    returns at this call and [now] what [datetime.utcnow().isoformat()]
    returns. *)
Definition Event_init (uuid now : string) (r : RawEvent) : exn + Event :=
  match raw_topic r, raw_source r,
        (check_required "topic" (raw_topic r)
           ++ check_required "source" (raw_source r))%list with
  | Some t, Some s, [] =>
      inr {| topic := t;
             event_id := with_default (raw_event_id r) uuid;
             timestamp := with_default (raw_timestamp r) (now ++ "Z");
             source := s;
             payload := with_default (raw_payload r) [] |}
  | _, _, errs => inl (ValidationError errs)
  end.

(** [event.dict()] *)
Definition dict (e : Event) : RawEvent :=
  {| raw_topic := Some (topic e);
     raw_event_id := Some (event_id e);
     raw_timestamp := Some (timestamp e);
     raw_source := Some (source e);
     raw_payload := Some (payload e) |}.

(** [events: Union[Event, List[Event]]] *)
Inductive EventsField (A : Type) :=
| Single (e : A)
| Batch (l : list A).

(** [class PublishRequest(BaseModel)] *)
Record PublishRequest := mkRequest { events : EventsField Event }.

(** [PublishRequest.get_events] *)
Definition get_events (self : PublishRequest) : list Event :=
  match events self with
  | Batch l => l
  | Single e => [e]
  end.

(** The default factories as the request model calls them: the [i]-th
    call of a factory returns [uuid4 i], respectively [utcnow i]. *)
Record Factories := mkFactories {
  uuid4 : nat -> string;
  utcnow : nat -> string
}.

(** Validation of a [List[Event]]: every item is validated, and the
    list is valid when all of its items are. *)
Fixpoint validate_list (f : Factories) (i : nat) (l : list RawEvent)
  : exn + list Event :=
  match l with
  | [] => inr []
  | r :: rest =>
      match Event_init (uuid4 f i) (utcnow f i) r, validate_list f (S i) rest with
      | inr e, inr es => inr (e :: es)
      | inl x, _ => inl x
      | _, inl x => inl x
      end
  end.

(** [PublishRequest(events=...)] on the body of a request. *)
Definition PublishRequest_init (f : Factories)
    (body : option (EventsField RawEvent)) : exn + PublishRequest :=
  match body with
  | None => inl (ValidationError [("events", Missing)])
  | Some (Single r) =>
      match Event_init (uuid4 f 0) (utcnow f 0) r with
      | inr e => inr {| events := Single e |}
      | inl x => inl x
      end
  | Some (Batch l) =>
      match validate_list f 0 l with
      | inr es => inr {| events := Batch es |}
      | inl x => inl x
      end
  end.

(** [class PublishResponse(BaseModel)]; an entry of [errors] is a dict
    with the keys [index], [event_id] (optional) and [error]. *)
Record ErrorDetail := mkDetail {
  index : nat;
  detail_event_id : option string;
  error : string
}.

Record PublishResponse := mkResponse {
  status : string;
  count : nat;
  accepted : nat;
  rejected : nat;
  errors : list ErrorDetail
}.

End Models.

Import Models.

(** ** The state of the process and of the database it talks to *)

(** The row of [event_stats]; the three columns are [INT]. *)
Record Stats := mkStats {
  received : Z;
  unique_processed : Z;
  duplicate_dropped : Z
}.

(** The three tables. [dedup_store] and [processed_events] keep their rows
    in insertion order; [event_stats] holds the row with [id = 1] when it
    exists. *)
Record DB := mkDB {
  processed_events : list Event;
  dedup_store : list (string * string);
  event_stats : option Stats
}.

Inductive Isolation := ReadCommitted | Serializable.

(** What goes over a connection. *)
Inductive Stmt :=
| Begin (iso : Isolation)
| Commit
| Rollback
| SelectDedup (t i : string)
| InsertDedup (t i : string)
| InsertProcessed (e : Event)
| UpdateStats (dr du dd : Z)
| SelectStats
| TruncateProcessed
| TruncateDedup
| ResetStats.

Inductive Level := DEBUG | INFO | WARNING | ERROR.

(** The connection the coroutine holds: usable; usable, with the open
    transaction aborted by a statement that failed; or closed, once it
    broke. *)
Inductive Conn := Healthy | Aborted | Closed.

Record World := mkWorld {
  db : DB;
  pool : bool;                   (* [_pool is not None] *)
  faults : list (option fault);  (* what the next round trips will meet *)
  conn : Conn;                   (* the connection in use *)
  trace : list Stmt;             (* the statements executed, oldest first *)
  queue : list Event;            (* [_queue], head is next out *)
  unfinished : nat;              (* [_queue._unfinished_tasks] *)
  log : list (Level * string)    (* the calls of [logger], oldest first *)
}.

Definition set_db (d : DB) (w : World) : World :=
  mkWorld d (pool w) (faults w) (conn w) (trace w)
          (queue w) (unfinished w) (log w).
Definition set_pool (p : bool) (w : World) : World :=
  mkWorld (db w) p (faults w) (conn w) (trace w)
          (queue w) (unfinished w) (log w).
Definition set_faults (f : list (option fault)) (w : World) : World :=
  mkWorld (db w) (pool w) f (conn w) (trace w)
          (queue w) (unfinished w) (log w).
Definition set_conn (c : Conn) (w : World) : World :=
  mkWorld (db w) (pool w) (faults w) c (trace w)
          (queue w) (unfinished w) (log w).
Definition sent (s : Stmt) (w : World) : World :=
  mkWorld (db w) (pool w) (faults w) (conn w) (trace w ++ [s])%list
          (queue w) (unfinished w) (log w).
Definition set_queue (q : list Event) (n : nat) (w : World) : World :=
  mkWorld (db w) (pool w) (faults w) (conn w) (trace w) q n (log w).
Definition logged (l : Level) (m : string) (w : World) : World :=
  mkWorld (db w) (pool w) (faults w) (conn w) (trace w)
          (queue w) (unfinished w) (log w ++ [(l, m)])%list.

(** ** The monad of coroutines: state and exceptions *)

(** A coroutine run on its own returns, raises, or stays suspended at an
    await that nothing it does itself will complete ([Pending]). *)
Inductive outcome (A : Type) :=
| Ret (a : A)
| Raise (e : exn)
| Pending.
Arguments Raise {A} e.
Arguments Pending {A}.

Definition M (A : Type) : Type := World -> outcome A * World.

Definition ret {A} (a : A) : M A := fun w => (Ret a, w).
Definition raise {A} (e : exn) : M A := fun w => (Raise e, w).
Definition bind {A B} (m : M A) (k : A -> M B) : M B :=
  fun w => match m w with
           | (Ret a, w') => k a w'
           | (Raise e, w') => (Raise e, w')
           | (Pending, w') => (Pending, w')
           end.

(** [try: m  except Exception as e: h e]. Every exception of [exn] is an
    [Exception]; cancellation of a task is not, and is not in [exn]. *)
Definition try_except {A} (m : M A) (h : exn -> M A) : M A :=
  fun w => match m w with
           | (Ret a, w') => (Ret a, w')
           | (Raise e, w') => h e w'
           | (Pending, w') => (Pending, w')
           end.

Definition logger (l : Level) (m : string) : M unit :=
  fun w => (Ret tt, logged l m w).

Declare Scope py_scope.
Delimit Scope py_scope with py.
Notation "x <- m ;; k" := (bind m (fun x => k))
  (at level 61, m at next level, right associativity) : py_scope.
Notation "m ;; k" := (bind m (fun _ => k))
  (at level 61, right associativity) : py_scope.
Local Open Scope py_scope.

(** ** The connection: round trips, faults and transactions *)

(** The next entry of the oracle: [Some x] makes the round trip fail with
    [x], [None] (or an exhausted oracle) lets it through. *)
Definition next_fault (w : World) : option fault * World :=
  match faults w with
  | f :: fs => (f, set_faults fs w)
  | [] => (None, w)
  end.

(** The state of the connection after a round trip met the fault [x]. *)
Definition after_fault (x : fault) : Conn :=
  if lost x then Closed else Aborted.

(** One statement sent to the server. [sem] is what the statement does to
    the tables. On a closed connection nothing is sent. A statement the
    server refuses leaves the open transaction aborted; the program never
    sends a statement after that, only COMMIT or ROLLBACK. *)
Definition round_trip {A} (s : Stmt) (sem : DB -> exn + A * DB) : M A :=
  fun w =>
    match conn w with
    | Closed =>
        (Raise (InterfaceError
                  "cannot perform operation: connection is closed"), w)
    | _ =>
        match next_fault (sent s w) with
        | (Some x, w1) => (Raise (exn_of x), set_conn (after_fault x) w1)
        | (None, w1) =>
            match sem (db w1) with
            | inl x => (Raise x, set_conn Aborted w1)
            | inr (a, d) => (Ret a, set_db d w1)
            end
        end
    end.

(** The end of [async with conn.transaction()], [Transaction.__aexit__]:
    on a closed connection it raises [InterfaceError], whatever the block
    did; otherwise it sends [s], COMMIT after a block that returned and
    ROLLBACK after one that raised. The server answers COMMIT with a
    rollback when the transaction is aborted. A round trip that fails here
    leaves nothing committed. *)
Definition end_transaction {A} (snapshot : DB) (s : Stmt) (o : outcome A)
  : M A :=
  fun w =>
    match conn w with
    | Closed =>
        (Raise (InterfaceError
                  "cannot call Transaction.__aexit__(): the underlying connection is closed"),
         set_db snapshot w)
    | c =>
        match next_fault (sent s w) with
        | (Some x, w1) =>
            (Raise (exn_of x),
             set_conn (if lost x then Closed else Healthy) (set_db snapshot w1))
        | (None, w1) =>
            match s, c with
            | Commit, Healthy => (o, w1)
            | _, _ => (o, set_conn Healthy (set_db snapshot w1))
            end
        end
    end.

(** [async with conn.transaction(isolation=...)]: [__aenter__] sends
    BEGIN, and the block does not run when that fails; then the block;
    then [__aexit__]. *)
Definition transaction {A} (iso : Isolation) (body : M A) : M A :=
  fun w =>
    let snapshot := db w in
    match round_trip (Begin iso) (fun d => inr (tt, d)) w with
    | (Ret _, w0) =>
        match body w0 with
        | (Ret a, w1) => end_transaction snapshot Commit (Ret a) w1
        | (Raise x, w1) => end_transaction snapshot Rollback (Raise x) w1
        | (Pending, w1) => (Pending, w1)
        end
    | (Raise x, w0) => (Raise x, w0)
    | (Pending, w0) => (Pending, w0)
    end.

(** The fingerprint [(topic, event_id)] and the unique constraints. *)
Definition key (e : Event) : string * string := (topic e, event_id e).

Definition key_eqb (a b : string * string) : bool :=
  (fst a =? fst b)%string && (snd a =? snd b)%string.

Definition in_dedup (k : string * string) (d : DB) : bool :=
  existsb (key_eqb k) (dedup_store d).

Definition in_processed (k : string * string) (d : DB) : bool :=
  existsb (fun r => key_eqb k (key r)) (processed_events d).

(** PostgreSQL [INT]: a value outside the range is an error. *)
Definition in_int4 (z : Z) : bool := (-2147483648 <=? z) && (z <=? 2147483647).

(** [INSERT INTO dedup_store ... ON CONFLICT DO NOTHING] *)
Definition insert_dedup (t i : string) (d : DB) : DB :=
  if in_dedup (t, i) d then d
  else mkDB (processed_events d) (dedup_store d ++ [(t, i)]) (event_stats d).

(** [INSERT INTO processed_events ... ON CONFLICT DO NOTHING] *)
Definition insert_processed (e : Event) (d : DB) : DB :=
  if in_processed (key e) d then d
  else mkDB (processed_events d ++ [e]) (dedup_store d) (event_stats d).

(** What asyncpg raises for an argument that the [INT] parameter [$k]
    cannot hold. *)
Definition out_of_int32 (k : Z) (z : Z) : exn :=
  DataError ("invalid input for query argument $" ++ str_int k ++ ": "
               ++ str_int z ++ " (value out of int32 range)").

(** [UPDATE event_stats SET received = received + $1, ... WHERE id = 1].
    The three parameters are [INT]: asyncpg refuses an argument out of
    range before the statement runs, whether or not the row is there. The
    server refuses a sum out of range. *)
Definition update_stats (dr du dd : Z) (d : DB) : exn + DB :=
  if negb (in_int4 dr) then inl (out_of_int32 1 dr)
  else if negb (in_int4 du) then inl (out_of_int32 2 du)
  else if negb (in_int4 dd) then inl (out_of_int32 3 dd)
  else
    match event_stats d with
    | None => inr d
    | Some s =>
        let s' := mkStats (received s + dr) (unique_processed s + du)
                          (duplicate_dropped s + dd) in
        if in_int4 (received s') && in_int4 (unique_processed s')
           && in_int4 (duplicate_dropped s')
        then inr (mkDB (processed_events d) (dedup_store d) (Some s'))
        else inl (PostgresError "integer out of range")
    end.

(** [UPDATE event_stats SET received = 0, ... WHERE id = 1] *)
Definition reset_stats (d : DB) : DB :=
  match event_stats d with
  | None => d
  | Some _ => mkDB (processed_events d) (dedup_store d) (Some (mkStats 0 0 0))
  end.

(** [conn.execute] of the statements the program sends. *)
Definition execute (s : Stmt) : M unit :=
  round_trip s
    (fun d =>
       match s with
       | InsertDedup t i => inr (tt, insert_dedup t i d)
       | InsertProcessed e => inr (tt, insert_processed e d)
       | UpdateStats dr du dd =>
           match update_stats dr du dd d with
           | inl x => inl x
           | inr d' => inr (tt, d')
           end
       | TruncateProcessed => inr (tt, mkDB [] (dedup_store d) (event_stats d))
       | TruncateDedup => inr (tt, mkDB (processed_events d) [] (event_stats d))
       | ResetStats => inr (tt, reset_stats d)
       | _ => inr (tt, d)
       end).

(** ** src/database.py *)

Module Database.

(** [async with get_connection() as conn]: a connection of the pool, in
    working order when it is handed out (the pool replaces a connection
    that broke). *)
Definition get_connection {A} (body : M A) : M A :=
  fun w => if pool w then body (set_conn Healthy w)
           else (Raise (RuntimeError "Database pool not initialized"), w).

Definition close_pool : M unit :=
  fun w => if pool w
           then (Ret tt, logged INFO "Database pool closed" (set_pool false w))
           else (Ret tt, w).

Definition is_processed (topic event_id : string) : M bool :=
  get_connection
    (round_trip (SelectDedup topic event_id)
                (fun d => inr (in_dedup (topic, event_id) d, d))).

Definition mark_processed (event : Event) : M (bool * option string) :=
  get_connection
    (transaction Serializable
       (try_except
          (execute (InsertDedup (topic event) (event_id event)) ;;
           execute (InsertProcessed event) ;;
           ret (true, None))
          (fun e =>
             match e with
             | UniqueViolationError _ =>
                 logger WARNING ("Duplicate event rejected: "
                                   ++ topic event ++ "/" ++ event_id event) ;;
                 ret (false, Some "Duplicate event")
             | _ =>
                 logger ERROR ("Error marking event as processed: " ++ str e) ;;
                 ret (false, Some (str e))
             end))).

Definition increment_stats (received unique duplicate : Z) : M unit :=
  get_connection
    (transaction Serializable
       (try_except
          (execute (UpdateStats received unique duplicate))
          (fun e =>
             logger ERROR ("Error updating stats: " ++ str e) ;;
             raise e))).

Definition get_stats : M Stats :=
  get_connection
    (stats <- round_trip SelectStats (fun d => inr (event_stats d, d)) ;;
     match stats with
     | None => ret (mkStats 0 0 0)
     | Some s => ret s
     end).

Definition clear_all_data : M unit :=
  get_connection
    (transaction ReadCommitted
       (execute TruncateProcessed ;;
        execute TruncateDedup ;;
        execute ResetStats)).

(** A read over the connection, outside any transaction: the oracle
    decides whether the round trip goes through. Reads of the query
    endpoints are not kept in [trace]. *)
Definition fetch {A} (sem : DB -> A) : M A :=
  fun w => match next_fault w with
           | (Some x, w1) => (Raise (exn_of x), set_conn (after_fault x) w1)
           | (None, w1) => (Ret (sem (db w1)), w1)
           end.

(** [init_pool]: nothing to do when the pool is there; otherwise
    [asyncpg.create_pool] opens the connections, which can fail. *)
Definition init_pool : M unit :=
  fun w =>
    if pool w then (Ret tt, w)
    else match next_fault w with
         | (Some x, w1) =>
             (Raise (exn_of x),
              logged ERROR ("Failed to initialize database pool: "
                              ++ str (exn_of x)) w1)
         | (None, w1) =>
             (Ret tt, logged INFO "Database pool initialized" (set_pool true w1))
         end.

(** A value under the key ["payload"], as far as a response model looks
    at it: a [dict], or the [str] that [json.dumps] made of one. *)
Inductive PyValue :=
| PyDict (p : Payload)
| JsonText (p : Payload).

(** [row["payload"]]: the column is JSONB, written from
    [json.dumps(event.payload)], and asyncpg hands JSONB back as [str],
    no codec being set on the pool. *)
Definition payload_column (row : Event) : PyValue := JsonText (payload row).

(** [get_events_by_topic]. [if topic:] is false for [None] and for the
    empty string. The rows come back with the columns they were stored
    with, in the order of [processed_at], which is the order of insertion;
    the column [processed_at] itself is not in the model of the table. A
    row is given as the event it stores; what it has under ["payload"] is
    [payload_column]. *)
Definition get_events_by_topic (topic : option string) : M (list Event) :=
  get_connection
    (match topic with
     | Some t =>
         if (t =? "")%string then fetch processed_events
         else fetch (fun d =>
                       filter (fun row => (Models.topic row =? t)%string)
                              (processed_events d))
     | None => fetch processed_events
     end).

(** [ORDER BY] with the comparison [le] of the collation of the database:
    insertion into a sorted list, and the sort built on it. *)
Fixpoint insert_sorted (le : string -> string -> bool) (x : string)
    (l : list string) : list string :=
  match l with
  | [] => [x]
  | y :: rest => if le x y then x :: l else y :: insert_sorted le x rest
  end.

Definition order_by (le : string -> string -> bool) (l : list string)
  : list string :=
  fold_right (insert_sorted le) [] l.

(** [get_topics]: [SELECT DISTINCT topic FROM processed_events ORDER BY
    topic]. *)
Definition get_topics (le : string -> string -> bool) : M (list string) :=
  get_connection
    (fetch (fun d =>
              order_by le (nodup string_dec
                                 (map Models.topic (processed_events d))))).

(** [get_event_count]: [SELECT COUNT( * )], and [count or 0]. *)
Definition get_event_count : M Z :=
  get_connection
    (count <- fetch (fun d => Z.of_nat (List.length (processed_events d))) ;;
     ret (if count =? 0 then 0 else count)).

End Database.

Import Database.

(** ** Python's [float]: IEEE 754 binary64 *)

Module Binary64.

Import SpecFloat.

(** The values and the operations are the Standard Library's
    specification of binary64 ([spec_float], with 53 bits of mantissa
    and infinities at exponent 1024), which its axioms state to be what
    the machine computes. *)
Definition prec : Z := 53.
Definition emax : Z := 1024.
Definition float : Type := spec_float.

(** [float(n)] *)
Definition of_int (z : Z) : float := binary_normalize prec emax z 0 false.

(** The integer [n >= 0] with the sign [s], as it is, before any
    rounding. *)
Definition magnitude (s : bool) (n : Z) : float :=
  match n with
  | Zpos p => S754_finite s p 0
  | _ => S754_zero s
  end.

(** [a / b] for two [int]: the quotient of the integers, rounded once. *)
Definition truediv (a b : Z) : exn + float :=
  if b =? 0 then inl (ZeroDivisionError "division by zero")
  else
    match SFdiv prec emax (magnitude (a <? 0) (Z.abs a))
                (magnitude (b <? 0) (Z.abs b)) with
    | S754_infinity _ =>
        inl (OverflowError "integer division result too large for a float")
    | q => inr q
    end.

(** [x * y] *)
Definition mul (x y : float) : float := SFmul prec emax x y.

(** [a / b] to the nearest integer, ties to the even one ([a >= 0],
    [b > 0]). *)
Definition half_even (a b : Z) : Z :=
  let q := a / b in
  match 2 * (a mod b) ?= b with
  | Lt => q
  | Gt => q + 1
  | Eq => if Z.even q then q else q + 1
  end.

(** [m * 2^e * 100] to the nearest integer: the digits of the decimal
    string of [round(x, 2)], which CPython takes from the exact value of
    [x], ties to even. *)
Definition hundredths (m : positive) (e : Z) : Z :=
  if 0 <=? e then Zpos m * 2 ^ e * 100
  else half_even (Zpos m * 100) (2 ^ (- e)).

(** The decimal string read back: the binary64 nearest to [n / 100], with
    the sign [s]. *)
Definition of_hundredths (s : bool) (n : Z) : float :=
  SFdiv prec emax (magnitude s n) (S754_finite false 100 0).

(** [round(x, 2)] for a [float]; zeros, infinities and nan round to
    themselves. *)
Definition round2 (x : float) : float :=
  match x with
  | S754_finite s m e => of_hundredths s (hundredths m e)
  | _ => x
  end.

(** The same expression on the floats of the machine, for comparison. *)
Definition machine_int (z : Z) : PrimFloat.float :=
  if z <? 0 then PrimFloat.opp (PrimFloat.of_uint63 (Uint63.of_Z (- z)))
  else PrimFloat.of_uint63 (Uint63.of_Z z).

Definition machine_percent (count total : Z) : PrimFloat.float :=
  PrimFloat.mul (PrimFloat.div (machine_int count) (machine_int total))
                (machine_int 100).

End Binary64.

(** ** src/main.py *)

Module Main.

(** [_queue = asyncio.Queue(maxsize=10000)] *)
Definition maxsize : Z := 10000.

Definition full (w : World) : bool :=
  maxsize <=? Z.of_nat (List.length (queue w)).

(** [await _queue.put(item)]. A put on a full queue waits until a [get]
    frees a slot, which the coroutine does not do itself. *)
Definition queue_put (item : Event) : M unit :=
  fun w => if full w then (Pending, w)
           else (Ret tt, set_queue (queue w ++ [item])%list (S (unfinished w)) w).

(** [_queue.task_done()] *)
Definition task_done : M unit :=
  fun w => match unfinished w with
           | O => (Raise (ValueError "task_done() called too many times"), w)
           | S n => (Ret tt, set_queue (queue w) n w)
           end.

Definition fingerprint (event : Event) : string :=
  topic event ++ "/" ++ event_id event.

(** The body of the [try] of [consumer_worker], after [_queue.get()]
    returned [event]. The messages of the log are the source's, without
    the check mark or cross they start with. *)
Definition process (event : Event) : M unit :=
  logger DEBUG ("Consumer processing event: " ++ fingerprint event) ;;
  already_processed <- is_processed (topic event) (event_id event) ;;
  (if already_processed : bool then
     increment_stats 0 0 1 ;;
     logger INFO ("Duplicate dropped: " ++ fingerprint event)
   else
     r <- mark_processed event ;;
     let '(success, error) := r in
     if success : bool then
       increment_stats 0 1 0 ;;
       logger INFO ("Event processed: " ++ fingerprint event)
     else
       increment_stats 0 0 1 ;;
       logger WARNING ("Event rejected: " ++ with_default error "None"
                         ++ " - " ++ fingerprint event)) ;;
  task_done.

(** One turn of the [while True] of [consumer_worker]. [None]: the
    queue is empty and [_queue.get()] stays suspended. *)
Definition consumer_worker (w : World) : option (outcome unit * World) :=
  match queue w with
  | [] => None
  | event :: rest =>
      Some (try_except
              (process event)
              (fun e =>
                 logger ERROR ("Error in consumer worker: " ++ str e) ;;
                 task_done)
              (set_queue rest (unfinished w) w))
  end.

Definition Counters : Type := nat * nat * list ErrorDetail.

(** [str(error_detail)] for the dict [{"index": idx, "error": msg}]. *)
Definition str_detail (idx : nat) (msg : string) : string :=
  "{'index': " ++ str_nat idx ++ ", 'error': " ++ repr_str msg ++ "}".

(** The body of the [for idx, event in enumerate(events_to_publish)] of
    [publish_events], with the running [accepted], [rejected] and
    [errors]. Every field of [event.dict()] is present, so the default
    factories of [Event] are not called. In the [except ValidationError]
    branch, [event] is an [Event] and has no [get]: building
    [error_detail] raises, and the exception leaves the loop. *)
Definition publish_one (idx : nat) (event : Event) (acc : Counters)
  : M Counters :=
  let '(accepted, rejected, errors) := acc in
  try_except
    (match Event_init "" "" (dict event) with
     | inl x => raise x
     | inr validated_event =>
         increment_stats 1 0 0 ;;
         queue_put validated_event ;;
         logger DEBUG ("Event accepted for processing: "
                         ++ fingerprint event) ;;
         ret (S accepted, rejected, errors)
     end)
    (fun e =>
       match e with
       | ValidationError _ =>
           raise (AttributeError "'Event' object has no attribute 'get'")
       | _ =>
           logger ERROR ("Unexpected error processing event: "
                           ++ str_detail idx (str e)) ;;
           ret (accepted, S rejected,
                (errors ++ [mkDetail idx None (str e)])%list)
       end).

Fixpoint publish_loop (idx : nat) (events_to_publish : list Event)
    (acc : Counters) : M Counters :=
  match events_to_publish with
  | [] => ret acc
  | event :: rest =>
      acc' <- publish_one idx event acc ;;
      publish_loop (S idx) rest acc'
  end.

(** The handler of [POST /publish], on a request that passed the
    request model. *)
Definition publish_events (request : PublishRequest) : M PublishResponse :=
  let events_to_publish := get_events request in
  try_except
    (acc <- publish_loop 0 events_to_publish (O, O, []) ;;
     let '(accepted, rejected, errors) := acc in
     ret (mkResponse "accepted" (List.length events_to_publish)
                     accepted rejected errors))
    (fun e =>
       logger ERROR ("Error in publish endpoint: " ++ str e) ;;
       raise (HTTPException 500 (str e))).

(** [POST /publish] as the framework serves it: the body is parsed into
    the handler's parameter [request: PublishRequest] first, and a body
    the model refuses is answered 422 without the handler running. *)
Definition post_publish (f : Factories)
    (body : option (EventsField RawEvent)) : M PublishResponse :=
  match PublishRequest_init f body with
  | inl x => raise (HTTPException 422 (str x))
  | inr request => publish_events request
  end.

(** *** Lifecycle *)

Inductive TaskState := Running | Cancelled | Crashed.

Inductive Phase := Serving | Draining | Stopped.

Record Sys := mkSys {
  world : World;
  consumer_task : TaskState;   (* [_consumer_task] *)
  phase : Phase
}.

(** The start of the [finally] of [lifespan]: log, then
    [_consumer_task.cancel()] and [await _consumer_task]. The
    cancellation is not an [Exception]: the [except] of the consumer
    does not catch it, and the task ends. *)
Definition shutdown_cancel (s : Sys) : Sys :=
  mkSys (logged INFO "Shutting down aggregator service..." (world s))
        Cancelled Draining.

(** [await _queue.join()]: returns once every item put has been marked
    done, and stays suspended until then. *)
Definition queue_join (w : World) : option World :=
  match unfinished w with
  | O => Some w
  | S _ => None
  end.

(** The rest of the [finally]: join, log, close the pool, log. *)
Definition shutdown_close (s : Sys) : option Sys :=
  match queue_join (world s) with
  | None => None
  | Some w =>
      let w1 := logged INFO "Queue emptied" w in
      let w2 := snd (close_pool w1) in
      Some (mkSys (logged INFO "Aggregator service stopped" w2)
                  (consumer_task s) Stopped)
  end.

(** What can happen next in the process: a request is served, the
    consumer takes its turn, or the shutdown moves on. The environment
    chooses the oracle [fs] of the turn. *)
Inductive step : Sys -> Sys -> Prop :=
| step_publish s f body fs :
    phase s = Serving ->
    step s (mkSys (snd (post_publish f body (set_faults fs (world s))))
                  (consumer_task s) (phase s))
| step_consumer s fs r w' :
    consumer_task s = Running ->
    consumer_worker (set_faults fs (world s)) = Some (r, w') ->
    step s (mkSys w'
                  (match r with Raise _ => Crashed | _ => Running end)
                  (phase s))
| step_cancel s :
    phase s = Serving ->
    step s (shutdown_cancel s)
| step_close s s' :
    phase s = Draining ->
    shutdown_close s = Some s' ->
    step s s'.

Inductive steps : Sys -> Sys -> Prop :=
| steps_refl s : steps s s
| steps_next s1 s2 s3 : step s1 s2 -> steps s2 s3 -> steps s1 s3.

(** *** The other routes *)

(** [EventResponse(...)] on a row: [payload: Dict[str, Any]] takes a
    [dict] and refuses a [str]. *)
Definition EventResponse_init (row : Event) (p : PyValue) : exn + Event :=
  match p with
  | PyDict p' =>
      inr (mkEvent (topic row) (event_id row) (timestamp row) (source row) p')
  | JsonText _ => inl (ValidationError [("payload", DictType)])
  end.

(** [response_model=List[EventResponse]]: the framework validates what
    the handler returned, item by item. *)
Fixpoint serialize_events (rows : list Event) : exn + list Event :=
  match rows with
  | [] => inr []
  | row :: rest =>
      match EventResponse_init row (payload_column row),
            serialize_events rest with
      | inr e, inr es => inr (e :: es)
      | inl x, _ => inl x
      | _, inl x => inl x
      end
  end.

(** [GET /events]: the handler [get_events] of [main.py], and the
    validation of its result against the response model, which is
    outside the handler's [try] and ends the request with an internal
    server error when it fails. The handler has the name of the route
    here, [get_events] being the method of the request model. *)
Definition get_events_route (topic : option string) : M (list Event) :=
  events <- try_except
              (get_events_by_topic topic)
              (fun e =>
                 logger ERROR ("Error getting events: " ++ str e) ;;
                 raise (HTTPException 500 (str e))) ;;
  match serialize_events events with
  | inr l => ret l
  | inl (ValidationError errs) => raise (ResponseValidationError errs)
  | inl x => raise x
  end.

(** [POST /events] *)
Definition post_events (request : PublishRequest) : M PublishResponse :=
  publish_events request.



(** [round((count / total * 100) if total > 0 else 0, 2)], as the
    [float] field of the response holds it: [round(0, 2)] is the [int]
    0, which the field turns into 0.0. *)
Definition rate (count total : Z) : exn + Binary64.float :=
  if 0 <? total then
    match Binary64.truediv count total with
    | inl x => inl x
    | inr q => inr (Binary64.round2 (Binary64.mul q (Binary64.of_int 100)))
    end
  else inr (SpecFloat.S754_zero false).


End Main.

Import Main.

(** ** Calls of [increment_stats] that run together *)

Module Concurrent.

(** [asyncio.gather] starts its coroutines together, each on a
    connection of its own. A coroutine runs alone between two awaits;
    at an await the event loop goes on with any other one. A call of
    [increment_stats] has three round trips to await, in order: BEGIN,
    the UPDATE, and COMMIT, or ROLLBACK once the UPDATE has failed and
    the error is logged. The transactions are serializable: the UPDATE
    reads the row as committed; when another transaction in progress
    has updated the row it waits, and fails once that one commits. No
    other failure is in this model. *)
Inductive Call :=
| AtBegin
| AtUpdate
| Waiting
| AtCommit (d' : DB)
| AtRollback (x : exn)
| Returned
| Raised (x : exn).

Record State := mkState {
  committed : DB;
  holder : option nat;     (* the call that has updated the row, uncommitted *)
  calls : list (Z * Z * Z * Call)
}.

Definition conflict_error : exn :=
  SerializationError "could not serialize access due to concurrent update".

Definition set_call (i : nat) (c : Call) (l : list (Z * Z * Z * Call))
  : list (Z * Z * Z * Call) :=
  map (fun p => if (fst p =? i)%nat
                then (fst (snd p), c) else snd p)
      (combine (seq 0 (List.length l)) l).

(** What the commit of the holder does to a call that waits. *)
Definition wake (p : Z * Z * Z * Call) : Z * Z * Z * Call :=
  match snd p with
  | Waiting => (fst p, AtRollback conflict_error)
  | _ => p
  end.

Definition holds (i : nat) (h : option nat) : bool :=
  match h with
  | Some j => (j =? i)%nat
  | None => false
  end.

(** The event loop resumes the call [i], which runs to its next await. *)
Definition resume (i : nat) (st : State) : State :=
  match nth_error (calls st) i with
  | None => st
  | Some (r, u, d, c) =>
      match c with
      | AtBegin => mkState (committed st) (holder st) (set_call i AtUpdate (calls st))
      | AtUpdate =>
          match update_stats r u d (committed st) with
          | inl x =>
              mkState (committed st) (holder st)
                      (set_call i (AtRollback x) (calls st))
          | inr d' =>
              match event_stats (committed st), holder st with
              | Some _, Some _ =>
                  mkState (committed st) (holder st)
                          (set_call i Waiting (calls st))
              | Some _, None =>
                  mkState (committed st) (Some i)
                          (set_call i (AtCommit d') (calls st))
              | None, _ =>
                  mkState (committed st) (holder st)
                          (set_call i (AtCommit d') (calls st))
              end
          end
      | Waiting => st
      | AtCommit d' =>
          if holds i (holder st)
          then mkState d' None (map wake (set_call i Returned (calls st)))
          else mkState d' (holder st) (set_call i Returned (calls st))
      | AtRollback x =>
          mkState (committed st) (holder st) (set_call i (Raised x) (calls st))
      | Returned | Raised _ => st
      end
  end.

(** The calls are resumed in the order of [schedule]. *)
Definition interleave (schedule : list nat) (st : State) : State :=
  fold_left (fun st i => resume i st) schedule st.

Definition start (d : DB) (deltas : list (Z * Z * Z)) : State :=
  mkState d None (map (fun c => (c, AtBegin)) deltas).

(** [k] rounds over [n] calls, each resumed once per round in the order
    [gather] started them. *)
Definition rounds (k n : nat) : list nat :=
  List.concat (repeat (seq 0 n) k).

Definition results (st : State) : list Call := map snd (calls st).

End Concurrent.

Unset Implicit Arguments.

(** ** Vocabulary of the properties *)

(** The database after the bootstrap script: empty tables, counters at
    zero. *)
Definition bootstrapped : DB := mkDB [] [] (Some (mkStats 0 0 0)).

(** The process after startup, with [q] waiting in the queue and the
    oracle [fs]. *)
Definition started (fs : list (option fault)) (q : list Event) : World :=
  mkWorld bootstrapped true fs Healthy [] q (List.length q) [].

(** A string of [n] characters. *)
Fixpoint chars (n : nat) : string :=
  match n with
  | O => ""
  | S k => String "a"%char (chars k)
  end.

Definition sample (t i : string) : Event :=
  mkEvent t i "2025-12-18T10:30:00Z" "service-a" [].

Definition sample_raw (t : option string) (i : string) : RawEvent :=
  mkRaw t (Some i) (Some "2025-12-18T10:30:00Z") (Some "service-a") None.

Definition factories : Factories :=
  mkFactories (fun _ => "00000000-0000-4000-8000-000000000000")
              (fun _ => "2025-12-18T10:30:00").

Definition e1 : Event := sample "t" "e1".

Definition conflict : fault :=
  SerializationFailure "could not serialize access due to concurrent update".

Definition reset : fault := ConnectionLost "connection reset by peer".

Definition timeout : fault :=
  ServerError "canceling statement due to statement timeout".

(** The constraints of the model on the fields of an event. *)
Definition well_formed (e : Event) : Prop :=
  (1 <= String.length (topic e) <= 255)%nat
  /\ (1 <= String.length (source e) <= 255)%nat.

(** What the model asks of a raw record: [topic] and [source] present,
    of one to 255 characters. *)
Definition acceptable (r : RawEvent) : Prop :=
  exists t s, raw_topic r = Some t /\ raw_source r = Some s
    /\ (1 <= String.length t <= 255)%nat /\ (1 <= String.length s <= 255)%nat.

(** Transactions opened in a trace. *)
Fixpoint begins (tr : list Stmt) : nat :=
  match tr with
  | [] => O
  | Begin _ :: rest => S (begins rest)
  | _ :: rest => begins rest
  end.

(** Calls of [increment_stats], one after the other. *)
Fixpoint increments (calls : list (Z * Z * Z)) : M unit :=
  match calls with
  | [] => ret tt
  | (r, u, d) :: rest => increment_stats r u d ;; increments rest
  end.

Definition add_stats (s : Stats) (c : Z * Z * Z) : Stats :=
  let '(r, u, d) := c in
  mkStats (received s + r) (unique_processed s + u) (duplicate_dropped s + d).

(** The UPDATE of a call with the deltas [c]. *)
Definition apply_deltas (c : Z * Z * Z) (d : DB) : exn + DB :=
  let '(r, u, dd) := c in update_stats r u dd d.

(** What an operation of the persistence layer leaves alone. *)
Definition same_process (w w' : World) : Prop :=
  pool w' = pool w /\ queue w' = queue w /\ unfinished w' = unfinished w.

Definition same_tables (d d' : DB) : Prop :=
  processed_events d' = processed_events d /\ dedup_store d' = dedup_store d.

Definition int4 (z : Z) : Prop := -2147483648 <= z <= 2147483647.

(** What [increment_stats] can raise: what a round trip failed with,
    the range error of the update, the closed connection, or the missing
    pool. None of them is a [ValidationError]. *)
Definition from_database (x : exn) : Prop :=
  match x with
  | UniqueViolationError _ | SerializationError _ | PostgresError _
  | DataError _ | ConnectionDoesNotExistError _ | InterfaceError _
  | RuntimeError _ => True
  | _ => False
  end.

(** The message [mark_processed] returns for an error it caught. *)
Definition error_message (x : exn) : string :=
  match x with
  | UniqueViolationError _ => "Duplicate event"
  | _ => str x
  end.

(** The process after one [mark_processed e1] went through. *)
Definition marked_once : World := snd (mark_processed e1 (started [] [])).

(** The sum of the deltas of a list of calls, column by column. *)
Fixpoint sum_deltas (calls : list (Z * Z * Z)) : Z * Z * Z :=
  match calls with
  | [] => (0, 0, 0)
  | (r, u, d) :: rest =>
      let '(r', u', d') := sum_deltas rest in (r + r', u + u', d + d')
  end.

(** An operation keeps a property of the tables. *)
Definition keeps (P : DB -> Prop) {A} (m : M A) : Prop :=
  forall w, P (db w) -> P (db (snd (m w))).

(** Two requests: three valid events, and the same with the second one
    lacking its [topic]; the oracle under which the transaction of the
    second received-increment cannot begin; and the response to the first
    request under it. *)
Definition three_valid : option (EventsField RawEvent) :=
  Some (Batch [sample_raw (Some "t") "e1"; sample_raw (Some "t") "e2";
               sample_raw (Some "t") "e3"]).

Definition one_bad : option (EventsField RawEvent) :=
  Some (Batch [sample_raw (Some "t") "e1"; sample_raw None "e2";
               sample_raw (Some "t") "e3"]).

Definition second_fails : list (option fault) :=
  [None; None; None; Some reset].

Definition two_of_three : PublishResponse :=
  mkResponse "accepted" 3 2 1 [mkDetail 1 None "connection reset by peer"].

(** The service with [e1] accepted and waiting in the queue, and with
    nothing waiting. *)
Definition backlog : Sys := mkSys (started [] [e1]) Running Serving.

Definition idle : Sys := mkSys (started [] []) Running Serving.

(** (I1): every row of [processed_events] has its fingerprint in
    [dedup_store]. *)
Definition I1 (d : DB) : Prop :=
  forall e, In e (processed_events d) -> in_dedup (key e) d = true.

(** The operations of the persistence layer and of the service. *)
Inductive Op :=
| OpIsProcessed (t i : string)
| OpMarkProcessed (e : Event)
| OpIncrementStats (r u d : Z)
| OpGetStats
| OpClear
| OpClosePool
| OpPublish (f : Factories) (body : option (EventsField RawEvent))
| OpConsume.

Definition run (o : Op) (w : World) : World :=
  match o with
  | OpIsProcessed t i => snd (is_processed t i w)
  | OpMarkProcessed e => snd (mark_processed e w)
  | OpIncrementStats r u d => snd (increment_stats r u d w)
  | OpGetStats => snd (get_stats w)
  | OpClear => snd (clear_all_data w)
  | OpClosePool => snd (close_pool w)
  | OpPublish f body => snd (post_publish f body w)
  | OpConsume => match consumer_worker w with
                 | Some (_, w') => w'
                 | None => w
                 end
  end.

(** The states the process can be in: it starts on empty tables, and every
    operation runs against whatever the environment has in store. *)
Inductive reachable : World -> Prop :=
| reach_start fs q : reachable (started fs q)
| reach_env w fs : reachable w -> reachable (set_faults fs w)
| reach_run w o : reachable w -> reachable (run o w).

(** An oracle with no failure in it. *)
Definition quiet (fs : list (option fault)) : Prop :=
  Forall (fun f => f = None) fs.

(** A triple for the monad: from a world where [P] holds, [m] ends, with
    a value or with an exception, in a world where [Q] holds of the
    outcome. *)
Definition hoare {A} (P : World -> Prop) (m : M A)
    (Q : outcome A -> World -> Prop) : Prop :=
  forall w, P w -> Q (fst (m w)) (snd (m w)).

(** The counters leave room for [k] more credits: the row exists, and
    [unique_processed + duplicate_dropped + k <= received]. *)
Definition slack (k : Z) (d : DB) : Prop :=
  exists s, event_stats d = Some s
            /\ 0 <= unique_processed s /\ 0 <= duplicate_dropped s
            /\ unique_processed s + duplicate_dropped s + k <= received s.

(** The queue and its count of unfinished items agree, and every queued
    event is covered by [received]. *)
Definition accounted (w : World) : Prop :=
  unfinished w = List.length (queue w)
  /\ slack (Z.of_nat (List.length (queue w))) (db w).

(** The states of a service that only serves [POST /publish] and lets the
    consumer take its turns, from startup, against any oracle. *)
Inductive serving : World -> Prop :=
| serving_start fs : serving (started fs [])
| serving_env w fs : serving w -> serving (set_faults fs w)
| serving_publish w f body : serving w -> serving (run (OpPublish f body) w)
| serving_consume w : serving w -> serving (run OpConsume w).

(** No fingerprint twice in [dedup_store], nor in
    [processed_events]. *)
Definition unique_keys (d : DB) : Prop :=
  NoDup (dedup_store d) /\ NoDup (map key (processed_events d)).

(** [l'] is [l] with some of its items left out, the others in order. *)
Inductive subseq {A : Type} : list A -> list A -> Prop :=
| subseq_nil : subseq [] []
| subseq_take x l' l : subseq l' l -> subseq (x :: l') (x :: l)
| subseq_skip x l' l : subseq l' l -> subseq l' (x :: l).

(** The consumer in the middle of a turn: the event is off the queue,
    [rest] is waiting, [k] items are unfinished, and [S] holds of the
    tables. *)
Definition at_turn (rest : list Event) (k : nat) (p : bool)
    (S : DB -> Prop) (w : World) : Prop :=
  queue w = rest /\ unfinished w = k /\ pool w = p /\ S (db w).

(** What a turn of the consumer on [e] can have done to the database
    [d0]: nothing; a duplicate credited; the event stored; the event
    stored and credited as unique. *)
Definition turn_result (d0 : DB) (e : Event) (d : DB) : Prop :=
  d = d0
  \/ update_stats 0 0 1 d0 = inr d
  \/ d = insert_processed e (insert_dedup (topic e) (event_id e) d0)
  \/ update_stats 0 1 0
       (insert_processed e (insert_dedup (topic e) (event_id e) d0))
     = inr d.


(** The value of the mantissa [m] at the exponent [e], as a real
    number. *)
Definition val (m e : Z) : R := (IZR m * powerRZ 2 e)%R.

(** ** The validator *)

Lemma check_required_nil name v :
  check_required name v = [] <->
  exists s, v = Some s /\ (1 <= String.length s <= 255)%nat.
Proof.
  unfold check_required. destruct v as [s|].
  - destruct (String.length s <? 1)%nat eqn:H1; [|destruct (255 <? String.length s)%nat eqn:H2].
    + apply Nat.ltb_lt in H1. split; [discriminate|]. intros (s' & E & H). inversion E; subst. lia.
    + apply Nat.ltb_lt in H2. split; [discriminate|]. intros (s' & E & H). inversion E; subst. lia.
    + apply Nat.ltb_ge in H1, H2. split; [|reflexivity]. intros _. exists s. split; [reflexivity|lia].
  - split; [discriminate|]. intros (s & E & _). discriminate.
Qed.

Lemma Event_init_inr uuid now r e :
  Event_init uuid now r = inr e <->
  exists t s, raw_topic r = Some t /\ raw_source r = Some s
    /\ (1 <= String.length t <= 255)%nat /\ (1 <= String.length s <= 255)%nat
    /\ e = mkEvent t (with_default (raw_event_id r) uuid)
                   (with_default (raw_timestamp r) (now ++ "Z")) s
                   (with_default (raw_payload r) []).
Proof.
  unfold Event_init.
  destruct (raw_topic r) as [t|] eqn:Et, (raw_source r) as [s|] eqn:Es.
  - destruct (check_required "topic" (Some t)) eqn:C1.
    + destruct (check_required "source" (Some s)) eqn:C2; simpl.
      * apply check_required_nil in C1, C2.
        destruct C1 as (t' & E1 & H1), C2 as (s' & E2 & H2).
        inversion E1; inversion E2; subst t' s'.
        split.
        -- intros H. inversion H. exists t, s. repeat split; try lia.
        -- intros (t' & s' & E1' & E2' & _ & _ & ->). inversion E1'; inversion E2'; reflexivity.
      * split; [discriminate|].
        intros (t' & s' & E1' & E2' & _ & H & _). inversion E2'; subst s'.
        assert (check_required "source" (Some s) = []) as X
          by (apply check_required_nil; eauto).
        congruence.
    + simpl. split; [discriminate|].
      intros (t' & s' & E1' & E2' & H & _). inversion E1'; subst t'.
      assert (check_required "topic" (Some t) = []) as X
          by (apply check_required_nil; eauto).
      congruence.
  - split; [destruct (_ ++ _)%list; discriminate|]. intros (t' & s' & _ & E & _). discriminate.
  - split; [destruct (_ ++ _)%list; discriminate|]. intros (t' & s' & E & _). discriminate.
  - split; [destruct (_ ++ _)%list; discriminate|]. intros (t' & s' & E & _). discriminate.
Qed.

Lemma Event_init_acceptable uuid now r :
  (exists e, Event_init uuid now r = inr e) <-> acceptable r.
Proof.
  split.
  - intros (e & H). apply Event_init_inr in H.
    destruct H as (t & s & Ht & Hs & Lt & Ls & _). exists t, s. auto.
  - intros (t & s & Ht & Hs & Lt & Ls).
    eexists. apply Event_init_inr. exists t, s. repeat split; eauto; lia.
Qed.

Lemma Event_init_refused uuid now r :
  ~ acceptable r -> exists errs, Event_init uuid now r = inl (ValidationError errs).
Proof.
  intros H. destruct (Event_init uuid now r) as [x|e] eqn:E.
  - unfold Event_init in E.
    destruct (raw_topic r), (raw_source r), (_ ++ _)%list;
      inversion E; eauto.
  - exfalso. apply H. apply (Event_init_acceptable uuid now). eauto.
Qed.

(** The items of a validated list are the validated items of the input,
    in order. *)
Lemma validate_list_inr f l : forall i es,
  validate_list f i l = inr es ->
  List.length es = List.length l
  /\ forall j r, nth_error l j = Some r ->
       exists e, nth_error es j = Some e
                 /\ Event_init (uuid4 f (i + j)) (utcnow f (i + j)) r = inr e.
Proof.
  induction l as [|r0 rest IH]; intros i es H; simpl in H.
  - inversion H. split; [reflexivity|]. intros [|j] r Hj; discriminate.
  - destruct (Event_init (uuid4 f i) (utcnow f i) r0) as [x|e0] eqn:E0;
      [discriminate|].
    destruct (validate_list f (S i) rest) as [x|es'] eqn:E1; [discriminate|].
    inversion H; subst es. destruct (IH _ _ E1) as (Hlen & Hnth).
    split; [simpl; congruence|].
    intros [|j] r Hj; simpl in Hj.
    + inversion Hj; subst r. exists e0. rewrite Nat.add_0_r. auto.
    + destruct (Hnth j r Hj) as (e & He & Hv). exists e.
      replace (i + S j)%nat with (S i + j)%nat by lia. auto.
Qed.

Lemma validate_list_total f l : forall i,
  (forall r, In r l -> acceptable r) ->
  exists es, validate_list f i l = inr es.
Proof.
  induction l as [|r0 rest IH]; intros i H; simpl.
  - eauto.
  - destruct (proj2 (Event_init_acceptable (uuid4 f i) (utcnow f i) r0))
      as (e0 & ->); [apply H; left; reflexivity|].
    destruct (IH (S i)) as (es & ->); [intros r Hr; apply H; right; exact Hr|].
    eauto.
Qed.

Lemma validate_list_refused f l : forall i r,
  In r l -> ~ acceptable r ->
  exists errs, validate_list f i l = inl (ValidationError errs).
Proof.
  induction l as [|r0 rest IH]; intros i r Hin Hbad; [destruct Hin|].
  simpl. destruct Hin as [->|Hin].
  - destruct (Event_init_refused (uuid4 f i) (utcnow f i) r Hbad) as (errs & ->).
    eauto.
  - destruct (IH (S i) r Hin Hbad) as (errs & ->).
    destruct (Event_init (uuid4 f i) (utcnow f i) r0) as [x|e0] eqn:E0; eauto.
    unfold Event_init in E0.
    destruct (raw_topic r0), (raw_source r0), (_ ++ _)%list;
      inversion E0; eauto.
Qed.

(** C8. The validator accepts a raw record exactly when [topic] and
    [source] are present and of one to 255 characters; an absent
    [event_id] is the UUID the factory generates, an absent [timestamp]
    the current UTC time in ISO-8601, an absent [payload] the empty map;
    a request with a single event or with a list of events under [events]
    is accepted and [get_events] gives the list of its events in order. *)
Theorem validator_contract :
  (forall uuid now r, (exists e, Event_init uuid now r = inr e) <-> acceptable r)
  /\ (forall uuid now r e, Event_init uuid now r = inr e ->
        raw_topic r = Some (topic e) /\ raw_source r = Some (source e)
        /\ event_id e = match raw_event_id r with Some i => i | None => uuid end
        /\ timestamp e = match raw_timestamp r with
                         | Some t => t
                         | None => now ++ "Z"
                         end
        /\ payload e = match raw_payload r with Some p => p | None => [] end)
  /\ (forall f r, acceptable r ->
        exists e, Event_init (uuid4 f 0) (utcnow f 0) r = inr e
          /\ exists request, PublishRequest_init f (Some (Single r)) = inr request
                             /\ get_events request = [e])
  /\ (forall f l, (forall r, In r l -> acceptable r) ->
        exists request, PublishRequest_init f (Some (Batch l)) = inr request
          /\ List.length (get_events request) = List.length l
          /\ forall j r, nth_error l j = Some r ->
               exists e, nth_error (get_events request) j = Some e
                         /\ Event_init (uuid4 f j) (utcnow f j) r = inr e).
Proof.
  split; [exact Event_init_acceptable|].
  split.
  { intros uuid now r e H. apply Event_init_inr in H.
    destruct H as (t & s & Ht & Hs & _ & _ & ->). simpl.
    repeat split; auto. }
  split.
  { intros f r H.
    destruct (proj2 (Event_init_acceptable (uuid4 f 0) (utcnow f 0) r) H)
      as (e & He).
    exists e. split; [exact He|]. simpl. rewrite He. eauto. }
  intros f l H. destruct (validate_list_total f l 0%nat H) as (es & Hes).
  simpl. rewrite Hes. eexists. split; [reflexivity|].
  destruct (validate_list_inr f l 0%nat es Hes) as (Hlen & Hnth).
  unfold get_events; simpl. split; [exact Hlen|exact Hnth].
Qed.

Lemma validator_contract_witness :
  (exists e, Event_init "u" "n" (sample_raw (Some (chars 255)) "e1") = inr e)
  /\ ~ (exists e, Event_init "u" "n" (sample_raw (Some (chars 256)) "e1") = inr e)
  /\ (exists request,
        PublishRequest_init factories
          (Some (Batch [sample_raw (Some "t") "e1"; sample_raw (Some "t") "e2"]))
        = inr request
        /\ List.length (get_events request) = 2%nat).
Proof.
  destruct validator_contract as (Hiff & _ & _ & Hbatch).
  split; [|split].
  - apply (proj2 (Hiff "u" "n" _)). exists (chars 255), "service-a".
    repeat split; vm_compute; lia.
  - intros H. apply (proj1 (Hiff "u" "n" _)) in H.
    destruct H as (t & s & Ht & _ & (_ & Hlen) & _).
    inversion Ht; subst t. vm_compute in Hlen. lia.
  - destruct (Hbatch factories
                [sample_raw (Some "t") "e1"; sample_raw (Some "t") "e2"])
      as (request & Hreq & Hlen & _).
    + intros r [<-|[<-|[]]]; exists "t", "service-a";
        repeat split; vm_compute; lia.
    + exists request. split; [exact Hreq|exact Hlen].
Defined.

(** ** The persistence layer *)

Ltac unfold_py :=
  unfold mark_processed, increment_stats, is_processed, get_stats,
    clear_all_data, close_pool, get_connection, transaction,
    end_transaction, try_except, execute, round_trip, next_fault,
    after_fault, bind, ret, raise, logger, same_process, same_tables.

(** Case analysis on the entries of the oracle, as far as the goal looks
    at them. *)
Ltac on_faults :=
  repeat (simpl;
          match goal with
          | |- context [match ?l with [] => _ | _ :: _ => _ end] =>
              is_var l; destruct l as [|[[?|?|?|?]|] ?]
          | |- context [match update_stats ?r ?u ?d ?x with
                        | inl _ => _ | inr _ => _ end] =>
              destruct (update_stats r u d x) eqn:?
          end);
  simpl.

(** The same, after the case analysis on the pool handle. *)
Ltac on_oracle w :=
  destruct w as [? [|] ? ? ? ? ? ?]; on_faults.

Lemma in_int4_iff z : in_int4 z = true <-> int4 z.
Proof. unfold in_int4, int4. rewrite andb_true_iff, !Z.leb_le. tauto. Qed.

Lemma begins_app tr tr' : begins (tr ++ tr') = (begins tr + begins tr')%nat.
Proof.
  induction tr as [|s rest IH]; simpl; [reflexivity|].
  destruct s; simpl; rewrite IH; reflexivity.
Qed.

Lemma mark_processed_effect e w :
  same_process w (snd (mark_processed e w))
  /\ (db (snd (mark_processed e w)) = db w
      \/ db (snd (mark_processed e w))
         = insert_processed e (insert_dedup (topic e) (event_id e) (db w))).
Proof. unfold_py. on_oracle w; auto 6. Qed.

Lemma increment_stats_effect r u d w :
  same_process w (snd (increment_stats r u d w))
  /\ match fst (increment_stats r u d w) with
     | Ret _ =>
         update_stats r u d (db w) = inr (db (snd (increment_stats r u d w)))
     | _ => db (snd (increment_stats r u d w)) = db w
     end.
Proof.
  unfold_py. on_oracle w; auto.
Qed.

Lemma is_processed_effect t i w :
  same_process w (snd (is_processed t i w))
  /\ db (snd (is_processed t i w)) = db w.
Proof. unfold_py. on_oracle w; auto. Qed.

Lemma get_stats_effect w :
  same_process w (snd (get_stats w)) /\ db (snd (get_stats w)) = db w.
Proof.
  unfold_py. on_oracle w; auto;
    match goal with |- context [event_stats ?d] => destruct (event_stats d) end;
    simpl; auto.
Qed.

Lemma clear_all_data_effect w :
  same_process w (snd (clear_all_data w))
  /\ (db (snd (clear_all_data w)) = db w
      \/ (processed_events (db (snd (clear_all_data w))) = []
          /\ dedup_store (db (snd (clear_all_data w))) = [])).
Proof.
  unfold_py. on_oracle w; auto; unfold reset_stats;
    match goal with |- context [event_stats ?d] => destruct (event_stats d) end;
    simpl; auto.
Qed.

(** The calls of the persistence layer return or raise: none of them
    waits on the queue. *)
Lemma is_processed_ends t i w : fst (is_processed t i w) <> Pending.
Proof. unfold_py. on_oracle w; discriminate. Qed.

Lemma mark_processed_ends e w : fst (mark_processed e w) <> Pending.
Proof. unfold_py. on_oracle w; discriminate. Qed.

Lemma increment_stats_ends r u d w : fst (increment_stats r u d w) <> Pending.
Proof. unfold_py. on_oracle w; discriminate. Qed.

Lemma update_stats_deltas r u d x x' :
  update_stats r u d x = inr x' -> int4 r /\ int4 u /\ int4 d.
Proof.
  unfold update_stats. rewrite <- !in_int4_iff.
  destruct (in_int4 r), (in_int4 u), (in_int4 d); simpl;
    try discriminate; auto.
Qed.

Lemma update_stats_tables r u d x x' :
  update_stats r u d x = inr x' -> same_tables x x'.
Proof.
  unfold update_stats, same_tables.
  destruct (negb (in_int4 r)); [discriminate|].
  destruct (negb (in_int4 u)); [discriminate|].
  destruct (negb (in_int4 d)); [discriminate|].
  destruct (event_stats x).
  - destruct (_ && _); intros H; inversion H; subst; simpl; auto.
  - intros H; inversion H; subst; auto.
Qed.

Lemma update_stats_row r u d x x' s :
  update_stats r u d x = inr x' -> event_stats x = Some s ->
  event_stats x' = Some (add_stats s (r, u, d)).
Proof.
  unfold update_stats. intros H Hs. rewrite Hs in H.
  destruct (negb (in_int4 r)); [discriminate|].
  destruct (negb (in_int4 u)); [discriminate|].
  destruct (negb (in_int4 d)); [discriminate|].
  destruct (_ && _); inversion H; subst; reflexivity.
Qed.

Lemma increment_stats_tables r u d w :
  same_tables (db w) (db (snd (increment_stats r u d w))).
Proof.
  destruct (increment_stats_effect r u d w) as (_ & H).
  destruct (fst (increment_stats r u d w)).
  - exact (update_stats_tables _ _ _ _ _ H).
  - rewrite H. split; reflexivity.
  - rewrite H. split; reflexivity.
Qed.

Lemma update_stats_raises r u d x y :
  update_stats r u d x = inl y -> from_database y.
Proof.
  unfold update_stats, out_of_int32.
  destruct (negb (in_int4 r)); [intros H; inversion H; exact I|].
  destruct (negb (in_int4 u)); [intros H; inversion H; exact I|].
  destruct (negb (in_int4 d)); [intros H; inversion H; exact I|].
  destruct (event_stats x); [|discriminate].
  destruct (_ && _); intros H; inversion H; exact I.
Qed.

Lemma increment_stats_raises r u d w x :
  fst (increment_stats r u d w) = Raise x -> from_database x.
Proof.
  unfold_py. on_oracle w; intros H; inversion H; subst; try exact I;
    eapply update_stats_raises; eassumption.
Qed.

(** Sequencing, one call at a time. *)
Lemma bind_returns {A B} (m : M A) (k : A -> M B) w a :
  fst (m w) = Ret a -> bind m k w = k a (snd (m w)).
Proof. unfold bind. destruct (m w) as [[a'|x|] w']; simpl; congruence. Qed.

Lemma bind_raises {A B} (m : M A) (k : A -> M B) w x :
  fst (m w) = Raise x -> bind m k w = (Raise x, snd (m w)).
Proof. unfold bind. destruct (m w) as [[a'|x'|] w']; simpl; congruence. Qed.

Lemma bind_assoc {A B C} (m : M A) (k1 : A -> M B) (k2 : B -> M C) w :
  bind (bind m k1) k2 w = bind m (fun a => bind (k1 a) k2) w.
Proof. unfold bind. destruct (m w) as [[a|x|] w']; reflexivity. Qed.

Lemma bind_logger {B} l msg (k : unit -> M B) w :
  bind (logger l msg) k w = k tt (logged l msg w).
Proof. reflexivity. Qed.

Lemma update_stats_ok r u d x s :
  event_stats x = Some s ->
  int4 r -> int4 u -> int4 d ->
  int4 (received s + r) -> int4 (unique_processed s + u) ->
  int4 (duplicate_dropped s + d) ->
  update_stats r u d x
  = inr (mkDB (processed_events x) (dedup_store x) (Some (add_stats s (r, u, d)))).
Proof.
  intros Hs H1 H2 H3 H4 H5 H6. unfold update_stats. rewrite Hs.
  apply in_int4_iff in H1, H2, H3, H4, H5, H6.
  destruct s as [a b c].
  cbv beta iota zeta delta [received unique_processed duplicate_dropped add_stats] in *.
  rewrite H1, H2, H3, H4, H5, H6. reflexivity.
Qed.

Lemma is_processed_returns t i w fs :
  pool w = true -> faults w = None :: fs ->
  fst (is_processed t i w) = Ret (in_dedup (t, i) (db w))
  /\ db (snd (is_processed t i w)) = db w
  /\ faults (snd (is_processed t i w)) = fs
  /\ same_process w (snd (is_processed t i w))
  /\ log (snd (is_processed t i w)) = log w.
Proof.
  destruct w as [d p fs0 c tr q n lg]; simpl. intros -> ->.
  unfold_py. simpl. repeat split; reflexivity.
Qed.

Lemma increment_stats_returns r u d w d' :
  pool w = true -> faults w = [] ->
  update_stats r u d (db w) = inr d' ->
  fst (increment_stats r u d w) = Ret tt
  /\ db (snd (increment_stats r u d w)) = d'
  /\ faults (snd (increment_stats r u d w)) = []
  /\ same_process w (snd (increment_stats r u d w))
  /\ log (snd (increment_stats r u d w)) = log w.
Proof.
  destruct w as [d0 p fs0 c tr q n lg]; simpl. intros -> -> H.
  unfold_py. simpl. rewrite H. simpl. repeat split; reflexivity.
Qed.

Lemma task_done_returns w n :
  unfinished w = S n ->
  task_done w = (Ret tt, set_queue (queue w) n w).
Proof. unfold task_done. now intros ->. Qed.

(** With nothing going wrong, [mark_processed] answers [(True, None)]
    whether or not the fingerprint was already stored. *)
Lemma mark_processed_succeeds e w :
  pool w = true -> faults w = [] ->
  fst (mark_processed e w) = Ret (true, None)
  /\ db (snd (mark_processed e w))
     = insert_processed e (insert_dedup (topic e) (event_id e) (db w)).
Proof.
  destruct w as [d p fs c tr q n lg]; simpl. intros -> ->.
  unfold_py. simpl. auto.
Qed.

(** What [mark_processed] answers tells what it did, whatever the oracle
    holds: [(True, None)] with both inserts committed, anything else with
    the database as it was. *)
Lemma mark_processed_outcome e w :
  match fst (mark_processed e w) with
  | Ret (true, m) =>
      m = None /\ pool w = true
      /\ db (snd (mark_processed e w))
         = insert_processed e (insert_dedup (topic e) (event_id e) (db w))
  | Ret (false, m) => m <> None /\ db (snd (mark_processed e w)) = db w
  | _ => db (snd (mark_processed e w)) = db w
  end.
Proof. unfold_py. on_oracle w; auto; split; auto; discriminate. Qed.

Lemma insert_dedup_present t i d :
  in_dedup (t, i) d = true -> insert_dedup t i d = d.
Proof. unfold insert_dedup. now intros ->. Qed.

(** C1. Two calls of [mark_processed] with the same event, one after the
    other on the bootstrapped database: the first stores the fingerprint
    and answers [(True, None)]; the second finds it stored, adds no row
    to [dedup_store], and answers [(True, None)] as well. *)
Theorem mark_processed_twice :
  fst (mark_processed e1 (started [] [])) = Ret (true, None)
  /\ dedup_store (db marked_once) = [("t", "e1")]
  /\ in_dedup (key e1) (db marked_once) = true
  /\ fst (mark_processed e1 marked_once) = Ret (true, None)
  /\ dedup_store (db (snd (mark_processed e1 marked_once)))
     = dedup_store (db marked_once)
  /\ processed_events (db (snd (mark_processed e1 marked_once))) = [e1].
Proof. repeat split; reflexivity. Qed.

(** C3, as the specification has it, fails: the first statement of the
    transaction meets a serialization conflict and nothing else would go
    wrong. [mark_processed] opens one transaction and hands the error to
    its caller, although a second attempt would have gone through;
    [increment_stats] opens one transaction and raises. *)
Lemma retry_counterexample :
  fst (mark_processed e1 (started [None; Some conflict] []))
  = Ret (false, Some "could not serialize access due to concurrent update")
  /\ begins (trace (snd (mark_processed e1 (started [None; Some conflict] []))))
     = 1%nat
  /\ fst (mark_processed e1
            (snd (mark_processed e1 (started [None; Some conflict] []))))
     = Ret (true, None)
  /\ fst (increment_stats 1 1 0 (started [None; Some conflict] []))
     = Raise (SerializationError
                "could not serialize access due to concurrent update")
  /\ begins (trace (snd (increment_stats 1 1 0
                           (started [None; Some conflict] []))))
     = 1%nat
  /\ fst (increment_stats 1 1 0
            (snd (increment_stats 1 1 0 (started [None; Some conflict] []))))
     = Ret tt.
Proof. repeat split; reflexivity. Qed.

(** C3, amended. When the transaction inside [mark_processed] or
    [increment_stats] aborts on a serialization conflict, at one of its
    statements or at its commit, the operation has opened one transaction
    and opens no other: the error goes to the caller after this one
    attempt, from [mark_processed] as [(False, message)] or raised, from
    [increment_stats] raised. *)
Theorem single_attempt e r u d w m fs :
  pool w = true ->
  (faults w = None :: Some (SerializationFailure m) :: None :: fs
   \/ faults w = None :: None :: Some (SerializationFailure m) :: None :: fs ->
   fst (mark_processed e w) = Ret (false, Some m)
   /\ begins (trace (snd (mark_processed e w))) = S (begins (trace w)))
  /\ (faults w = None :: None :: None :: Some (SerializationFailure m) :: fs ->
      fst (mark_processed e w) = Raise (SerializationError m)
      /\ begins (trace (snd (mark_processed e w))) = S (begins (trace w)))
  /\ (faults w = None :: Some (SerializationFailure m) :: None :: fs
      \/ (faults w = None :: None :: Some (SerializationFailure m) :: fs
          /\ exists d', update_stats r u d (db w) = inr d') ->
      fst (increment_stats r u d w) = Raise (SerializationError m)
      /\ begins (trace (snd (increment_stats r u d w))) = S (begins (trace w))).
Proof.
  destruct w as [d0 p fs0 c tr q n lg]; simpl. intros ->.
  split; [|split].
  - intros [->| ->]; unfold_py; simpl;
      rewrite !begins_app; simpl; repeat split; lia.
  - intros ->. unfold_py; simpl. rewrite !begins_app; simpl.
    repeat split; lia.
  - intros [->|(-> & d' & Hd')]; unfold_py; simpl; try rewrite Hd'; simpl;
      rewrite !begins_app; simpl; repeat split; lia.
Qed.

Lemma single_attempt_witness :
  fst (mark_processed e1 (started [None; Some conflict; None] []))
  = Ret (false, Some "could not serialize access due to concurrent update")
  /\ begins (trace (snd (mark_processed e1
                           (started [None; Some conflict; None] []))))
     = 1%nat
  /\ fst (mark_processed e1 (started [None; None; None; Some conflict] []))
     = Raise (SerializationError
                "could not serialize access due to concurrent update")
  /\ fst (increment_stats 1 1 0 (started [None; Some conflict; None] []))
     = Raise (SerializationError
                "could not serialize access due to concurrent update").
Proof.
  destruct (single_attempt e1 1 1 0 (started [None; Some conflict; None] [])
              "could not serialize access due to concurrent update" []
              eq_refl) as (Hmark & _ & Hincr).
  destruct (single_attempt e1 1 1 0
              (started [None; None; None; Some conflict] [])
              "could not serialize access due to concurrent update" []
              eq_refl) as (_ & Hcommit & _).
  destruct (Hmark (or_introl eq_refl)) as (H1 & H2).
  destruct (Hcommit eq_refl) as (H3 & _).
  destruct (Hincr (or_introl eq_refl)) as (H4 & _).
  repeat split; assumption.
Defined.

(** ** The consumer *)

(** C2, as the specification has it, fails: the queue holds [e1], never
    seen before; the insert into [dedup_store] is cancelled by the
    server on a statement timeout, the connection staying up.
    [mark_processed] returns [(False, message)], with nothing of a
    uniqueness violation in it, and the consumer counts the event in
    [duplicate_dropped]. *)
Lemma failure_counterexample :
  option_map fst (consumer_worker (started [None; None; Some timeout] [e1]))
  = Some (Ret tt)
  /\ event_stats (db (run OpConsume (started [None; None; Some timeout] [e1])))
     = Some (mkStats 0 0 1)
  /\ dedup_store (db (run OpConsume (started [None; None; Some timeout] [e1])))
     = []
  /\ log (run OpConsume (started [None; None; Some timeout] [e1]))
       = [(DEBUG, "Consumer processing event: t/e1");
          (ERROR, "Error marking event as processed: canceling statement due to statement timeout");
          (WARNING, "Event rejected: canceling statement due to statement timeout - t/e1")].
Proof. repeat split; vm_compute; reflexivity. Qed.

(** C2, amended. When [mark_processed] returns not-persisted, whatever
    the error it gives back (a uniqueness violation or any other failure
    of one of its two inserts), the consumer calls
    [increment_stats(duplicate=1)]: once that has returned,
    [duplicate_dropped] has grown by one, [unique_processed] and
    [received] are as before, the tables are as before, the queue slot is
    marked done, and the rejection is logged as a warning. *)
Theorem failure_counted_as_duplicate event rest n w s error :
  queue w = event :: rest -> unfinished w = S n ->
  event_stats (db w) = Some s ->
  let w0 := logged DEBUG ("Consumer processing event: " ++ fingerprint event)
              (set_queue rest (unfinished w) w) in
  let w1 := snd (is_processed (topic event) (event_id event) w0) in
  let w2 := snd (mark_processed event w1) in
  fst (is_processed (topic event) (event_id event) w0) = Ret false ->
  fst (mark_processed event w1) = Ret (false, error) ->
  fst (increment_stats 0 0 1 w2) = Ret tt ->
  option_map fst (consumer_worker w) = Some (Ret tt)
  /\ event_stats (db (run OpConsume w))
       = Some (mkStats (received s) (unique_processed s)
                       (duplicate_dropped s + 1))
  /\ same_tables (db w) (db (run OpConsume w))
  /\ queue (run OpConsume w) = rest /\ unfinished (run OpConsume w) = n
  /\ exists entries, log (run OpConsume w)
       = (entries ++ [(WARNING, ("Event rejected: " ++ with_default error "None"
                                 ++ " - " ++ fingerprint event)%string)])%list.
Proof.
  intros Hq Hn Hs w0 w1 w2 A1 B1 C1.
  destruct (is_processed_effect (topic event) (event_id event) w0)
    as ((A4 & A5 & A6) & A2). fold w1 in A2, A4, A5, A6.
  destruct (mark_processed_effect event w1) as ((B4 & B5 & B6) & _).
  fold w2 in B4, B5, B6.
  assert (B2 : db w2 = db w1).
  { pose proof (mark_processed_outcome event w1) as Ho. rewrite B1 in Ho.
    apply Ho. }
  destruct (increment_stats_effect 0 0 1 w2) as ((C4 & C5 & C6) & C2).
  rewrite C1 in C2.
  set (w3 := snd (increment_stats 0 0 1 w2)) in *.
  set (msg := ("Event rejected: " ++ with_default error "None"
                 ++ " - " ++ fingerprint event)%string).
  assert (Hrun : consumer_worker w
                 = Some (Ret tt, set_queue rest n (logged WARNING msg w3))).
  { unfold consumer_worker. rewrite Hq. f_equal.
    unfold try_except, process. fold w0.
    rewrite bind_logger. fold w0.
    rewrite (bind_returns _ _ w0 _ A1). fold w1.
    cbv beta iota. rewrite bind_assoc.
    rewrite (bind_returns _ _ w1 _ B1). fold w2. cbv beta iota.
    rewrite bind_assoc.
    rewrite (bind_returns _ _ w2 _ C1). fold w3.
    rewrite bind_logger. fold msg.
    rewrite (task_done_returns _ n).
    - f_equal. simpl. rewrite C5, B5, A5. reflexivity.
    - simpl. rewrite C6, B6, A6. simpl. exact Hn. }
  assert (Hdb : db w2 = db w) by (rewrite B2, A2; reflexivity).
  rewrite Hdb in C2.
  unfold run. rewrite Hrun. simpl.
  split; [reflexivity|].
  split.
  { rewrite (update_stats_row _ _ _ _ _ _ C2 Hs). unfold add_stats.
    rewrite !Z.add_0_r. reflexivity. }
  split; [exact (update_stats_tables _ _ _ _ _ C2)|].
  split; [reflexivity|]. split; [reflexivity|].
  exists (log w3). reflexivity.
Qed.

Lemma failure_counted_as_duplicate_witness :
  event_stats (db (run OpConsume (started [None; None; Some timeout] [e1])))
  = Some (mkStats 0 0 (0 + 1)).
Proof.
  exact (proj1 (proj2
           (failure_counted_as_duplicate e1 [] 0%nat
              (started [None; None; Some timeout] [e1]) (mkStats 0 0 0)
              (Some "canceling statement due to statement timeout")
              eq_refl eq_refl eq_refl eq_refl eq_refl eq_refl))).
Defined.

(** ** The counters *)

Lemma add_stats_sum s c calls :
  add_stats (add_stats s c) (sum_deltas calls)
  = add_stats s (sum_deltas (c :: calls)).
Proof.
  destruct c as [[r u] d]. simpl. destruct (sum_deltas calls) as [[r' u'] d'].
  unfold add_stats; simpl. f_equal; lia.
Qed.

Lemma increments_sum calls : forall w s,
  event_stats (db w) = Some s ->
  fst (increments calls w) = Ret tt ->
  event_stats (db (snd (increments calls w)))
  = Some (add_stats s (sum_deltas calls))
  /\ same_tables (db w) (db (snd (increments calls w))).
Proof.
  induction calls as [|[[r u] d] rest IH]; intros w s Hs Hret.
  - simpl. rewrite Hs. unfold add_stats. rewrite !Z.add_0_r.
    destruct s; split; [reflexivity|split; reflexivity].
  - change (increments ((r, u, d) :: rest))
      with (bind (increment_stats r u d) (fun _ => increments rest)) in *.
    destruct (increment_stats_effect r u d w) as (_ & Heff).
    destruct (fst (increment_stats r u d w)) as [[]|x|] eqn:E.
    + rewrite (bind_returns _ _ w tt E) in *.
      pose proof (update_stats_row _ _ _ _ _ _ Heff Hs) as Hs'.
      destruct (IH _ _ Hs' Hret) as (Hrow & Ht1 & Ht2).
      destruct (update_stats_tables _ _ _ _ _ Heff) as (Hu1 & Hu2).
      split.
      * rewrite Hrow. f_equal. apply (add_stats_sum s (r, u, d) rest).
      * split; congruence.
    + rewrite (bind_raises _ _ w x E) in Hret. discriminate.
    + exfalso. exact (increment_stats_ends r u d w E).
Qed.

Lemma sum_deltas_perm calls calls' :
  Permutation calls calls' -> sum_deltas calls = sum_deltas calls'.
Proof.
  induction 1 as [|[[r u] d] l l' _ IH|[[r u] d] [[r' u'] d'] l|l l' l'' _ IH1 _ IH2].
  - reflexivity.
  - simpl. rewrite IH. reflexivity.
  - simpl. destruct (sum_deltas l) as [[a b] c]. f_equal; [f_equal|]; lia.
  - congruence.
Qed.


(** Calls that run one after the other and return leave each counter at
    its initial value plus the sum of its deltas, in whatever order they
    run. *)
Lemma increments_in_sequence :
  (forall calls w s,
      event_stats (db w) = Some s ->
      fst (increments calls w) = Ret tt ->
      event_stats (db (snd (increments calls w)))
      = Some (add_stats s (sum_deltas calls)))
  /\ (forall calls calls' w w' s,
        Permutation calls calls' ->
        event_stats (db w) = Some s -> event_stats (db w') = Some s ->
        fst (increments calls w) = Ret tt ->
        fst (increments calls' w') = Ret tt ->
        event_stats (db (snd (increments calls w)))
        = event_stats (db (snd (increments calls' w'))))
  /\ (fst (increments (repeat (1, 1, 0) 10) (started [] [])) = Ret tt
      /\ event_stats (db (snd (increments (repeat (1, 1, 0) 10) (started [] []))))
         = Some (mkStats 10 10 0)).
Proof.
  split; [|split].
  - intros calls w s Hs Hret. apply (increments_sum calls w s Hs Hret).
  - intros calls calls' w w' s Hperm Hs Hs' Hret Hret'.
    rewrite (proj1 (increments_sum calls w s Hs Hret)).
    rewrite (proj1 (increments_sum calls' w' s Hs' Hret')).
    rewrite (sum_deltas_perm _ _ Hperm). reflexivity.
  - split; vm_compute; reflexivity.
Qed.


(** ** Calls of [increment_stats] that run together *)

Import Concurrent.

Lemma at_begin i st r u d :
  nth_error (calls st) i = Some (r, u, d, AtBegin) ->
  resume i st
  = mkState (committed st) (holder st) (set_call i AtUpdate (calls st)).
Proof. intros H. unfold resume. rewrite H. reflexivity. Qed.

Lemma at_update i st r u d d' s :
  nth_error (calls st) i = Some (r, u, d, AtUpdate) ->
  update_stats r u d (committed st) = inr d' ->
  event_stats (committed st) = Some s ->
  resume i st
  = match holder st with
    | Some _ => mkState (committed st) (holder st)
                        (set_call i Waiting (calls st))
    | None => mkState (committed st) (Some i)
                      (set_call i (AtCommit d') (calls st))
    end.
Proof.
  intros H Hu Hs. unfold resume. rewrite H, Hu, Hs. reflexivity.
Qed.

Lemma at_update_fails i st r u d x :
  nth_error (calls st) i = Some (r, u, d, AtUpdate) ->
  update_stats r u d (committed st) = inl x ->
  resume i st
  = mkState (committed st) (holder st) (set_call i (AtRollback x) (calls st)).
Proof. intros H Hu. unfold resume. rewrite H, Hu. reflexivity. Qed.

Lemma at_update_no_row i st r u d d' :
  nth_error (calls st) i = Some (r, u, d, AtUpdate) ->
  update_stats r u d (committed st) = inr d' ->
  event_stats (committed st) = None ->
  resume i st
  = mkState (committed st) (holder st) (set_call i (AtCommit d') (calls st)).
Proof.
  intros H Hu Hs. unfold resume. rewrite H, Hu, Hs. reflexivity.
Qed.

Ltac resume_begin :=
  match goal with
  | |- context [resume ?i (mkState ?a ?b ?c)] =>
      rewrite (at_begin i (mkState a b c) _ _ _ eq_refl); simpl
  end.

Ltac resume_update H Hs :=
  match goal with
  | |- context [resume ?i (mkState ?a ?b ?c)] =>
      rewrite (at_update i (mkState a b c) _ _ _ _ _ eq_refl H Hs); simpl
  end.

(** A call that is resumed three times with no other call in between is
    the call of [increment_stats] on its own, with nothing failing. *)
Lemma alone_is_sequential r u d w :
  pool w = true -> faults w = [] ->
  committed (interleave [0; 0; 0]%nat (start (db w) [(r, u, d)]))
  = db (snd (increment_stats r u d w))
  /\ results (interleave [0; 0; 0]%nat (start (db w) [(r, u, d)]))
     = [match fst (increment_stats r u d w) with
        | Ret _ => Returned
        | Raise x => Raised x
        | Pending => Waiting
        end].
Proof.
  destruct w as [d0 p fs c tr q n lg]; simpl. intros -> ->.
  unfold interleave, start. simpl.
  resume_begin. unfold_py. simpl.
  destruct (update_stats r u d d0) as [x|d'] eqn:E; simpl.
  - match goal with
    | |- context [resume ?i (mkState ?a ?b ?c)] =>
        rewrite (at_update_fails i (mkState a b c) _ _ _ x eq_refl E)
    end. simpl. auto.
  - destruct (event_stats d0) as [s|] eqn:Es.
    + resume_update E Es. auto.
    + match goal with
      | |- context [resume ?i (mkState ?a ?b ?c)] =>
          rewrite (at_update_no_row i (mkState a b c) _ _ _ d' eq_refl E Es)
      end. simpl. auto.
Qed.

(** C6. Ten calls [increment_stats(received=1, unique=1)] started
    together, as [asyncio.gather] starts them: each begins its
    transaction, each sends its UPDATE, and the first one commits. The
    nine others waited for the row and fail with a serialization error
    once it is committed: [received] and [unique_processed] end at 1,
    not at 10. The same for any two calls whose transactions overlap:
    the counters get the deltas of the first, the second raises. *)
Theorem concurrent_increments_lost :
  (event_stats
     (committed (interleave (rounds 3 10)
                   (start bootstrapped (repeat (1, 1, 0) 10))))
   = Some (mkStats 1 1 0)
   /\ results (interleave (rounds 3 10)
                 (start bootstrapped (repeat (1, 1, 0) 10)))
      = Returned :: repeat (Raised conflict_error) 9)
  /\ forall c1 c2 d s d1 d2,
       event_stats d = Some s ->
       apply_deltas c1 d = inr d1 -> apply_deltas c2 d = inr d2 ->
       committed (interleave (rounds 3 2) (start d [c1; c2])) = d1
       /\ event_stats d1 = Some (add_stats s c1)
       /\ results (interleave (rounds 3 2) (start d [c1; c2]))
          = [Returned; Raised conflict_error].
Proof.
  split; [split; vm_compute; reflexivity|].
  intros [[r1 u1] x1] [[r2 u2] x2] d s d1 d2 Hs H1 H2. simpl in H1, H2.
  unfold interleave, start, rounds. simpl.
  resume_begin. resume_begin.
  resume_update H1 Hs. resume_update H2 Hs.
  split; [reflexivity|]. split; [|reflexivity].
  exact (update_stats_row _ _ _ _ _ _ H1 Hs).
Qed.

Lemma concurrent_increments_lost_witness :
  event_stats
    (committed (interleave (rounds 3 2)
                  (start bootstrapped [(1, 1, 0); (1, 1, 0)])))
  = Some (mkStats 1 1 0)
  /\ results (interleave (rounds 3 2)
                (start bootstrapped [(1, 1, 0); (1, 1, 0)]))
     = [Returned; Raised conflict_error].
Proof.
  destruct concurrent_increments_lost as (_ & H).
  destruct (H (1, 1, 0) (1, 1, 0) bootstrapped (mkStats 0 0 0)
              (mkDB [] [] (Some (mkStats 1 1 0)))
              (mkDB [] [] (Some (mkStats 1 1 0)))
              eq_refl eq_refl eq_refl) as (H1 & H2 & H3).
  split; [rewrite H1; reflexivity|exact H3].
Defined.

(** ** The invariant of the tables *)

Section Keeps.

Variable P : DB -> Prop.

Lemma keeps_ret {A} (a : A) : keeps P (ret a).
Proof. intros w H. exact H. Qed.

Lemma keeps_raise {A} x : keeps P (@raise A x).
Proof. intros w H. exact H. Qed.

Lemma keeps_logger l msg : keeps P (logger l msg).
Proof. intros w H. exact H. Qed.

Lemma keeps_queue_put e : keeps P (queue_put e).
Proof. intros w H. unfold queue_put. destruct (full w); exact H. Qed.

Lemma keeps_task_done : keeps P task_done.
Proof. intros w H. unfold task_done. destruct (unfinished w); exact H. Qed.

Lemma keeps_bind {A B} (m : M A) (k : A -> M B) :
  keeps P m -> (forall a, keeps P (k a)) -> keeps P (bind m k).
Proof.
  intros Hm Hk w H. specialize (Hm w H). unfold bind.
  destruct (m w) as [[a|x|] w1]; simpl in *.
  - apply Hk. exact Hm.
  - exact Hm.
  - exact Hm.
Qed.

Lemma keeps_try_except {A} (m : M A) (h : exn -> M A) :
  keeps P m -> (forall x, keeps P (h x)) -> keeps P (try_except m h).
Proof.
  intros Hm Hh w H. specialize (Hm w H). unfold try_except.
  destruct (m w) as [[a|x|] w1]; simpl in *.
  - exact Hm.
  - apply Hh. exact Hm.
  - exact Hm.
Qed.

End Keeps.

Lemma key_eqb_refl k : key_eqb k k = true.
Proof. unfold key_eqb. now rewrite !String.eqb_refl. Qed.

Lemma I1_same_tables d d' : same_tables d d' -> I1 d -> I1 d'.
Proof.
  intros (Hp & Hd) H e He. unfold in_dedup. rewrite Hd.
  apply H. rewrite <- Hp. exact He.
Qed.

Lemma I1_insert e d :
  I1 d -> I1 (insert_processed e (insert_dedup (topic e) (event_id e) d)).
Proof.
  intros H.
  assert (Hd : I1 (insert_dedup (topic e) (event_id e) d)
               /\ in_dedup (key e) (insert_dedup (topic e) (event_id e) d) = true).
  { unfold insert_dedup.
    destruct (in_dedup (topic e, event_id e) d) eqn:E; [split; assumption|].
    split.
    - intros r Hr. pose proof (H r Hr) as Hk. unfold in_dedup in *; simpl.
      rewrite existsb_app, Hk. reflexivity.
    - unfold in_dedup; simpl. rewrite existsb_app. simpl.
      unfold key. rewrite key_eqb_refl. now rewrite orb_true_r. }
  destruct Hd as (Hd & Hk). unfold insert_processed.
  destruct (in_processed (key e) _); [exact Hd|].
  intros r Hr. simpl in Hr. apply in_app_or in Hr.
  unfold in_dedup; simpl. destruct Hr as [Hr|[<-|[]]].
  - apply Hd. exact Hr.
  - exact Hk.
Qed.

Lemma keeps_mark_processed e : keeps I1 (mark_processed e).
Proof.
  intros w H. destruct (mark_processed_effect e w) as (_ & [-> | ->]).
  - exact H.
  - apply I1_insert. exact H.
Qed.

Lemma keeps_increment_stats r u d : keeps I1 (increment_stats r u d).
Proof.
  intros w H. exact (I1_same_tables _ _ (increment_stats_tables r u d w) H).
Qed.

Lemma keeps_is_processed t i : keeps I1 (is_processed t i).
Proof. intros w H. now rewrite (proj2 (is_processed_effect t i w)). Qed.

Lemma keeps_get_stats : keeps I1 get_stats.
Proof. intros w H. now rewrite (proj2 (get_stats_effect w)). Qed.

Lemma keeps_clear_all_data : keeps I1 clear_all_data.
Proof.
  intros w H. destruct (clear_all_data_effect w) as (_ & [-> | (Hp & _)]).
  - exact H.
  - intros e He. rewrite Hp in He. destruct He.
Qed.

Lemma keeps_close_pool : keeps I1 close_pool.
Proof. intros w H. unfold close_pool. destruct (pool w); exact H. Qed.

Lemma keeps_process e : keeps I1 (process e).
Proof.
  unfold process.
  apply keeps_bind; [apply keeps_logger|intros _].
  apply keeps_bind; [apply keeps_is_processed|intros already].
  apply keeps_bind; [|intros _; apply keeps_task_done].
  destruct already.
  - apply keeps_bind; [apply keeps_increment_stats|intros _; apply keeps_logger].
  - apply keeps_bind; [apply keeps_mark_processed|intros [[|] error]];
      (apply keeps_bind; [apply keeps_increment_stats|intros _; apply keeps_logger]).
Qed.

Lemma keeps_publish_one idx e acc : keeps I1 (publish_one idx e acc).
Proof.
  destruct acc as [[a r] errs]. unfold publish_one.
  apply keeps_try_except.
  - destruct (Event_init "" "" (dict e)); [apply keeps_raise|].
    apply keeps_bind; [apply keeps_increment_stats|intros _].
    apply keeps_bind; [apply keeps_queue_put|intros _].
    apply keeps_bind; [apply keeps_logger|intros _; apply keeps_ret].
  - intros x. destruct x; try apply keeps_raise;
      (apply keeps_bind; [apply keeps_logger|intros _; apply keeps_ret]).
Qed.

Lemma keeps_publish_loop evs : forall idx acc, keeps I1 (publish_loop idx evs acc).
Proof.
  induction evs as [|e rest IH]; intros idx acc; simpl.
  - apply keeps_ret.
  - apply keeps_bind; [apply keeps_publish_one|intros acc'; apply IH].
Qed.

Lemma keeps_post_publish f body : keeps I1 (post_publish f body).
Proof.
  unfold post_publish. destruct (PublishRequest_init f body) as [x|request];
    [apply keeps_raise|].
  unfold publish_events. apply keeps_try_except.
  - apply keeps_bind; [apply keeps_publish_loop|intros [[a r] errs]; apply keeps_ret].
  - intros x. apply keeps_bind; [apply keeps_logger|intros _; apply keeps_raise].
Qed.

Lemma run_keeps_I1 o w : I1 (db w) -> I1 (db (run o w)).
Proof.
  intros H. destruct o; simpl.
  - apply keeps_is_processed, H.
  - apply keeps_mark_processed, H.
  - apply keeps_increment_stats, H.
  - apply keeps_get_stats, H.
  - apply keeps_clear_all_data, H.
  - apply keeps_close_pool, H.
  - apply keeps_post_publish, H.
  - unfold consumer_worker. destruct (queue w) as [|e rest] eqn:Q; [exact H|].
    match goal with |- context [try_except ?m ?h ?w0] =>
      pose proof (keeps_try_except I1 m h) as K; specialize (K (keeps_process e));
      assert (K' : forall x, keeps I1 (h x))
        by (intros x; apply keeps_bind; [apply keeps_logger|intros _; apply keeps_task_done]);
      specialize (K K' w0 H);
      destruct (try_except m h w0) as [r' w'] end.
    exact K.
Qed.

(** C7. (I1) holds in every state the process can reach: every row of
    [processed_events] has a row of [dedup_store] with the same
    [(topic, event_id)]. [mark_processed] inserts into [dedup_store]
    before [processed_events] in one transaction, and [clear_all_data]
    empties both tables. *)
Theorem I1_invariant w : reachable w -> I1 (db w).
Proof.
  induction 1 as [fs q|w fs _ IH|w o _ IH].
  - intros e [].
  - exact IH.
  - apply run_keeps_I1. exact IH.
Qed.

Lemma I1_invariant_witness :
  I1 (db (run OpConsume (run (OpMarkProcessed e1) (started [] [e1])))).
Proof.
  apply I1_invariant. apply reach_run. apply reach_run. apply reach_start.
Defined.
(** ** The admission handler *)

(** ** The admission handler *)

Lemma Event_init_dict e :
  well_formed e -> Event_init "" "" (dict e) = inr e.
Proof.
  intros (Ht & Hs). apply Event_init_inr. exists (topic e), (source e).
  destruct e; simpl in *. repeat split; auto; lia.
Qed.

Lemma Event_init_well_formed uuid now r e :
  Event_init uuid now r = inr e -> well_formed e.
Proof.
  intros H. apply Event_init_inr in H.
  destruct H as (t & s & _ & _ & Ht & Hs & ->). split; assumption.
Qed.

Lemma validate_list_well_formed f l : forall i es,
  validate_list f i l = inr es -> Forall well_formed es.
Proof.
  induction l as [|r rest IH]; intros i es H; simpl in H.
  - inversion H. constructor.
  - destruct (Event_init (uuid4 f i) (utcnow f i) r) as [x|e] eqn:E;
      [discriminate|].
    destruct (validate_list f (S i) rest) as [x|es'] eqn:E'; [discriminate|].
    inversion H; subst. constructor.
    + exact (Event_init_well_formed _ _ _ _ E).
    + exact (IH _ _ E').
Qed.

(** One turn of the loop either counts the event as accepted, or counts
    it as rejected and appends one entry with its index; whatever else
    happens leaves the loop by an exception, or leaves the handler
    waiting on the queue. *)
Lemma publish_one_returns idx e a r errs w acc :
  fst (publish_one idx e (a, r, errs) w) = Ret acc ->
  acc = (S a, r, errs)
  \/ exists msg, acc = (a, S r, (errs ++ [mkDetail idx None msg])%list).
Proof.
  unfold publish_one, try_except.
  destruct (Event_init "" "" (dict e)) as [x|v].
  - unfold raise at 1. destruct x; simpl; intros H; inversion H; eauto.
  - unfold bind at 1.
    destruct (increment_stats 1 0 0 w) as [[[]|x|] w1]; simpl.
    + unfold bind, queue_put. destruct (full w1); simpl;
        intros H; inversion H; auto.
    + destruct x; simpl; intros H; inversion H; eauto.
    + discriminate.
Qed.

(** The turn of a well-formed event never leaves the loop by an
    exception: the event is put on the queue, or the handler waits for a
    free slot of the queue with the event counted as received, or the
    failure of its received-increment is recorded. *)
Lemma publish_one_total idx e a r errs w :
  well_formed e ->
  (exists w', publish_one idx e (a, r, errs) w = (Ret (S a, r, errs), w')
              /\ queue w' = (queue w ++ [e])%list)
  \/ (exists w', publish_one idx e (a, r, errs) w = (Pending, w')
                 /\ full w' = true /\ queue w' = queue w)
  \/ (exists x w',
        fst (increment_stats 1 0 0 w) = Raise x
        /\ publish_one idx e (a, r, errs) w
           = (Ret (a, S r, (errs ++ [mkDetail idx None (str x)])%list), w')
        /\ queue w' = queue w).
Proof.
  intros He. unfold publish_one, try_except. rewrite (Event_init_dict e He).
  pose proof (increment_stats_raises 1 0 0 w) as Hraise.
  pose proof (increment_stats_ends 1 0 0 w) as Hends.
  destruct (increment_stats_effect 1 0 0 w) as ((_ & Hq & _) & _).
  unfold bind, queue_put, logger, ret.
  destruct (increment_stats 1 0 0 w) as [[[]|x|] w1]; simpl in *.
  - destruct (full w1) eqn:F; simpl.
    + right. left. exists w1. auto.
    + left. eexists. split; [reflexivity|]. simpl. rewrite Hq. reflexivity.
  - right. right. exists x. specialize (Hraise x eq_refl).
    destruct x; try destruct Hraise; simpl;
      (eexists; split; [reflexivity|split; [reflexivity|exact Hq]]).
  - exfalso. apply Hends. reflexivity.
Qed.

Local Arguments publish_one : simpl never.

Lemma publish_loop_counts evs : forall idx a r errs w a' r' errs',
  fst (publish_loop idx evs (a, r, errs) w) = Ret (a', r', errs') ->
  (a' + r' = a + r + List.length evs)%nat
  /\ (List.length errs' + r = List.length errs + r')%nat
  /\ (forall d, In d errs' ->
        In d errs
        \/ ((idx <= index d < idx + List.length evs)%nat
            /\ detail_event_id d = None)).
Proof.
  induction evs as [|e rest IH]; intros idx a r errs w a' r' errs' H.
  - simpl in H. inversion H; subst. repeat split; auto; lia.
  - simpl in H. unfold bind in H.
    pose proof (publish_one_returns idx e a r errs w) as Hone.
    destruct (publish_one idx e (a, r, errs) w) as [[acc|x|] w1];
      simpl in *; [|discriminate|discriminate].
    destruct (Hone acc eq_refl) as [-> | (msg & ->)];
      destruct (IH _ _ _ _ _ _ _ _ H) as (H1 & H2 & H3).
    + repeat split; try lia. intros d Hd.
      destruct (H3 d Hd) as [Hin|(Hi & Hn)]; [left; exact Hin|right].
      split; [lia|exact Hn].
    + rewrite length_app in H2; simpl in H2. repeat split; try lia.
      intros d Hd. destruct (H3 d Hd) as [Hin|(Hi & Hn)].
      * apply in_app_or in Hin. destruct Hin as [Hin|[<-|[]]];
          [left; exact Hin|right]. simpl. split; [lia|reflexivity].
      * right. split; [lia|exact Hn].
Qed.

(** A loop over well-formed events never ends by an exception. *)
Lemma publish_loop_total evs : forall idx acc w x,
  Forall well_formed evs ->
  fst (publish_loop idx evs acc w) <> Raise x.
Proof.
  induction evs as [|e rest IH]; intros idx [[a r] errs] w x Hwf; simpl.
  - discriminate.
  - inversion Hwf as [|? ? He Hrest]; subst. unfold bind.
    destruct (publish_one_total idx e a r errs w He)
      as [(w' & -> & _) | [(w' & -> & _) | (y & w' & _ & -> & _)]];
      try (apply IH; exact Hrest). discriminate.
Qed.

Lemma publish_events_response request w resp :
  fst (publish_events request w) = Ret resp ->
  status resp = "accepted"
  /\ count resp = List.length (get_events request)
  /\ (accepted resp + rejected resp = count resp)%nat
  /\ List.length (errors resp) = rejected resp
  /\ forall d, In d (errors resp) ->
       (index d < count resp)%nat /\ detail_event_id d = None.
Proof.
  unfold publish_events, try_except. unfold bind at 1.
  pose proof (publish_loop_counts (get_events request) O O O [] w) as Hc.
  destruct (publish_loop 0 (get_events request) (O, O, []) w)
    as [[[[a r] errs]|x|] w1]; simpl in *.
  - intros H; inversion H; subst; simpl.
    destruct (Hc a r errs eq_refl) as (H1 & H2 & H3).
    repeat split; try lia.
    + destruct (H3 d H0) as [[]|(Hi & _)]. lia.
    + destruct (H3 d H0) as [[]|(_ & Hn)]. exact Hn.
  - intros H; inversion H.
  - intros H; inversion H.
Qed.

(** C10. Every response of [POST /publish] has
    [accepted + rejected = count], [count] the number of events of the
    normalized request, and as many entries in [errors] as [rejected]
    says. *)
Theorem publish_response_counts :
  (forall request w resp,
      fst (publish_events request w) = Ret resp ->
      (accepted resp + rejected resp = count resp)%nat
      /\ count resp = List.length (get_events request)
      /\ List.length (errors resp) = rejected resp)
  /\ (forall f body w resp,
        fst (post_publish f body w) = Ret resp ->
        exists request,
          PublishRequest_init f body = inr request
          /\ (accepted resp + rejected resp = count resp)%nat
          /\ count resp = List.length (get_events request)
          /\ List.length (errors resp) = rejected resp).
Proof.
  split.
  - intros request w resp H.
    destruct (publish_events_response request w resp H)
      as (_ & Hc & Ha & He & _).
    auto.
  - intros f body w resp H. unfold post_publish in H.
    destruct (PublishRequest_init f body) as [x|request]; [discriminate|].
    exists request. split; [reflexivity|].
    destruct (publish_events_response request w resp H)
      as (_ & Hc & Ha & He & _).
    auto.
Qed.

Lemma publish_response_counts_witness :
  (accepted two_of_three + rejected two_of_three = count two_of_three)%nat
  /\ List.length (errors two_of_three) = rejected two_of_three.
Proof.
  destruct publish_response_counts as (_ & H).
  destruct (H factories three_valid (started second_fails [])
              two_of_three eq_refl) as (request & _ & Ha & _ & He).
  split; [exact Ha|exact He].
Defined.

(** The handler on its own, given an event that its second validation
    refuses: the [except ValidationError] branch, which is there to count
    the event as rejected with its index, raises instead, and the
    request is answered 500. *)
Lemma publish_events_second_validation :
  fst (publish_events
         (mkRequest (Batch [sample "t" "e1"; sample "" "e2"; sample "t" "e3"]))
         (started [] []))
  = Raise (HTTPException 500 "'Event' object has no attribute 'get'").
Proof. reflexivity. Qed.

(** C4. A batch with an event the validator does not accept gets no
    per-event answer: the request model refuses the body as a whole with
    422 before the handler runs, nothing is counted and nothing is put on
    the queue. For [valid, {missing topic}, valid] there is no response
    with [count=3, accepted=2, rejected=1]. *)
Theorem batch_refused_whole f l w r :
  In r l -> ~ acceptable r ->
  post_publish f (Some (Batch l)) w
  = (Raise (HTTPException 422 "validation error for Event"), w).
Proof.
  intros Hin Hbad. unfold post_publish. simpl.
  destruct (validate_list_refused f l 0%nat r Hin Hbad) as (errs & ->).
  reflexivity.
Qed.

Lemma batch_refused_whole_witness :
  post_publish factories one_bad (started [] [])
  = (Raise (HTTPException 422 "validation error for Event"), started [] [])
  /\ queue (snd (post_publish factories one_bad (started [] []))) = []
  /\ event_stats (db (snd (post_publish factories one_bad (started [] []))))
     = Some (mkStats 0 0 0).
Proof.
  assert (H : post_publish factories one_bad (started [] [])
              = (Raise (HTTPException 422 "validation error for Event"),
                 started [] [])).
  { apply (batch_refused_whole factories _ _ (sample_raw None "e2")).
    - right. left. reflexivity.
    - intros (t & s & Ht & _). discriminate Ht. }
  rewrite H. repeat split; reflexivity.
Defined.

(** ** Shutdown *)

(** Once the consumer is cancelled and the shutdown waits on the queue,
    an item that was not marked done leaves nothing to happen. *)
Lemma draining_stuck s s' :
  consumer_task s = Cancelled -> phase s = Draining ->
  unfinished (world s) <> O -> ~ step s s'.
Proof.
  intros Hc Hp Hu Hstep. inversion Hstep; subst.
  - congruence.
  - congruence.
  - congruence.
  - unfold shutdown_close, queue_join in *.
    destruct (unfinished (world s)); [congruence|discriminate].
Qed.

(** With an empty queue the same sequence goes through and closes the
    pool. *)
Lemma shutdown_idle :
  exists s', steps idle s' /\ phase s' = Stopped /\ pool (world s') = false.
Proof.
  destruct (shutdown_close (shutdown_cancel idle)) as [s'|] eqn:E;
    [|vm_compute in E; discriminate].
  exists s'. split.
  - apply (@steps_next idle (shutdown_cancel idle) s');
      [apply step_cancel; reflexivity|].
    apply (@steps_next (shutdown_cancel idle) s' s');
      [apply step_close; [reflexivity|exact E]|apply steps_refl].
  - vm_compute in E. inversion E. split; reflexivity.
Qed.

(** Left to take its turn, the consumer processes the waiting event. *)
Lemma consumer_turn :
  step backlog (mkSys (run OpConsume (started [] [e1])) Running Serving)
  /\ processed_events (db (run OpConsume (started [] [e1]))) = [e1]
  /\ event_stats (db (run OpConsume (started [] [e1]))) = Some (mkStats 0 1 0)
  /\ unfinished (run OpConsume (started [] [e1])) = O.
Proof.
  split; [|repeat split; vm_compute; reflexivity].
  apply (@step_consumer backlog [] (Ret tt) (run OpConsume (started [] [e1])));
    [reflexivity|vm_compute; reflexivity].
Qed.

(** C5. The shutdown of [lifespan] cancels the consumer before it waits
    for the queue: with an item of the queue not yet marked done, nothing
    can happen after the cancellation. The event stays in the queue, is
    never checked against [dedup_store] nor credited to a counter, and
    the shutdown never gets past [_queue.join()] to close the pool. *)
Theorem shutdown_strands_queue s :
  phase s = Serving -> unfinished (world s) <> O ->
  step s (shutdown_cancel s)
  /\ forall s', steps (shutdown_cancel s) s' -> s' = shutdown_cancel s.
Proof.
  intros Hp Hu. split; [apply step_cancel; exact Hp|].
  intros s' Hsteps.
  remember (shutdown_cancel s) as s1 eqn:E.
  destruct Hsteps as [s1|s1 s2 s3 Hstep _]; [reflexivity|].
  exfalso. apply (draining_stuck s1 s2); subst s1; simpl; auto.
Qed.

Lemma shutdown_strands_queue_witness :
  step backlog (shutdown_cancel backlog)
  /\ queue (world (shutdown_cancel backlog)) = [e1]
  /\ in_dedup (key e1) (db (world (shutdown_cancel backlog))) = false
  /\ event_stats (db (world (shutdown_cancel backlog))) = Some (mkStats 0 0 0)
  /\ pool (world (shutdown_cancel backlog)) = true
  /\ forall s', steps (shutdown_cancel backlog) s' -> s' = shutdown_cancel backlog.
Proof.
  assert (Hu : unfinished (world backlog) <> O) by (simpl; discriminate).
  destruct (shutdown_strands_queue backlog eq_refl Hu) as (Hstep & Hstuck).
  split; [exact Hstep|].
  repeat (split; [vm_compute; reflexivity|]). exact Hstuck.
Defined.


(** ** Binary64: what a rounding does *)

Module Rounding.

Import SpecFloat.
Import Binary64.

Lemma digits2_pos_log2 p : Zpos (digits2_pos p) = Z.log2 (Zpos p) + 1.
Proof.
  assert (H : forall q, digits2_pos q = Pos.size q)
    by (induction q; simpl; congruence).
  rewrite H. destruct p; simpl; lia.
Qed.

Lemma digits_bounds p :
  2 ^ (Zpos (digits2_pos p) - 1) <= Zpos p < 2 ^ Zpos (digits2_pos p).
Proof.
  rewrite digits2_pos_log2.
  replace (Z.log2 (Zpos p) + 1 - 1) with (Z.log2 (Zpos p)) by lia.
  replace (Z.log2 (Zpos p) + 1) with (Z.succ (Z.log2 (Zpos p))) by lia.
  apply Z.log2_spec. lia.
Qed.

Lemma digits_unique m d :
  2 ^ (d - 1) <= m < 2 ^ d -> 0 < d -> Zdigits2 m = d.
Proof.
  intros H Hd.
  assert (0 < m) by (pose proof (Z.pow_pos_nonneg 2 (d - 1)); lia).
  destruct m as [|p|p]; try lia. simpl. rewrite digits2_pos_log2.
  rewrite (Z.log2_unique (Zpos p) (d - 1)); try lia.
  replace (Z.succ (d - 1)) with d by lia. exact H.
Qed.

Lemma shr_1_m mrs : 0 <= shr_m mrs -> shr_m (shr_1 mrs) = shr_m mrs / 2.
Proof.
  destruct mrs as [m r s]. simpl. intros Hm.
  destruct m as [|[p|p|]|p]; simpl; try lia; try reflexivity.
  - apply Z.div_unique with 1; lia.
  - apply Z.div_unique with 0; lia.
Qed.

Lemma iter_shr_1_m p : forall mrs,
  0 <= shr_m mrs ->
  shr_m (iter_pos shr_1 p mrs) = shr_m mrs / 2 ^ Zpos p.
Proof.
  assert (P2 : forall q, 0 < 2 ^ Zpos q)
    by (intros; apply Z.pow_pos_nonneg; lia).
  induction p as [p IH|p IH|]; intros mrs Hm; simpl iter_pos.
  - assert (H1 : 0 <= shr_m (shr_1 mrs))
      by (rewrite shr_1_m by auto; apply Z.div_pos; lia).
    assert (H2 : 0 <= shr_m (iter_pos shr_1 p (shr_1 mrs)))
      by (rewrite IH by auto; apply Z.div_pos; auto).
    rewrite IH, IH, shr_1_m by auto.
    pose proof (P2 p).
    rewrite !Z.div_div by lia. f_equal.
    replace (Zpos p~1) with (1 + Zpos p + Zpos p) by lia.
    rewrite !Z.pow_add_r by lia. ring.
  - assert (H2 : 0 <= shr_m (iter_pos shr_1 p mrs))
      by (rewrite IH by auto; apply Z.div_pos; auto).
    rewrite IH, IH by auto.
    pose proof (P2 p).
    rewrite !Z.div_div by lia. f_equal.
    replace (Zpos p~0) with (Zpos p + Zpos p) by lia.
    rewrite !Z.pow_add_r by lia. ring.
  - rewrite shr_1_m by auto. reflexivity.
Qed.

Lemma fexp_eq x : fexp prec emax x = Z.max (x - 53) (-1074).
Proof. reflexivity. Qed.

(** The first step of a rounding: the mantissa is cut to the exponent
    of its format. *)
Lemma shr_fexp_spec m e l :
  0 <= m ->
  snd (shr_fexp prec emax m e l)
  = e + Z.max 0 (fexp prec emax (Zdigits2 m + e) - e)
  /\ shr_m (fst (shr_fexp prec emax m e l))
     = m / 2 ^ Z.max 0 (fexp prec emax (Zdigits2 m + e) - e).
Proof.
  intros Hm. unfold shr_fexp, shr.
  assert (Hr : shr_m (shr_record_of_loc m l) = m)
    by (destruct l as [|[| |]]; reflexivity).
  destruct (fexp prec emax (Zdigits2 m + e) - e) as [|p|p] eqn:En; simpl fst;
    simpl snd.
  - rewrite Hr. simpl. rewrite Z.div_1_r. split; [lia|reflexivity].
  - rewrite iter_shr_1_m by (rewrite Hr; exact Hm). rewrite Hr.
    replace (Z.max 0 (Zpos p)) with (Zpos p) by lia. split; reflexivity.
  - rewrite Hr. replace (Z.max 0 (Zneg p)) with 0 by lia.
    simpl. rewrite Z.div_1_r. split; [lia|reflexivity].
Qed.

Lemma round_nearest_even_cases t l :
  round_nearest_even t l = t \/ round_nearest_even t l = t + 1.
Proof.
  destruct l as [|[| |]]; simpl; auto. destruct (Z.even t); auto.
Qed.

Lemma digits_at_least m : 2 ^ 52 <= m -> 53 <= Zdigits2 m.
Proof.
  intros H. destruct m as [|p|p]; try (simpl in H; lia).
  pose proof (digits_bounds p) as [_ Hd]. simpl Zdigits2.
  destruct (Z_lt_le_dec (Zpos (digits2_pos p)) 53) as [Hlt|]; [|assumption].
  exfalso.
  assert (2 ^ Zpos (digits2_pos p) <= 2 ^ 52)
    by (apply Z.pow_le_mono_r; lia).
  lia.
Qed.

(** A mantissa of at least 53 bits, in the range of the normal numbers,
    rounds to a normal number: [t] is the mantissa cut to 53 bits, and
    the result is [t] or [t + 1] at the exponent of the cut. *)
Lemma binary_round_aux_normal sx m e l :
  2 ^ 52 <= m -> -1074 <= e -> Zdigits2 m + e <= 1023 ->
  exists m' e',
    binary_round_aux prec emax sx m e l = S754_finite sx m' e'
    /\ 2 ^ 52 <= Zpos m' < 2 ^ 53
    /\ -1074 <= e' <= 971
    /\ e + (Zdigits2 m - 53) <= e' <= e + (Zdigits2 m - 53) + 1
    /\ 2 ^ 52 <= m / 2 ^ (Zdigits2 m - 53)
    /\ (Zpos m' * 2 ^ (e' - (e + (Zdigits2 m - 53)))
        = m / 2 ^ (Zdigits2 m - 53)
        \/ Zpos m' * 2 ^ (e' - (e + (Zdigits2 m - 53)))
           = m / 2 ^ (Zdigits2 m - 53) + 1).
Proof.
  intros Hm He Hde.
  pose proof (digits_at_least m Hm) as Hd.
  set (d := Zdigits2 m) in *. set (k := d - 53).
  assert (Hk : 0 <= k) by (unfold k; lia).
  assert (Hmd : 2 ^ (d - 1) <= m < 2 ^ d).
  { unfold d. destruct m as [|p|p]; try (simpl in Hm; lia).
    apply digits_bounds. }
  assert (Ht : 2 ^ 52 <= m / 2 ^ k < 2 ^ 53).
  { assert (0 < 2 ^ k) by (apply Z.pow_pos_nonneg; lia).
    assert (E1 : 2 ^ (d - 1) = 2 ^ 52 * 2 ^ k)
      by (replace (d - 1) with (52 + k) by (unfold k; lia);
          apply Z.pow_add_r; lia).
    assert (E2 : 2 ^ d = 2 ^ 53 * 2 ^ k)
      by (replace d with (53 + k) at 1 by (unfold k; lia);
          apply Z.pow_add_r; lia).
    rewrite E1, E2 in Hmd. split.
    - apply Z.div_le_lower_bound; lia.
    - apply Z.div_lt_upper_bound; lia. }
  set (t := m / 2 ^ k) in *.
  unfold binary_round_aux.
  destruct (shr_fexp_spec m e l) as (E1 & M1); [lia|].
  fold d in E1, M1.
  replace (Z.max 0 (fexp prec emax (d + e) - e)) with k in E1, M1
    by (rewrite fexp_eq; unfold k; lia).
  fold t in M1.
  destruct (shr_fexp prec emax m e l) as [mrs1 e1]. simpl in E1, M1. subst e1.
  rewrite M1.
  set (m1 := round_nearest_even t (loc_of_shr_record mrs1)).
  assert (Hm1 : m1 = t \/ m1 = t + 1) by apply round_nearest_even_cases.
  destruct (Z_lt_le_dec m1 (2 ^ 53)) as [Hlt|Hge].
  - (* no carry *)
    assert (D1 : Zdigits2 m1 = 53) by (apply digits_unique; simpl; lia).
    destruct (shr_fexp_spec m1 (e + k) loc_Exact) as (E2 & M2); [lia|].
    rewrite D1, fexp_eq in E2, M2.
    replace (Z.max 0 (Z.max (53 + (e + k) - 53) (-1074) - (e + k))) with 0
      in E2, M2 by lia.
    simpl in M2. rewrite Z.div_1_r in M2.
    destruct (shr_fexp prec emax m1 (e + k) loc_Exact) as [mrs2 e2].
    simpl in E2, M2. subst e2. rewrite M2.
    destruct m1 as [|p|p]; try lia.
    replace (e + k + 0 <=? emax - prec) with true
      by (symmetry; apply Z.leb_le; unfold emax, prec, k; lia).
    exists p, (e + k + 0).
    split; [reflexivity|]. split; [lia|]. split; [unfold k; lia|].
    split; [lia|]. split; [lia|].
    replace (e + k + 0 - (e + k)) with 0 by lia. simpl (2 ^ 0).
    rewrite Z.mul_1_r. exact Hm1.
  - (* the carry: [t + 1 = 2 ^ 53] *)
    assert (Hc : m1 = 2 ^ 53) by lia.
    assert (D1 : Zdigits2 m1 = 54) by (rewrite Hc; reflexivity).
    destruct (shr_fexp_spec m1 (e + k) loc_Exact) as (E2 & M2); [lia|].
    rewrite D1, fexp_eq in E2, M2.
    replace (Z.max 0 (Z.max (54 + (e + k) - 53) (-1074) - (e + k))) with 1
      in E2, M2 by lia.
    destruct (shr_fexp prec emax m1 (e + k) loc_Exact) as [mrs2 e2].
    simpl fst in M2; simpl snd in E2. subst e2. rewrite M2, Hc.
    change (2 ^ 53 / 2 ^ 1) with (Zpos 4503599627370496).
    cbv iota beta.
    replace (e + k + 1 <=? emax - prec) with true
      by (symmetry; apply Z.leb_le; unfold emax, prec, k; lia).
    exists 4503599627370496%positive, (e + k + 1).
    split; [reflexivity|]. split; [simpl; lia|]. split; [unfold k; lia|].
    split; [lia|]. split; [lia|].
    replace (e + k + 1 - (e + k)) with 1 by lia.
    right. change (Zpos 4503599627370496 * 2 ^ 1) with (2 ^ 53). lia.
Qed.

Lemma powerRZ_2_pos e : (0 < powerRZ 2 e)%R.
Proof. apply powerRZ_lt. lra. Qed.

Lemma powerRZ_2_Z k : 0 <= k -> powerRZ 2 k = IZR (2 ^ k).
Proof.
  intros Hk. rewrite <- (Z2Nat.id k Hk) at 1.
  rewrite <- pow_powerRZ, pow_IZR, Z2Nat.id by exact Hk. reflexivity.
Qed.

Lemma val_shift m e k : 0 <= k -> val (m * 2 ^ k) e = val m (e + k).
Proof.
  intros Hk. unfold val.
  rewrite mult_IZR, powerRZ_add, <- powerRZ_2_Z by (lra || exact Hk).
  ring.
Qed.

Lemma val_le m m' e : m <= m' -> (val m e <= val m' e)%R.
Proof.
  intros H. unfold val. apply Rmult_le_compat_r.
  - left. apply powerRZ_2_pos.
  - apply IZR_le. exact H.
Qed.

(** The rounding in real numbers: the value rounded and the result are
    between two neighbours [lo] and [hi] of the format, which are closer
    than [lo / 2 ^ 52]. *)
Lemma binary_round_aux_real sx m e l :
  2 ^ 52 <= m -> -1074 <= e -> Zdigits2 m + e <= 1023 ->
  exists m' e' lo hi,
    binary_round_aux prec emax sx m e l = S754_finite sx m' e'
    /\ 2 ^ 52 <= Zpos m' < 2 ^ 53
    /\ e + (Zdigits2 m - 53) <= e' <= e + (Zdigits2 m - 53) + 1
    /\ (lo <= val m e)%R /\ (val (m + 1) e <= hi)%R
    /\ (lo <= val (Zpos m') e' <= hi)%R
    /\ ((hi - lo) * IZR (2 ^ 52) <= lo)%R.
Proof.
  intros Hm He Hde.
  destruct (binary_round_aux_normal sx m e l Hm He Hde)
    as (m' & e' & Hr & Hm' & _ & He' & Ht & Hv).
  pose proof (digits_at_least m Hm) as Hd.
  set (k := Zdigits2 m - 53) in *. set (t := m / 2 ^ k) in *.
  assert (P : 0 < 2 ^ k) by (apply Z.pow_pos_nonneg; lia).
  exists m', e', (val t (e + k)), (val (t + 1) (e + k)).
  split; [exact Hr|]. split; [exact Hm'|]. split; [exact He'|].
  split; [|split; [|split]].
  - rewrite <- (val_shift t e k) by lia. apply val_le.
    unfold t. rewrite Z.mul_comm. apply Z.mul_div_le. exact P.
  - rewrite <- (val_shift (t + 1) e k) by lia. apply val_le.
    pose proof (Z.mod_pos_bound m (2 ^ k) P).
    pose proof (Z.div_mod m (2 ^ k)). fold t in H0. lia.
  - replace e' with (e + k + (e' - (e + k))) at 1 2 by lia.
    rewrite <- (val_shift (Zpos m') (e + k) (e' - (e + k))) by lia.
    destruct Hv as [-> | ->]; split;
      try apply Rle_refl; apply val_le; lia.
  - unfold val. rewrite plus_IZR.
    pose proof (powerRZ_2_pos (e + k)) as Hp.
    apply IZR_le in Ht.
    replace ((((IZR t + 1) * powerRZ 2 (e + k) - IZR t * powerRZ 2 (e + k))
              * IZR (2 ^ 52)))%R
      with (IZR (2 ^ 52) * powerRZ 2 (e + k))%R by ring.
    apply Rmult_le_compat_r; [lra|exact Ht].
Qed.

Lemma digits_at_most p n :
  0 <= n -> Zpos p < 2 ^ n -> Zpos (digits2_pos p) <= n.
Proof.
  intros Hn Hp. pose proof (digits_bounds p) as [Hd _].
  destruct (Z_le_gt_dec (Zpos (digits2_pos p)) n) as [|Hgt]; [assumption|].
  exfalso.
  assert (2 ^ n <= 2 ^ (Zpos (digits2_pos p) - 1))
    by (apply Z.pow_le_mono_r; lia).
  lia.
Qed.

(** The division of two integers below [2 ^ 53]: what is rounded is the
    quotient of [u * 2 ^ s] by [r], with [s] making it 53 or 54 bits
    long. *)
Lemma SFdiv_core_spec u r :
  Zpos u < 2 ^ 53 -> Zpos r < 2 ^ 53 ->
  exists l,
    SFdiv_core_binary prec emax (Zpos u) 0 (Zpos r) 0
    = (Zpos u * 2 ^ (53 + Zpos (digits2_pos r) - Zpos (digits2_pos u))
       / Zpos r,
       - (53 + Zpos (digits2_pos r) - Zpos (digits2_pos u)), l).
Proof.
  intros Hu Hr. unfold SFdiv_core_binary. simpl Zdigits2.
  pose proof (digits_at_most u 53 ltac:(lia) Hu) as Hdu.
  pose proof (digits_at_most r 53 ltac:(lia) Hr) as Hdr.
  set (d1 := Zpos (digits2_pos u)) in *.
  set (d2 := Zpos (digits2_pos r)) in *.
  assert (0 < d1 /\ 0 < d2) as [H1 H2] by (unfold d1, d2; lia).
  replace (Z.min (fexp prec emax (d1 + 0 - (d2 + 0))) (0 - 0))
    with (- (53 + d2 - d1)) by (rewrite fexp_eq; lia).
  replace (0 - 0 - - (53 + d2 - d1)) with (53 + d2 - d1) by lia.
  destruct (53 + d2 - d1) as [|p|p] eqn:Es; try lia.
  rewrite Z.shiftl_mul_pow2 by lia.
  unfold Z.div.
  destruct (Z.div_eucl (Zpos u * 2 ^ Zpos p) (Zpos r)) as [q rem].
  eexists. reflexivity.
Qed.

Lemma val_mul m e r : (val m e * IZR r = val (m * r) e)%R.
Proof. unfold val. rewrite mult_IZR. ring. Qed.

Lemma val_0 m : val m 0 = IZR m.
Proof. unfold val. simpl. ring. Qed.

(** [u / r] in binary64, for positive integers below [2 ^ 53]: a normal
    number, within [u / r / 2 ^ 52] of the quotient. The bound is stated
    with both sides multiplied by [r]. *)
Lemma SFdiv_real s u r :
  Zpos u < 2 ^ 53 -> Zpos r < 2 ^ 53 ->
  exists m e,
    SFdiv prec emax (S754_finite s u 0) (S754_finite false r 0)
    = S754_finite s m e
    /\ 2 ^ 52 <= Zpos m < 2 ^ 53
    /\ -105 <= e <= 1
    /\ ((val (Zpos m) e * IZR (Zpos r) - IZR (Zpos u)) * IZR (2 ^ 52)
        <= IZR (Zpos u))%R
    /\ ((IZR (Zpos u) - val (Zpos m) e * IZR (Zpos r)) * IZR (2 ^ 52)
        <= IZR (Zpos u))%R.
Proof.
  intros Hu Hr. unfold SFdiv.
  destruct (SFdiv_core_spec u r Hu Hr) as (l & ->).
  pose proof (digits_at_most u 53 ltac:(lia) Hu) as Hdu.
  pose proof (digits_at_most r 53 ltac:(lia) Hr) as Hdr.
  pose proof (digits_bounds u) as [Hu1 Hu2].
  pose proof (digits_bounds r) as [Hr1 Hr2].
  set (d1 := Zpos (digits2_pos u)) in *.
  set (d2 := Zpos (digits2_pos r)) in *.
  assert (0 < d1 /\ 0 < d2) as [H1 H2] by (unfold d1, d2; lia).
  set (sh := 53 + d2 - d1) in *.
  assert (Hsh : 1 <= sh <= 105) by (unfold sh; lia).
  assert (PS : 0 < 2 ^ sh) by (apply Z.pow_pos_nonneg; lia).
  assert (E1 : 2 ^ (d1 - 1) * 2 ^ sh = 2 ^ 52 * 2 ^ d2)
    by (rewrite <- !Z.pow_add_r by lia; f_equal; unfold sh; lia).
  assert (E2 : 2 ^ d1 * 2 ^ sh = 2 ^ 54 * 2 ^ (d2 - 1))
    by (rewrite <- !Z.pow_add_r by lia; f_equal; unfold sh; lia).
  set (q := Zpos u * 2 ^ sh / Zpos r).
  assert (Hq : 2 ^ 52 <= q < 2 ^ 54).
  { unfold q. split.
    - apply Z.div_le_lower_bound; [lia|].
      apply Z.le_trans with (2 ^ 52 * 2 ^ d2); [nia|].
      rewrite <- E1. apply Z.mul_le_mono_nonneg_r; lia.
    - apply Z.div_lt_upper_bound; [lia|].
      apply Z.lt_le_trans with (2 ^ d1 * 2 ^ sh).
      + apply Z.mul_lt_mono_pos_r; lia.
      + rewrite E2. rewrite (Z.mul_comm (Zpos r)).
        apply Z.mul_le_mono_nonneg_l; lia. }
  assert (Hdq : 53 <= Zdigits2 q <= 54).
  { split; [apply digits_at_least; lia|].
    destruct q as [|pq|pq]; try lia. apply digits_at_most; lia. }
  destruct (binary_round_aux_real (xorb s false) q (- sh) l)
    as (m & e & lo & hi & -> & Hm & He & Hlo & Hhi & Hx & Hw);
    try lia.
  rewrite xorb_false_r. exists m, e.
  split; [reflexivity|]. split; [exact Hm|]. split; [lia|].
  assert (Hqr : q * Zpos r <= Zpos u * 2 ^ sh)
    by (unfold q; rewrite Z.mul_comm; apply Z.mul_div_le; lia).
  assert (Hqr' : Zpos u * 2 ^ sh <= (q + 1) * Zpos r).
  { pose proof (Z.mod_pos_bound (Zpos u * 2 ^ sh) (Zpos r) ltac:(lia)).
    pose proof (Z.div_mod (Zpos u * 2 ^ sh) (Zpos r) ltac:(lia)).
    fold q in H0. lia. }
  assert (Hval : val (Zpos u * 2 ^ sh) (- sh) = IZR (Zpos u)).
  { rewrite val_shift by lia. replace (- sh + sh) with 0 by lia.
    apply val_0. }
  assert (R0 : (0 < IZR (Zpos r))%R) by (apply IZR_lt; lia).
  assert (L1 : (lo * IZR (Zpos r) <= IZR (Zpos u))%R).
  { rewrite <- Hval. apply Rle_trans with (val q (- sh) * IZR (Zpos r))%R.
    - apply Rmult_le_compat_r; lra.
    - rewrite val_mul. apply val_le. exact Hqr. }
  assert (L2 : (IZR (Zpos u) <= hi * IZR (Zpos r))%R).
  { rewrite <- Hval.
    apply Rle_trans with (val (q + 1) (- sh) * IZR (Zpos r))%R.
    - rewrite val_mul. apply val_le. exact Hqr'.
    - apply Rmult_le_compat_r; lra. }
  assert (L3 : (lo * IZR (Zpos r) <= val (Zpos m) e * IZR (Zpos r))%R)
    by (apply Rmult_le_compat_r; lra).
  assert (L4 : (val (Zpos m) e * IZR (Zpos r) <= hi * IZR (Zpos r))%R)
    by (apply Rmult_le_compat_r; lra).
  assert (L5 : ((hi * IZR (Zpos r) - lo * IZR (Zpos r)) * IZR (2 ^ 52)
                <= lo * IZR (Zpos r))%R).
  { replace ((hi * IZR (Zpos r) - lo * IZR (Zpos r)) * IZR (2 ^ 52))%R
      with ((hi - lo) * IZR (2 ^ 52) * IZR (Zpos r))%R by ring.
    apply Rmult_le_compat_r; lra. }
  assert (C : (0 < IZR (2 ^ 52))%R) by (apply IZR_lt; reflexivity).
  split; nra.
Qed.





End Rounding.







(** The values of the rates on some counters: a third and two thirds;
    nothing out of five; and two rates exactly half way between two
    hundredths, 0.005 and 0.015, which both come out as 0.01. *)
Lemma rate_examples :
  rate 1 3 = inr (Binary64.of_hundredths false 3333)
  /\ rate 2 3 = inr (Binary64.of_hundredths false 6667)
  /\ rate 0 5 = inr (SpecFloat.S754_zero false)
  /\ rate 5 0 = inr (SpecFloat.S754_zero false)
  /\ rate 1 20000 = inr (Binary64.of_hundredths false 1)
  /\ rate 3 20000 = inr (Binary64.of_hundredths false 1).
Proof. vm_compute. repeat split; reflexivity. Qed.

(** The floats of the machine compute the same: the percentage before
    [round], and the hundredths read back. *)
Lemma machine_examples :
  Binary64.truediv 1 3
  = inr (FloatOps.Prim2SF (PrimFloat.div (Binary64.machine_int 1)
                                         (Binary64.machine_int 3)))
  /\ (forall q, Binary64.truediv 1 20000 = inr q ->
                FloatOps.Prim2SF (Binary64.machine_percent 1 20000)
                = Binary64.mul q (Binary64.of_int 100))
  /\ (forall q, Binary64.truediv 3 20000 = inr q ->
                FloatOps.Prim2SF (Binary64.machine_percent 3 20000)
                = Binary64.mul q (Binary64.of_int 100))
  /\ (forall q, Binary64.truediv 123456789 987654321 = inr q ->
                FloatOps.Prim2SF (Binary64.machine_percent 123456789 987654321)
                = Binary64.mul q (Binary64.of_int 100))
  /\ FloatOps.Prim2SF (PrimFloat.div (Binary64.machine_int 3333)
                                     (Binary64.machine_int 100))
     = Binary64.of_hundredths false 3333
  /\ FloatOps.Prim2SF (PrimFloat.div (Binary64.machine_int 1)
                                     (Binary64.machine_int 100))
     = Binary64.of_hundredths false 1.
Proof.
  split; [vm_compute; reflexivity|].
  repeat split; try (vm_compute; reflexivity);
    intros q H; vm_compute in H; inversion H; subst q;
    vm_compute; reflexivity.
Qed.

(** The hundredths read back: the float is within [n / 100 / 2 ^ 52] of
    [n / 100]. *)
Lemma of_hundredths_close s n :
  0 < n < 2 ^ 53 ->
  exists m e,
    Binary64.of_hundredths s n = SpecFloat.S754_finite s m e
    /\ ((val (Zpos m) e * 100 - IZR n) * IZR (2 ^ 52) <= IZR n)%R
    /\ ((IZR n - val (Zpos m) e * 100) * IZR (2 ^ 52) <= IZR n)%R.
Proof.
  intros Hn. destruct n as [|p|p]; try lia.
  unfold Binary64.of_hundredths. simpl Binary64.magnitude.
  destruct (Rounding.SFdiv_real s p 100 (proj2 Hn) ltac:(reflexivity))
    as (m & e & -> & _ & _ & H1 & H2).
  exists m, e. auto.
Qed.

(** * Further properties of the code *)

(** ** Fingerprints and the two inserts *)

Lemma key_eqb_eq a b : key_eqb a b = true <-> a = b.
Proof.
  unfold key_eqb. rewrite andb_true_iff, !String.eqb_eq.
  destruct a, b; simpl. split; [intros (-> & ->); reflexivity|].
  intros H; inversion H; auto.
Qed.

Lemma in_dedup_In k d : in_dedup k d = true <-> In k (dedup_store d).
Proof.
  unfold in_dedup. rewrite existsb_exists. split.
  - intros (x & Hx & Hk). apply key_eqb_eq in Hk. subst. exact Hx.
  - intros H. exists k. split; [exact H|apply key_eqb_refl].
Qed.

Lemma in_processed_In k d :
  in_processed k d = true <-> In k (map key (processed_events d)).
Proof.
  unfold in_processed. rewrite existsb_exists, in_map_iff. split.
  - intros (x & Hx & Hk). apply key_eqb_eq in Hk. eauto.
  - intros (x & Hk & Hx). exists x. split; [exact Hx|].
    rewrite Hk. apply key_eqb_refl.
Qed.

Lemma insert_dedup_In t i d k :
  In k (dedup_store (insert_dedup t i d))
  <-> In k (dedup_store d) \/ k = (t, i).
Proof.
  unfold insert_dedup. destruct (in_dedup (t, i) d) eqn:E; simpl.
  - apply in_dedup_In in E. split; [auto|]. intros [H| ->]; assumption.
  - rewrite in_app_iff. simpl. intuition.
Qed.

Lemma insert_processed_In e d k :
  In k (map key (processed_events (insert_processed e d)))
  <-> In k (map key (processed_events d)) \/ k = key e.
Proof.
  unfold insert_processed. destruct (in_processed (key e) d) eqn:E; simpl.
  - apply in_processed_In in E. split; [auto|]. intros [H| ->]; assumption.
  - rewrite map_app, in_app_iff. simpl. intuition.
Qed.

Lemma insert_dedup_frame t i d :
  processed_events (insert_dedup t i d) = processed_events d
  /\ event_stats (insert_dedup t i d) = event_stats d.
Proof. unfold insert_dedup. destruct (in_dedup (t, i) d); auto. Qed.

Lemma insert_processed_frame e d :
  dedup_store (insert_processed e d) = dedup_store d
  /\ event_stats (insert_processed e d) = event_stats d.
Proof. unfold insert_processed. destruct (in_processed (key e) d); auto. Qed.

Lemma is_processed_answer t i w :
  pool w = true -> hd None (faults w) = None ->
  fst (is_processed t i w) = Ret (in_dedup (t, i) (db w)).
Proof.
  destruct w as [d p [|[x|] fs] c tr q n lg]; simpl; intros -> H;
    try discriminate; reflexivity.
Qed.

(** X1. When [mark_processed] answers [(True, _)], whatever the oracle
    held, the fingerprint is in [dedup_store] and in [processed_events],
    and an [is_processed] that goes through answers [True]. *)
Theorem persisted_is_stored e w m :
  fst (mark_processed e w) = Ret (true, m) ->
  in_dedup (key e) (db (snd (mark_processed e w))) = true
  /\ in_processed (key e) (db (snd (mark_processed e w))) = true
  /\ (hd None (faults (snd (mark_processed e w))) = None ->
      fst (is_processed (topic e) (event_id e) (snd (mark_processed e w)))
      = Ret true).
Proof.
  intros H. pose proof (mark_processed_outcome e w) as Ho. rewrite H in Ho.
  destruct Ho as (_ & Hp & Hdb).
  destruct (mark_processed_effect e w) as ((Hpool & _) & _).
  assert (Hd : in_dedup (key e) (db (snd (mark_processed e w))) = true).
  { rewrite Hdb. apply in_dedup_In.
    rewrite (proj1 (insert_processed_frame _ _)).
    apply insert_dedup_In. right. reflexivity. }
  split; [exact Hd|]. split.
  - rewrite Hdb. apply in_processed_In. apply insert_processed_In.
    right. reflexivity.
  - intros Hq. rewrite is_processed_answer; [|congruence|exact Hq].
    unfold key in Hd. rewrite Hd. reflexivity.
Qed.

Lemma persisted_is_stored_witness :
  in_dedup (key e1) (db marked_once) = true
  /\ in_processed (key e1) (db marked_once) = true
  /\ fst (is_processed "t" "e1" marked_once) = Ret true.
Proof.
  destruct (persisted_is_stored e1 (started [] []) None eq_refl)
    as (H1 & H2 & H3).
  split; [exact H1|]. split; [exact H2|]. apply H3. reflexivity.
Defined.



(** X3. The first write wins: once a row with the fingerprint is stored,
    [mark_processed] of an event with the same [(topic, event_id)],
    whatever its other fields and whatever the oracle, changes no
    table. *)
Theorem first_write_wins e e' w :
  In e (processed_events (db w)) -> in_dedup (key e) (db w) = true ->
  key e' = key e ->
  db (snd (mark_processed e' w)) = db w.
Proof.
  intros Hin Hd Hk. destruct (mark_processed_effect e' w) as (_ & [H|H]);
    [exact H|]. rewrite H.
  assert (Hd' : in_dedup (topic e', event_id e') (db w) = true)
    by (change (topic e', event_id e') with (key e'); rewrite Hk; exact Hd).
  rewrite (insert_dedup_present _ _ _ Hd').
  unfold insert_processed.
  assert (Hp : in_processed (key e') (db w) = true).
  { apply in_processed_In. rewrite Hk. apply in_map. exact Hin. }
  rewrite Hp. reflexivity.
Qed.

Lemma first_write_wins_witness :
  db (snd (mark_processed
             (mkEvent "t" "e1" "2026-01-01T00:00:00Z" "service-b"
                      [("level", JStr "ERROR")])
             marked_once))
  = db marked_once.
Proof.
  apply (first_write_wins e1); [left; reflexivity|reflexivity|reflexivity].
Defined.

(** ** Invariants of the tables, for any property the inserts keep *)

Section TableInvariant.

Variable P : DB -> Prop.
Hypothesis P_tables : forall d d', same_tables d d' -> P d -> P d'.
Hypothesis P_insert :
  forall e d, P d -> P (insert_processed e (insert_dedup (topic e) (event_id e) d)).
Hypothesis P_empty :
  forall d, processed_events d = [] -> dedup_store d = [] -> P d.

Lemma inv_mark_processed e : keeps P (mark_processed e).
Proof.
  intros w H. destruct (mark_processed_effect e w) as (_ & [-> | ->]);
    [exact H|apply P_insert; exact H].
Qed.

Lemma inv_increment_stats r u d : keeps P (increment_stats r u d).
Proof.
  intros w H. exact (P_tables _ _ (increment_stats_tables r u d w) H).
Qed.

Lemma inv_is_processed t i : keeps P (is_processed t i).
Proof. intros w H. now rewrite (proj2 (is_processed_effect t i w)). Qed.

Lemma inv_clear_all_data : keeps P clear_all_data.
Proof.
  intros w H. destruct (clear_all_data_effect w) as (_ & [-> | (Hp & Hd)]);
    [exact H|apply P_empty; assumption].
Qed.

Lemma inv_process e : keeps P (process e).
Proof.
  unfold process.
  apply keeps_bind; [apply keeps_logger|intros _].
  apply keeps_bind; [apply inv_is_processed|intros already].
  apply keeps_bind; [|intros _; apply keeps_task_done].
  destruct already.
  - apply keeps_bind; [apply inv_increment_stats|intros _; apply keeps_logger].
  - apply keeps_bind; [apply inv_mark_processed|intros [[|] error]];
      (apply keeps_bind; [apply inv_increment_stats|intros _; apply keeps_logger]).
Qed.

Lemma inv_publish_loop evs : forall idx acc, keeps P (publish_loop idx evs acc).
Proof.
  induction evs as [|e rest IH]; intros idx acc; simpl.
  - apply keeps_ret.
  - apply keeps_bind; [|intros acc'; apply IH].
    destruct acc as [[a r] errs]. unfold publish_one.
    apply keeps_try_except.
    + destruct (Event_init "" "" (dict e)); [apply keeps_raise|].
      apply keeps_bind; [apply inv_increment_stats|intros _].
      apply keeps_bind; [apply keeps_queue_put|intros _].
      apply keeps_bind; [apply keeps_logger|intros _; apply keeps_ret].
    + intros x. destruct x; try apply keeps_raise;
        (apply keeps_bind; [apply keeps_logger|intros _; apply keeps_ret]).
Qed.

Lemma inv_post_publish f body : keeps P (post_publish f body).
Proof.
  unfold post_publish. destruct (PublishRequest_init f body) as [x|request];
    [apply keeps_raise|].
  unfold publish_events. apply keeps_try_except.
  - apply keeps_bind; [apply inv_publish_loop|intros [[a r] errs]; apply keeps_ret].
  - intros x. apply keeps_bind; [apply keeps_logger|intros _; apply keeps_raise].
Qed.

Lemma inv_run o w : P (db w) -> P (db (run o w)).
Proof.
  intros H. destruct o; simpl.
  - apply inv_is_processed, H.
  - apply inv_mark_processed, H.
  - apply inv_increment_stats, H.
  - now rewrite (proj2 (get_stats_effect w)).
  - apply inv_clear_all_data, H.
  - unfold close_pool. destruct (pool w); exact H.
  - apply inv_post_publish, H.
  - unfold consumer_worker. destruct (queue w) as [|e rest]; [exact H|].
    match goal with |- context [try_except ?m ?h ?w0] =>
      assert (K : keeps P (try_except m h))
        by (apply keeps_try_except; [apply inv_process|];
            intros x; apply keeps_bind;
            [apply keeps_logger|intros _; apply keeps_task_done]);
      specialize (K w0 H); destruct (try_except m h w0) as [r' w'] end.
    exact K.
Qed.

Lemma inv_reachable w : reachable w -> P (db w).
Proof.
  induction 1 as [fs q|w fs _ IH|w o _ IH].
  - apply P_empty; reflexivity.
  - exact IH.
  - apply inv_run. exact IH.
Qed.

End TableInvariant.

Lemma NoDup_snoc {A} (l : list A) x : NoDup l -> ~ In x l -> NoDup (l ++ [x]).
Proof.
  intros Hl Hx. apply NoDup_app; [exact Hl|repeat constructor; intros []|].
  intros a Ha [<-|[]]. exact (Hx Ha).
Qed.

Lemma unique_keys_insert e d :
  unique_keys d ->
  unique_keys (insert_processed e (insert_dedup (topic e) (event_id e) d)).
Proof.
  intros (Hd & Hp). unfold unique_keys, insert_processed, insert_dedup.
  destruct (in_dedup (topic e, event_id e) d) eqn:Ed;
    destruct (in_processed (key e) _) eqn:Ep; simpl; split; auto.
  - rewrite map_app. apply NoDup_snoc; [exact Hp|].
    intros H. apply in_processed_In in H. congruence.
  - apply NoDup_snoc; [exact Hd|]. intros H. apply in_dedup_In in H. congruence.
  - apply NoDup_snoc; [exact Hd|]. intros H. apply in_dedup_In in H. congruence.
  - rewrite map_app. apply NoDup_snoc; [exact Hp|].
    intros H. apply (proj2 (in_processed_In (key e) _)) in H.
    unfold in_processed in *. simpl in *. congruence.
Qed.

(** X4. In every state the process can reach, no fingerprint is twice
    in [dedup_store] and none is twice in [processed_events], whatever
    fails and however often the same event is marked. *)
Theorem unique_keys_invariant w : reachable w -> unique_keys (db w).
Proof.
  apply (inv_reachable unique_keys).
  - intros d d' (Hp & Hd) (H1 & H2). unfold unique_keys.
    rewrite Hp, Hd. auto.
  - exact unique_keys_insert.
  - intros d Hp Hd. unfold unique_keys. rewrite Hp, Hd.
    split; constructor.
Qed.

Lemma unique_keys_invariant_witness :
  unique_keys (db (run (OpMarkProcessed e1) marked_once)).
Proof.
  apply unique_keys_invariant. apply reach_run.
  apply (reach_run (started [] []) (OpMarkProcessed e1)). apply reach_start.
Defined.

(** X5. In every state the process can reach, [dedup_store] and
    [processed_events] hold the same fingerprints: an event that
    [is_processed] reports has its row in [processed_events], and the
    other way round. *)
Theorem same_fingerprints w :
  reachable w -> forall k, in_dedup k (db w) = in_processed k (db w).
Proof.
  apply (inv_reachable
           (fun d => forall k, in_dedup k d = in_processed k d)).
  - intros d d' (Hp & Hd) H k. unfold in_dedup, in_processed.
    rewrite Hp, Hd. apply H.
  - intros e d H k. apply eq_true_iff_eq.
    rewrite in_dedup_In, in_processed_In, insert_processed_In.
    rewrite (proj1 (insert_processed_frame _ _)), insert_dedup_In.
    rewrite <- (in_processed_In k (insert_dedup _ _ d)).
    unfold in_processed. rewrite (proj1 (insert_dedup_frame _ _ _)).
    fold (in_processed k d). rewrite <- H, in_dedup_In. reflexivity.
  - intros d Hp Hd k. unfold in_dedup, in_processed. now rewrite Hp, Hd.
Qed.

Lemma same_fingerprints_witness :
  in_dedup ("t", "e1") (db (run OpConsume (started [] [e1])))
  = in_processed ("t", "e1") (db (run OpConsume (started [] [e1]))).
Proof.
  apply same_fingerprints. apply reach_run. apply reach_start.
Defined.

(** ** Triples *)

Lemma hoare_conseq {A} (P P' : World -> Prop) (m : M A)
    (Q Q' : outcome A -> World -> Prop) :
  (forall w, P' w -> P w) -> hoare P m Q ->
  (forall o w, Q o w -> Q' o w) -> hoare P' m Q'.
Proof. intros HP H HQ w Hw. apply HQ, H, HP, Hw. Qed.

Lemma hoare_ret {A} (P : World -> Prop) (a : A) Q :
  (forall w, P w -> Q (Ret a) w) -> hoare P (ret a) Q.
Proof. intros H w Hw. apply H, Hw. Qed.

Lemma hoare_logger (P : World -> Prop) l msg Q :
  (forall w, P w -> Q (Ret tt) (logged l msg w)) ->
  hoare P (logger l msg) Q.
Proof. intros H w Hw. apply H, Hw. Qed.

Lemma hoare_bind {A B} (P : World -> Prop) (m : M A) (k : A -> M B)
    (R : A -> World -> Prop) Q :
  hoare P m (fun o w => match o with
                        | Ret a => R a w
                        | Raise x => Q (Raise x) w
                        | Pending => Q Pending w
                        end) ->
  (forall a, hoare (R a) (k a) Q) ->
  hoare P (bind m k) Q.
Proof.
  intros Hm Hk w Hw. specialize (Hm w Hw). unfold bind.
  destruct (m w) as [[a|x|] w1]; simpl in *.
  - apply Hk, Hm.
  - exact Hm.
  - exact Hm.
Qed.

Lemma hoare_try_except {A} (P : World -> Prop) (m : M A) (h : exn -> M A)
    (R : exn -> World -> Prop) Q :
  hoare P m (fun o w => match o with
                        | Ret a => Q (Ret a) w
                        | Raise x => R x w
                        | Pending => Q Pending w
                        end) ->
  (forall x, hoare (R x) (h x) Q) ->
  hoare P (try_except m h) Q.
Proof.
  intros Hm Hh w Hw. specialize (Hm w Hw). unfold try_except.
  destruct (m w) as [[a|x|] w1]; simpl in *.
  - exact Hm.
  - apply Hh, Hm.
  - exact Hm.
Qed.

(** The calls of the persistence layer, framed: they leave the pool
    handle and the queue alone, and what they did to the tables shows in
    their outcome. *)
Lemma hoare_is_processed t i (P : World -> Prop) Q :
  (forall w o w', P w -> o <> Pending -> same_process w w' ->
     db w' = db w -> Q o w') ->
  hoare P (is_processed t i) Q.
Proof.
  intros H w Hw. destruct (is_processed_effect t i w) as (Hf & Hd).
  exact (H w _ _ Hw (is_processed_ends t i w) Hf Hd).
Qed.

Lemma hoare_mark_processed e (P : World -> Prop) Q :
  (forall w o w', P w -> o <> Pending -> same_process w w' ->
     match o with
     | Ret (true, _) =>
         db w' = insert_processed e (insert_dedup (topic e) (event_id e) (db w))
     | _ => db w' = db w
     end -> Q o w') ->
  hoare P (mark_processed e) Q.
Proof.
  intros H w Hw. destruct (mark_processed_effect e w) as (Hf & _).
  apply (H w _ _ Hw (mark_processed_ends e w) Hf).
  pose proof (mark_processed_outcome e w) as Ho.
  destruct (fst (mark_processed e w)) as [[[|] m]|x|]; tauto.
Qed.

Lemma hoare_increment_stats r u d (P : World -> Prop) Q :
  (forall w o w', P w -> o <> Pending -> same_process w w' ->
     match o with
     | Ret _ => update_stats r u d (db w) = inr (db w')
     | _ => db w' = db w
     end -> Q o w') ->
  hoare P (increment_stats r u d) Q.
Proof.
  intros H w Hw. destruct (increment_stats_effect r u d w) as (Hf & Hd).
  apply (H w _ _ Hw (increment_stats_ends r u d w) Hf). exact Hd.
Qed.

(** ** A turn of the consumer, against any oracle *)

Lemma at_turn_frame rest k p (S S' : DB -> Prop) w w' :
  at_turn rest k p S w -> same_process w w' -> S' (db w') ->
  at_turn rest k p S' w'.
Proof.
  intros (Hq & Hu & Hp & _) (Hp' & Hq' & Hu') HS.
  repeat split; congruence.
Qed.

Lemma at_turn_logged rest k p S l msg w :
  at_turn rest k p S w -> at_turn rest k p S (logged l msg w).
Proof. intros H. exact H. Qed.

Lemma process_turn e rest n p d0 :
  hoare (at_turn rest (S n) p (eq d0)) (process e)
        (fun o w => match o with
                    | Ret _ => at_turn rest n p (turn_result d0 e) w
                    | Raise _ => at_turn rest (S n) p (turn_result d0 e) w
                    | Pending => False
                    end).
Proof.
  unfold process.
  apply (hoare_bind _ _ _ (fun _ => at_turn rest (S n) p (eq d0)));
    [apply hoare_logger; intros w H; exact H|intros _].
  apply (hoare_bind _ _ _ (fun _ => at_turn rest (S n) p (eq d0))).
  { apply hoare_is_processed. intros w o w' H Ho Hf Hd.
    assert (H' : at_turn rest (S n) p (eq d0) w').
    { apply (at_turn_frame _ _ _ _ _ _ _ H Hf).
      destruct H as (_ & _ & _ & ->). symmetry. exact Hd. }
    destruct o; [exact H'| |congruence].
    destruct H' as (Hq & Hu & Hp & HS). repeat split; auto.
    left. symmetry. exact HS. }
  intros already.
  apply (hoare_bind _ _ _ (fun _ => at_turn rest (S n) p (turn_result d0 e))).
  2:{ intros _ w (Hq & Hu & Hp & HS). unfold task_done. rewrite Hu. simpl.
      repeat split; assumption. }
  assert (Hcredit : forall r u d (S0 : DB -> Prop) msg l,
             (forall d1, S0 d1 -> turn_result d0 e d1) ->
             (forall d1 d2, S0 d1 -> update_stats r u d d1 = inr d2 ->
                            turn_result d0 e d2) ->
             hoare (at_turn rest (S n) p S0)
                   (increment_stats r u d ;; logger l msg)
                   (fun o w => match o with
                               | Ret _ => at_turn rest (S n) p (turn_result d0 e) w
                               | Raise _ => at_turn rest (S n) p (turn_result d0 e) w
                               | Pending => False
                               end)).
  { intros r u d S0 msg l Hsame Hupd.
    apply (hoare_bind _ _ _ (fun _ => at_turn rest (S n) p (turn_result d0 e))).
    - apply hoare_increment_stats. intros w o w' H Ho Hf Hd.
      assert (HS' : turn_result d0 e (db w')).
      { destruct H as (_ & _ & _ & HS).
        destruct o; [exact (Hupd _ _ HS Hd)|rewrite Hd; exact (Hsame _ HS)
                    |congruence]. }
      destruct o; [| |congruence]; exact (at_turn_frame _ _ _ _ _ _ _ H Hf HS').
    - intros _. apply hoare_logger. intros w H. exact H. }
  destruct already.
  - apply Hcredit.
    + intros d1 <-. left. reflexivity.
    + intros d1 d2 <- H. right. left. exact H.
  - apply (hoare_bind _ _ _
             (fun r : bool * option string => at_turn rest (S n) p
                         (fun d => if fst r
                                   then d = insert_processed e
                                              (insert_dedup (topic e) (event_id e) d0)
                                   else d = d0))).
    + apply hoare_mark_processed. intros w o w' H Ho Hf Hd.
      assert (Hd0 : db w = d0) by (destruct H as (_ & _ & _ & <-); reflexivity).
      rewrite Hd0 in Hd.
      destruct o as [[[|] m]|x|].
      * apply (at_turn_frame _ _ _ _ _ _ _ H Hf). exact Hd.
      * apply (at_turn_frame _ _ _ _ _ _ _ H Hf). exact Hd.
      * apply (at_turn_frame _ _ _ _ _ _ _ H Hf). left. exact Hd.
      * congruence.
    + intros [[|] m]; simpl; apply Hcredit.
      * intros d1 ->. right. right. left. reflexivity.
      * intros d1 d2 -> H. right. right. right. exact H.
      * intros d1 ->. left. reflexivity.
      * intros d1 d2 -> H. right. left. exact H.
Qed.

Lemma consumer_turn_effect w e rest n :
  queue w = e :: rest -> unfinished w = S n ->
  exists w', consumer_worker w = Some (Ret tt, w')
             /\ at_turn rest n (pool w) (turn_result (db w) e) w'.
Proof.
  intros Hq Hu. unfold consumer_worker. rewrite Hq.
  pose (w0 := set_queue rest (unfinished w) w).
  assert (H0 : at_turn rest (S n) (pool w) (eq (db w)) w0)
    by (repeat split; simpl; auto).
  assert (Ht : hoare (at_turn rest (S n) (pool w) (eq (db w)))
                 (try_except (process e)
                    (fun x => logger ERROR ("Error in consumer worker: " ++ str x) ;;
                              task_done))
                 (fun o w' => o = Ret tt
                              /\ at_turn rest n (pool w) (turn_result (db w) e) w')).
  { apply (hoare_try_except _ _ _
             (fun _ => at_turn rest (S n) (pool w) (turn_result (db w) e))).
    - apply (hoare_conseq _ _ _ _ _ (fun w1 H => H)
               (process_turn e rest n (pool w) (db w))).
      intros [[]|x|] w1 H; [split; [reflexivity|exact H]|exact H|destruct H].
    - intros x.
      apply (hoare_bind _ _ _
               (fun _ => at_turn rest (S n) (pool w) (turn_result (db w) e)));
        [apply hoare_logger; intros w1 H; exact H|intros _].
      intros w1 (Hq1 & Hu1 & Hp1 & HS). unfold task_done. rewrite Hu1. simpl.
      split; [reflexivity|repeat split; assumption]. }
  specialize (Ht w0 H0). fold w0.
  destruct (try_except _ _ w0) as [o w'] eqn:E. simpl in Ht.
  destruct Ht as (-> & Ht). exists w'. split; [reflexivity|exact Ht].
Qed.

(** X6. A turn of the consumer always completes: whatever the oracle
    holds, with the pool open or closed, the turn takes one event off the
    queue, marks one item done and returns, so the loop goes on. *)
Theorem consumer_survives w e rest n :
  queue w = e :: rest -> unfinished w = S n ->
  option_map fst (consumer_worker w) = Some (Ret tt)
  /\ queue (run OpConsume w) = rest
  /\ unfinished (run OpConsume w) = n
  /\ pool (run OpConsume w) = pool w.
Proof.
  intros Hq Hu.
  destruct (consumer_turn_effect w e rest n Hq Hu)
    as (w' & Hw & Hq' & Hu' & Hp' & _).
  unfold run. rewrite Hw. simpl. auto.
Qed.

Lemma consumer_survives_witness :
  option_map fst
    (consumer_worker (set_pool false (started [Some reset] [e1; e1])))
  = Some (Ret tt)
  /\ queue (run OpConsume (set_pool false (started [Some reset] [e1; e1])))
     = [e1]
  /\ unfinished (run OpConsume (set_pool false (started [Some reset] [e1; e1])))
     = 1%nat.
Proof.
  destruct (consumer_survives (set_pool false (started [Some reset] [e1; e1]))
              e1 [e1] 1%nat eq_refl eq_refl) as (H1 & H2 & H3 & _).
  split; [exact H1|]. split; [exact H2|exact H3].
Defined.

(** X7. What a turn of the consumer does to the counters, whatever the
    oracle: [received] stays; at most one of [unique_processed] and
    [duplicate_dropped] grows, by one; and [unique_processed] grows only
    with the event stored in [processed_events]. *)
Theorem consumer_credits w e rest n s :
  queue w = e :: rest -> unfinished w = S n ->
  event_stats (db w) = Some s ->
  exists s',
    event_stats (db (run OpConsume w)) = Some s'
    /\ received s' = received s
    /\ ((unique_processed s' = unique_processed s
         /\ duplicate_dropped s' = duplicate_dropped s)
        \/ (unique_processed s' = unique_processed s
            /\ duplicate_dropped s' = duplicate_dropped s + 1)
        \/ (unique_processed s' = unique_processed s + 1
            /\ duplicate_dropped s' = duplicate_dropped s
            /\ in_processed (key e) (db (run OpConsume w)) = true)).
Proof.
  intros Hq Hu Hs.
  destruct (consumer_turn_effect w e rest n Hq Hu)
    as (w' & Hw & _ & _ & _ & Hr).
  unfold run. rewrite Hw. clear Hw.
  set (d1 := insert_processed e (insert_dedup (topic e) (event_id e) (db w))) in *.
  assert (Hs1 : event_stats d1 = Some s).
  { unfold d1. rewrite (proj2 (insert_processed_frame _ _)).
    rewrite (proj2 (insert_dedup_frame _ _ _)). exact Hs. }
  destruct Hr as [-> | [H | [-> | H]]].
  - exists s. split; [exact Hs|]. split; [reflexivity|]. left. auto.
  - exists (add_stats s (0, 0, 1)).
    split; [exact (update_stats_row _ _ _ _ _ _ H Hs)|].
    simpl. split; [lia|]. right. left. split; lia.
  - exists s. split; [exact Hs1|]. split; [reflexivity|]. left. auto.
  - exists (add_stats s (0, 1, 0)).
    split; [exact (update_stats_row _ _ _ _ _ _ H Hs1)|].
    simpl. split; [lia|]. right. right. split; [lia|]. split; [lia|].
    destruct (update_stats_tables _ _ _ _ _ H) as (Hp & _).
    unfold in_processed. rewrite Hp. fold (in_processed (key e) d1).
    apply in_processed_In. apply insert_processed_In. right. reflexivity.
Qed.

Lemma consumer_credits_witness :
  exists s',
    event_stats (db (run OpConsume (started [None; None; None; Some reset] [e1])))
    = Some s'
    /\ received s' = 0.
Proof.
  destruct (consumer_credits (started [None; None; None; Some reset] [e1])
              e1 [] 0%nat (mkStats 0 0 0) eq_refl eq_refl eq_refl)
    as (s' & H1 & H2 & _).
  exists s'. split; [exact H1|exact H2].
Defined.

(** ** The consumer when nothing fails *)

Lemma is_processed_calm t i w :
  pool w = true -> faults w = [] ->
  fst (is_processed t i w) = Ret (in_dedup (t, i) (db w))
  /\ db (snd (is_processed t i w)) = db w
  /\ faults (snd (is_processed t i w)) = []
  /\ same_process w (snd (is_processed t i w)).
Proof.
  destruct w as [d p fs tf tr q n lg]; simpl. intros -> ->.
  unfold_py. simpl. repeat split; reflexivity.
Qed.

Lemma mark_processed_calm e w :
  pool w = true -> faults w = [] ->
  fst (mark_processed e w) = Ret (true, None)
  /\ db (snd (mark_processed e w))
     = insert_processed e (insert_dedup (topic e) (event_id e) (db w))
  /\ faults (snd (mark_processed e w)) = []
  /\ same_process w (snd (mark_processed e w)).
Proof.
  destruct w as [d p fs tf tr q n lg]; simpl. intros -> ->.
  unfold_py. simpl. repeat split; reflexivity.
Qed.

Lemma increment_stats_calm r u d w d' :
  pool w = true -> faults w = [] ->
  update_stats r u d (db w) = inr d' ->
  fst (increment_stats r u d w) = Ret tt
  /\ db (snd (increment_stats r u d w)) = d'
  /\ faults (snd (increment_stats r u d w)) = []
  /\ same_process w (snd (increment_stats r u d w)).
Proof.
  intros Hp Hf Hu.
  destruct (increment_stats_returns r u d w d' Hp Hf Hu)
    as (H1 & H2 & H3 & H4 & _). auto.
Qed.

(** A turn with nothing failing: the lookup decides between a duplicate
    credit and the two inserts with a unique credit. *)
Lemma calm_turn w e rest n d' :
  pool w = true -> faults w = [] ->
  queue w = e :: rest -> unfinished w = S n ->
  update_stats 0 (if in_dedup (key e) (db w) then 0 else 1)
                 (if in_dedup (key e) (db w) then 1 else 0)
    (if in_dedup (key e) (db w) then db w
     else insert_processed e (insert_dedup (topic e) (event_id e) (db w)))
  = inr d' ->
  exists w', consumer_worker w = Some (Ret tt, w')
             /\ db w' = d' /\ queue w' = rest /\ unfinished w' = n
             /\ pool w' = true /\ faults w' = [].
Proof.
  intros Hp Hf Hq Hn Hup.
  pose (w0 := logged DEBUG ("Consumer processing event: " ++ fingerprint e)
                (set_queue rest (unfinished w) w)).
  destruct (is_processed_calm (topic e) (event_id e) w0 Hp Hf)
    as (A1 & A2 & A3 & A4 & A5 & A6).
  set (w1 := snd (is_processed (topic e) (event_id e) w0)) in *.
  assert (Hp1 : pool w1 = true) by (rewrite A4; exact Hp).
  change (in_dedup (topic e, event_id e) (db w0))
    with (in_dedup (key e) (db w)) in A1.
  change (db w0) with (db w) in A2.
  unfold consumer_worker. rewrite Hq.
  unfold try_except, process. fold w0.
  rewrite bind_logger. fold w0.
  rewrite (bind_returns _ _ w0 _ A1). fold w1.
  destruct (in_dedup (key e) (db w)) eqn:Hd; cbv beta iota.
  - rewrite <- A2 in Hup.
    destruct (increment_stats_calm 0 0 1 w1 d' Hp1 A3 Hup)
      as (C1 & C2 & C3 & C4 & C5 & C6).
    set (w2 := snd (increment_stats 0 0 1 w1)) in *.
    rewrite bind_assoc. rewrite (bind_returns _ _ w1 _ C1). fold w2.
    rewrite bind_logger. rewrite (task_done_returns _ n).
    + eexists. split; [reflexivity|]. simpl.
      repeat split; try assumption; try congruence.
      rewrite C5, A5. reflexivity.
    + simpl. rewrite C6, A6. simpl. exact Hn.
  - destruct (mark_processed_calm e w1 Hp1 A3) as (B1 & B2 & B3 & B4 & B5 & B6).
    set (w2 := snd (mark_processed e w1)) in *.
    assert (Hp2 : pool w2 = true) by (rewrite B4; exact Hp1).
    rewrite <- A2, <- B2 in Hup.
    destruct (increment_stats_calm 0 1 0 w2 d' Hp2 B3 Hup)
      as (C1 & C2 & C3 & C4 & C5 & C6).
    set (w3 := snd (increment_stats 0 1 0 w2)) in *.
    rewrite bind_assoc. rewrite (bind_returns _ _ w1 _ B1). fold w2.
    cbv beta iota. rewrite bind_assoc.
    rewrite (bind_returns _ _ w2 _ C1). fold w3.
    rewrite bind_logger. rewrite (task_done_returns _ n).
    + eexists. split; [reflexivity|]. simpl.
      repeat split; try assumption; try congruence.
      rewrite C5, B5, A5. reflexivity.
    + simpl. rewrite C6, B6, A6. simpl. exact Hn.
Qed.

Lemma int4_0 : int4 0.
Proof. unfold int4. lia. Qed.

Lemma int4_1 : int4 1.
Proof. unfold int4. lia. Qed.

Lemma turn_new w e rest n s :
  pool w = true -> faults w = [] ->
  queue w = e :: rest -> unfinished w = S n ->
  in_dedup (key e) (db w) = false -> in_processed (key e) (db w) = false ->
  event_stats (db w) = Some s ->
  int4 (received s) -> int4 (unique_processed s + 1) ->
  int4 (duplicate_dropped s) ->
  exists w', consumer_worker w = Some (Ret tt, w')
    /\ db w' = mkDB (processed_events (db w) ++ [e])
                    (dedup_store (db w) ++ [key e])
                    (Some (add_stats s (0, 1, 0)))
    /\ queue w' = rest /\ unfinished w' = n
    /\ pool w' = true /\ faults w' = [].
Proof.
  intros Hp Hf Hq Hn Hd Hpe Hs Hr Hu Hdu.
  apply (calm_turn w e rest n); try assumption. rewrite Hd.
  unfold insert_dedup. change (topic e, event_id e) with (key e). rewrite Hd.
  unfold insert_processed at 1.
  unfold in_processed at 1. simpl processed_events.
  fold (in_processed (key e) (db w)). rewrite Hpe.
  rewrite (update_stats_ok 0 1 0 _ s); simpl; auto using int4_0, int4_1.
  - rewrite Z.add_0_r. exact Hr.
  - rewrite Z.add_0_r. exact Hdu.
Qed.

Lemma turn_seen w e rest n s :
  pool w = true -> faults w = [] ->
  queue w = e :: rest -> unfinished w = S n ->
  in_dedup (key e) (db w) = true ->
  event_stats (db w) = Some s ->
  int4 (received s) -> int4 (unique_processed s) ->
  int4 (duplicate_dropped s + 1) ->
  exists w', consumer_worker w = Some (Ret tt, w')
    /\ db w' = mkDB (processed_events (db w)) (dedup_store (db w))
                    (Some (add_stats s (0, 0, 1)))
    /\ queue w' = rest /\ unfinished w' = n
    /\ pool w' = true /\ faults w' = [].
Proof.
  intros Hp Hf Hq Hn Hd Hs Hr Hu Hdu.
  apply (calm_turn w e rest n); try assumption. rewrite Hd.
  rewrite (update_stats_ok 0 0 1 _ s); simpl; auto using int4_0, int4_1.
  - rewrite Z.add_0_r. exact Hr.
  - rewrite Z.add_0_r. exact Hu.
Qed.

(** X8. First delivery. With nothing failing, the turn of the consumer
    on an event whose fingerprint is in neither table appends its row to
    [processed_events] and its fingerprint to [dedup_store], adds one to
    [unique_processed] and to nothing else, and marks the queue slot
    done. *)
Theorem first_delivery w e rest n s :
  pool w = true -> faults w = [] ->
  queue w = e :: rest -> unfinished w = S n ->
  in_dedup (key e) (db w) = false -> in_processed (key e) (db w) = false ->
  event_stats (db w) = Some s ->
  int4 (received s) -> int4 (unique_processed s + 1) ->
  int4 (duplicate_dropped s) ->
  processed_events (db (run OpConsume w)) = (processed_events (db w) ++ [e])%list
  /\ dedup_store (db (run OpConsume w)) = (dedup_store (db w) ++ [key e])%list
  /\ event_stats (db (run OpConsume w)) = Some (add_stats s (0, 1, 0))
  /\ queue (run OpConsume w) = rest
  /\ unfinished (run OpConsume w) = n.
Proof.
  intros Hp Hf Hq Hn Hd Hpe Hs Hr Hu Hdu.
  destruct (turn_new w e rest n s Hp Hf Hq Hn Hd Hpe Hs Hr Hu Hdu)
    as (w' & Hw & Hdb & Hq' & Hn' & _).
  unfold run. rewrite Hw, Hdb. simpl. auto.
Qed.

Lemma first_delivery_witness :
  processed_events (db (run OpConsume (started [] [e1]))) = ([] ++ [e1])%list
  /\ event_stats (db (run OpConsume (started [] [e1])))
     = Some (add_stats (mkStats 0 0 0) (0, 1, 0)).
Proof.
  destruct (first_delivery (started [] [e1]) e1 [] 0%nat (mkStats 0 0 0)
              eq_refl eq_refl eq_refl eq_refl eq_refl eq_refl eq_refl
              int4_0 int4_1 int4_0) as (H1 & _ & H3 & _).
  split; [exact H1|exact H3].
Defined.

(** X9. Redelivery. With nothing failing, the turn of the consumer on an
    event whose fingerprint is in [dedup_store] changes no table, adds
    one to [duplicate_dropped] and to nothing else, and marks the queue
    slot done. *)
Theorem redelivery w e rest n s :
  pool w = true -> faults w = [] ->
  queue w = e :: rest -> unfinished w = S n ->
  in_dedup (key e) (db w) = true ->
  event_stats (db w) = Some s ->
  int4 (received s) -> int4 (unique_processed s) ->
  int4 (duplicate_dropped s + 1) ->
  same_tables (db w) (db (run OpConsume w))
  /\ event_stats (db (run OpConsume w)) = Some (add_stats s (0, 0, 1))
  /\ queue (run OpConsume w) = rest
  /\ unfinished (run OpConsume w) = n.
Proof.
  intros Hp Hf Hq Hn Hd Hs Hr Hu Hdu.
  destruct (turn_seen w e rest n s Hp Hf Hq Hn Hd Hs Hr Hu Hdu)
    as (w' & Hw & Hdb & Hq' & Hn' & _).
  unfold run. rewrite Hw, Hdb. simpl. repeat split; auto.
Qed.

Lemma redelivery_witness :
  same_tables (db (set_queue [e1] 1 marked_once))
              (db (run OpConsume (set_queue [e1] 1 marked_once)))
  /\ event_stats (db (run OpConsume (set_queue [e1] 1 marked_once)))
     = Some (add_stats (mkStats 0 0 0) (0, 0, 1)).
Proof.
  destruct (redelivery (set_queue [e1] 1 marked_once) e1 [] 0%nat
              (mkStats 0 0 0) eq_refl eq_refl eq_refl eq_refl eq_refl eq_refl
              int4_0 int4_0 int4_1) as (H1 & H2 & _).
  split; [exact H1|exact H2].
Defined.

Lemma redeliveries e : forall m w s,
  pool w = true -> faults w = [] ->
  queue w = repeat e m -> unfinished w = m ->
  in_dedup (key e) (db w) = true ->
  event_stats (db w) = Some s ->
  int4 (received s) -> int4 (unique_processed s) ->
  int4 (duplicate_dropped s) ->
  int4 (duplicate_dropped s + Z.of_nat m) ->
  same_tables (db w) (db (Nat.iter m (run OpConsume) w))
  /\ event_stats (db (Nat.iter m (run OpConsume) w))
     = Some (add_stats s (0, 0, Z.of_nat m))
  /\ queue (Nat.iter m (run OpConsume) w) = []
  /\ unfinished (Nat.iter m (run OpConsume) w) = O.
Proof.
  induction m as [|m IH]; intros w s Hp Hf Hq Hn Hd Hs Hr Hu Hd0 Hdm.
  - simpl. rewrite Hs. unfold add_stats. rewrite !Z.add_0_r.
    destruct s; repeat split; auto.
  - rewrite Nat.iter_succ_r. simpl in Hq.
    assert (Hd1 : int4 (duplicate_dropped s + 1))
      by (unfold int4 in *; lia).
    destruct (turn_seen w e (repeat e m) m s Hp Hf Hq Hn Hd Hs Hr Hu Hd1)
      as (w' & Hw & Hdb & Hq' & Hn' & Hp' & Hf').
    assert (Hrun : run OpConsume w = w')
      by (unfold run; rewrite Hw; reflexivity).
    rewrite Hrun.
    assert (Hd' : in_dedup (key e) (db w') = true)
      by (rewrite Hdb; exact Hd).
    assert (Hs' : event_stats (db w') = Some (add_stats s (0, 0, 1)))
      by (rewrite Hdb; reflexivity).
    destruct (IH w' (add_stats s (0, 0, 1)) Hp' Hf' Hq' Hn' Hd' Hs')
      as ((Ht1 & Ht2) & Hst & Hqf & Hnf).
    + simpl. rewrite Z.add_0_r. exact Hr.
    + simpl. rewrite Z.add_0_r. exact Hu.
    + exact Hd1.
    + unfold int4 in *. simpl. lia.
    + rewrite Hdb in Ht1, Ht2. simpl in Ht1, Ht2.
      split; [split; assumption|]. split; [|split; assumption].
      rewrite Hst. unfold add_stats. simpl. f_equal. f_equal; lia.
Qed.

(** X10. Exactly once. With nothing failing, [m + 1] deliveries of the
    same event, consumed one after the other from a state where its
    fingerprint is new, store one row and one fingerprint, add one to
    [unique_processed] and [m] to [duplicate_dropped], and leave the
    queue empty with nothing unfinished. *)
Theorem exactly_once e m w s :
  pool w = true -> faults w = [] ->
  queue w = repeat e (S m) -> unfinished w = S m ->
  in_dedup (key e) (db w) = false -> in_processed (key e) (db w) = false ->
  event_stats (db w) = Some s ->
  int4 (received s) -> int4 (unique_processed s + 1) ->
  int4 (duplicate_dropped s) ->
  int4 (duplicate_dropped s + Z.of_nat m) ->
  processed_events (db (Nat.iter (S m) (run OpConsume) w))
  = (processed_events (db w) ++ [e])%list
  /\ dedup_store (db (Nat.iter (S m) (run OpConsume) w))
     = (dedup_store (db w) ++ [key e])%list
  /\ event_stats (db (Nat.iter (S m) (run OpConsume) w))
     = Some (add_stats s (0, 1, Z.of_nat m))
  /\ queue (Nat.iter (S m) (run OpConsume) w) = []
  /\ unfinished (Nat.iter (S m) (run OpConsume) w) = O.
Proof.
  intros Hp Hf Hq Hn Hd Hpe Hs Hr Hu Hd0 Hdm.
  rewrite Nat.iter_succ_r. simpl in Hq.
  destruct (turn_new w e (repeat e m) m s Hp Hf Hq Hn Hd Hpe Hs Hr Hu Hd0)
    as (w' & Hw & Hdb & Hq' & Hn' & Hp' & Hf').
  assert (Hrun : run OpConsume w = w')
    by (unfold run; rewrite Hw; reflexivity).
  rewrite Hrun.
  assert (Hd' : in_dedup (key e) (db w') = true).
  { rewrite Hdb. apply in_dedup_In. simpl. apply in_or_app. right.
    left. reflexivity. }
  assert (Hs' : event_stats (db w') = Some (add_stats s (0, 1, 0)))
    by (rewrite Hdb; reflexivity).
  destruct (redeliveries e m w' (add_stats s (0, 1, 0))
              Hp' Hf' Hq' Hn' Hd' Hs')
    as ((Ht1 & Ht2) & Hst & Hqf & Hnf).
  - simpl. rewrite Z.add_0_r. exact Hr.
  - exact Hu.
  - simpl. rewrite Z.add_0_r. exact Hd0.
  - simpl. rewrite Z.add_0_r. exact Hdm.
  - rewrite Hdb in Ht1, Ht2. simpl in Ht1, Ht2.
    split; [assumption|]. split; [assumption|].
    split; [|split; assumption].
    rewrite Hst. unfold add_stats. simpl. f_equal. f_equal; lia.
Qed.

Lemma exactly_once_witness :
  processed_events (db (Nat.iter 3 (run OpConsume) (started [] [e1; e1; e1])))
  = ([] ++ [e1])%list
  /\ event_stats (db (Nat.iter 3 (run OpConsume) (started [] [e1; e1; e1])))
     = Some (add_stats (mkStats 0 0 0) (0, 1, 2)).
Proof.
  assert (H2 : int4 (0 + Z.of_nat 2)) by (unfold int4; simpl; lia).
  destruct (exactly_once e1 2 (started [] [e1; e1; e1]) (mkStats 0 0 0)
              eq_refl eq_refl eq_refl eq_refl eq_refl eq_refl eq_refl
              int4_0 int4_1 int4_0 H2) as (H1 & _ & H3 & _).
  split; [exact H1|exact H3].
Defined.

(** ** The admission handler, against any oracle *)

Lemma increment_stats_needs_pool r u d w :
  fst (increment_stats r u d w) = Ret tt -> pool w = true.
Proof.
  unfold increment_stats, get_connection.
  destruct (pool w); [reflexivity|discriminate].
Qed.

(** One turn of the loop on a well-formed event: the event is accepted
    and queued; or it is rejected, with nothing changed; or it is counted
    as received and the handler waits on the full queue. *)
Lemma publish_one_effect idx e a r errs w :
  well_formed e ->
  exists w', pool w' = pool w
    /\ ((publish_one idx e (a, r, errs) w = (Ret (S a, r, errs), w')
         /\ queue w' = (queue w ++ [e])%list
         /\ unfinished w' = S (unfinished w)
         /\ update_stats 1 0 0 (db w) = inr (db w')
         /\ pool w = true /\ full w = false)
        \/ (exists x,
              publish_one idx e (a, r, errs) w
              = (Ret (a, S r, (errs ++ [mkDetail idx None (str x)])%list), w')
              /\ queue w' = queue w
              /\ unfinished w' = unfinished w
              /\ db w' = db w)
        \/ (publish_one idx e (a, r, errs) w = (Pending, w')
            /\ queue w' = queue w
            /\ unfinished w' = unfinished w
            /\ update_stats 1 0 0 (db w) = inr (db w')
            /\ pool w = true /\ full w = true)).
Proof.
  intros He. unfold publish_one, try_except. rewrite (Event_init_dict e He).
  pose proof (increment_stats_raises 1 0 0 w) as Hraise.
  pose proof (increment_stats_needs_pool 1 0 0 w) as Hpool.
  pose proof (increment_stats_ends 1 0 0 w) as Hends.
  destruct (increment_stats_effect 1 0 0 w) as ((Hp & Hq & Hu) & Hd).
  unfold bind, queue_put, logger, ret.
  destruct (increment_stats 1 0 0 w) as [[[]|x|] w1]; simpl in *.
  - assert (Hfull : full w1 = full w) by (unfold full; rewrite Hq; reflexivity).
    destruct (full w1) eqn:F; simpl.
    + exists w1. split; [exact Hp|]. right. right. auto 7.
    + eexists. split; [|left; split; [reflexivity|]]; simpl.
      * exact Hp.
      * rewrite Hq, Hu. auto 6.
  - specialize (Hraise x eq_refl).
    destruct x; try destruct Hraise; simpl;
      (eexists; split;
       [|right; left;
         first [ exists (RuntimeError msg); split; [reflexivity|]
               | exists (UniqueViolationError msg); split; [reflexivity|]
               | exists (SerializationError msg); split; [reflexivity|]
               | exists (PostgresError msg); split; [reflexivity|]
               | exists (DataError msg); split; [reflexivity|]
               | exists (ConnectionDoesNotExistError msg); split; [reflexivity|]
               | exists (InterfaceError msg); split; [reflexivity|] ]];
       simpl; auto).
  - exfalso. apply Hends. reflexivity.
Qed.

Lemma subseq_refl {A} (l : list A) : subseq l l.
Proof. induction l; constructor; assumption. Qed.

Lemma subseq_length {A} (l' l : list A) :
  subseq l' l -> (List.length l' <= List.length l)%nat.
Proof. induction 1; simpl; lia. Qed.

Lemma subseq_nil_l {A} (l : list A) : subseq [] l.
Proof. induction l; constructor; assumption. Qed.

Lemma update_stats_none r u d x :
  int4 r -> int4 u -> int4 d ->
  event_stats x = None -> update_stats r u d x = inr x.
Proof.
  intros H1 H2 H3 Hs. apply in_int4_iff in H1, H2, H3.
  unfold update_stats. rewrite H1, H2, H3, Hs. reflexivity.
Qed.

Lemma update_stats_none_inv r u d x x' :
  event_stats x = None -> update_stats r u d x = inr x' -> x' = x.
Proof.
  intros Hs H. destruct (update_stats_deltas _ _ _ _ _ H) as (H1 & H2 & H3).
  rewrite (update_stats_none r u d x H1 H2 H3 Hs) in H. congruence.
Qed.

(** The counters after [k] more events were counted as received. *)
Lemma received_more s k :
  add_stats (add_stats s (1, 0, 0)) (Z.of_nat k, 0, 0)
  = add_stats s (Z.of_nat (S k), 0, 0).
Proof.
  rewrite Nat2Z.inj_succ. generalize (Z.of_nat k); intros z.
  unfold add_stats. destruct s; simpl. f_equal; lia.
Qed.

Lemma received_counted d d' k :
  update_stats 1 0 0 d = inr d' ->
  option_map (fun s => add_stats s (Z.of_nat k, 0, 0)) (event_stats d')
  = option_map (fun s => add_stats s (Z.of_nat (S k), 0, 0)) (event_stats d).
Proof.
  intros H. destruct (event_stats d) as [s|] eqn:Es.
  - rewrite (update_stats_row _ _ _ _ _ _ H Es). simpl.
    f_equal. apply received_more.
  - rewrite (update_stats_none_inv _ _ _ _ _ Es H), Es. reflexivity.
Qed.

(** The loop on well-formed events. It ends with the counters, or with
    the handler waiting on the full queue; [l'] is what it has put on
    the queue and [k] what it has counted as received. *)
Lemma publish_loop_effect evs : forall idx a r errs w,
  Forall well_formed evs ->
  exists o w' l' k,
    publish_loop idx evs (a, r, errs) w = (o, w')
    /\ subseq l' evs
    /\ queue w' = (queue w ++ l')%list
    /\ unfinished w' = (unfinished w + List.length l')%nat
    /\ pool w' = pool w
    /\ same_tables (db w) (db w')
    /\ event_stats (db w')
       = option_map (fun s => add_stats s (Z.of_nat k, 0, 0))
                    (event_stats (db w))
    /\ ((exists r' errs',
           o = Ret ((a + List.length l')%nat, r', errs')
           /\ k = List.length l')
        \/ (o = Pending /\ k = S (List.length l') /\ full w' = true)).
Proof.
  induction evs as [|e rest IH]; intros idx a r errs w Hwf.
  - exists (Ret (a, r, errs)), w, [], O. simpl.
    rewrite app_nil_r, !Nat.add_0_r.
    repeat split; try constructor.
    + destruct (event_stats (db w)) as [[x y z]|]; simpl; [|reflexivity].
      unfold add_stats. simpl. rewrite !Z.add_0_r. reflexivity.
    + eauto.
  - inversion Hwf as [|? ? He Hrest]; subst.
    change (publish_loop idx (e :: rest) (a, r, errs) w)
      with (bind (publish_one idx e (a, r, errs))
                 (fun acc' => publish_loop (S idx) rest acc') w).
    unfold bind.
    destruct (publish_one_effect idx e a r errs w He)
      as (w1 & Hp1 & [(-> & Hq1 & Hu1 & Hd1 & _)
                     | [(x & -> & Hq1 & Hu1 & Hd1)
                       | (-> & Hq1 & Hu1 & Hd1 & _ & Hfull)]]).
    + destruct (IH (S idx) (S a) r errs w1 Hrest)
        as (o & w' & l' & k & -> & Hs & Hq & Hu & Hp & (Ht1 & Ht2) & Hst & Ho).
      exists o, w', (e :: l'), (S k).
      split; [reflexivity|]. split; [constructor; exact Hs|].
      destruct (update_stats_tables _ _ _ _ _ Hd1) as (Hu1t & Hu2t).
      split; [rewrite Hq, Hq1, <- app_assoc; reflexivity|].
      split; [rewrite Hu, Hu1; simpl; lia|].
      split; [congruence|]. split; [split; congruence|].
      split; [rewrite Hst; apply received_counted; exact Hd1|].
      destruct Ho as [(r' & errs' & -> & ->) | (-> & -> & Hf)].
      * left. exists r', errs'. split; [|reflexivity].
        simpl. do 2 f_equal. f_equal. lia.
      * right. auto.
    + destruct (IH (S idx) a (S r) (errs ++ [mkDetail idx None (str x)])%list
                  w1 Hrest)
        as (o & w' & l' & k & -> & Hs & Hq & Hu & Hp & (Ht1 & Ht2) & Hst & Ho).
      exists o, w', l', k.
      split; [reflexivity|]. split; [constructor; exact Hs|].
      rewrite Hd1 in Ht1, Ht2, Hst.
      split; [congruence|]. split; [congruence|]. split; [congruence|].
      split; [split; congruence|]. split; [exact Hst|].
      destruct Ho as [(r' & errs' & -> & ->) | (-> & -> & Hf)]; eauto.
    + exists Pending, w1, [], 1%nat.
      split; [reflexivity|]. split; [apply subseq_nil_l|].
      rewrite app_nil_r, Nat.add_0_r.
      destruct (update_stats_tables _ _ _ _ _ Hd1) as (Hu1t & Hu2t).
      split; [exact Hq1|]. split; [exact Hu1|]. split; [exact Hp1|].
      split; [split; assumption|].
      split.
      * pose proof (received_counted _ _ O Hd1) as Hc. rewrite <- Hc.
        destruct (event_stats (db w1)) as [[x y z]|]; simpl; [|reflexivity].
        unfold add_stats. simpl. rewrite !Z.add_0_r. reflexivity.
      * right. split; [reflexivity|]. split; [reflexivity|].
        unfold full in *. rewrite Hq1. exact Hfull.
Qed.

Lemma PublishRequest_init_well_formed f body request :
  PublishRequest_init f body = inr request ->
  Forall well_formed (get_events request).
Proof.
  unfold PublishRequest_init. destruct body as [[r|l]|]; [| |discriminate].
  - destruct (Event_init (uuid4 f 0) (utcnow f 0) r) as [x|e] eqn:E;
      [discriminate|].
    intros H; inversion H; subst. unfold get_events; simpl.
    constructor; [exact (Event_init_well_formed _ _ _ _ E)|constructor].
  - destruct (validate_list f 0 l) as [x|es] eqn:E; [discriminate|].
    intros H; inversion H; subst. unfold get_events; simpl.
    exact (validate_list_well_formed f l 0%nat es E).
Qed.

(** A request: refused by the request model; answered; or left waiting
    on the full queue, with one event counted as received and not
    queued. *)
Lemma post_publish_effect f body w :
  (exists x, PublishRequest_init f body = inl x
             /\ post_publish f body w = (Raise (HTTPException 422 (str x)), w))
  \/ (exists request o w' l' k,
        PublishRequest_init f body = inr request
        /\ post_publish f body w = (o, w')
        /\ subseq l' (get_events request)
        /\ queue w' = (queue w ++ l')%list
        /\ unfinished w' = (unfinished w + List.length l')%nat
        /\ pool w' = pool w
        /\ same_tables (db w) (db w')
        /\ event_stats (db w')
           = option_map (fun s => add_stats s (Z.of_nat k, 0, 0))
                        (event_stats (db w))
        /\ ((exists resp, o = Ret resp /\ accepted resp = List.length l'
                          /\ k = List.length l')
            \/ (o = Pending /\ k = S (List.length l') /\ full w' = true))).
Proof.
  destruct (PublishRequest_init f body) as [x|request] eqn:E.
  - left. exists x. split; [reflexivity|].
    unfold post_publish. rewrite E. reflexivity.
  - right.
    pose proof (PublishRequest_init_well_formed f body request E) as Hwf.
    destruct (publish_loop_effect (get_events request) O O O [] w Hwf)
      as (o & w' & l' & k & Hloop & Hs & Hq & Hu & Hp & Ht & Hst & Ho).
    destruct Ho as [(r' & errs' & -> & ->) | (-> & -> & Hf)].
    + exists request,
        (Ret (mkResponse "accepted" (List.length (get_events request))
                         (List.length l') r' errs')), w', l', (List.length l').
      split; [reflexivity|]. split.
      { unfold post_publish. rewrite E.
        unfold publish_events, try_except, bind. rewrite Hloop. reflexivity. }
      repeat (split; [assumption|]). left. eexists. split; [reflexivity|].
      simpl. auto.
    + exists request, Pending, w', l', (S (List.length l')).
      split; [reflexivity|]. split.
      { unfold post_publish. rewrite E.
        unfold publish_events, try_except, bind. rewrite Hloop. reflexivity. }
      repeat (split; [assumption|]). right. auto.
Qed.



(** ** What the counters cover *)

Lemma slack_le k k' d : k' <= k -> slack k d -> slack k' d.
Proof.
  intros Hk (s & Hs & Hu & Hd & H). exists s. repeat split; auto. lia.
Qed.

Lemma accounted_consume w : accounted w -> accounted (run OpConsume w).
Proof.
  intros (Hu & Hs). unfold run.
  destruct (queue w) as [|e rest] eqn:Hq.
  - unfold consumer_worker. rewrite Hq. split; [rewrite Hq; exact Hu|].
    rewrite Hq. exact Hs.
  - simpl in Hu.
    destruct (consumer_turn_effect w e rest (List.length rest) Hq Hu)
      as (w' & -> & Hq' & Hu' & _ & Hr).
    split; [rewrite Hq'; exact Hu'|]. rewrite Hq'.
    destruct Hs as (s & Hs & H0u & H0d & Hle).
    simpl List.length in Hle. rewrite Nat2Z.inj_succ in Hle.
    set (d1 := insert_processed e (insert_dedup (topic e) (event_id e) (db w))) in *.
    assert (Hs1 : event_stats d1 = Some s).
    { unfold d1. rewrite (proj2 (insert_processed_frame _ _)).
      rewrite (proj2 (insert_dedup_frame _ _ _)). exact Hs. }
    destruct Hr as [-> | [H | [-> | H]]].
    + exists s. repeat split; auto. lia.
    + exists (add_stats s (0, 0, 1)).
      split; [exact (update_stats_row _ _ _ _ _ _ H Hs)|]. simpl.
      repeat split; lia.
    + exists s. repeat split; auto. lia.
    + exists (add_stats s (0, 1, 0)).
      split; [exact (update_stats_row _ _ _ _ _ _ H Hs1)|]. simpl.
      repeat split; lia.
Qed.

Lemma accounted_publish f body w :
  accounted w -> accounted (run (OpPublish f body) w).
Proof.
  intros (Hu & Hs). unfold run.
  destruct (post_publish_effect f body w)
    as [(x & _ & ->)
       | (request & o & w' & l' & k & _ & -> & _ & Hq & Hu' & _ & _
          & Hst & Ho)]; simpl.
  - split; assumption.
  - split; [rewrite Hu', Hq, length_app, Hu; reflexivity|].
    destruct Hs as (s & Hs & H0u & H0d & Hle). rewrite Hs in Hst. simpl in Hst.
    exists (add_stats s (Z.of_nat k, 0, 0)).
    split; [exact Hst|]. simpl. rewrite Hq, length_app, Nat2Z.inj_add.
    assert (Hk : Z.of_nat (List.length l') <= Z.of_nat k)
      by (destruct Ho as [(resp & _ & _ & ->) | (_ & -> & _)]; lia).
    repeat split; lia.
Qed.

(** X12. In every state of a service that takes requests and lets the
    consumer take its turns, whatever fails: the row of
    [event_stats] exists, the count of unfinished items is the length of
    the queue, and
    [unique_processed + duplicate_dropped + len(queue) <= received]. *)
Theorem accounted_invariant w : serving w -> accounted w.
Proof.
  induction 1 as [fs|w fs _ IH|w f body _ IH|w _ IH].
  - split; [reflexivity|]. exists (mkStats 0 0 0). simpl.
    repeat split; lia.
  - exact IH.
  - apply accounted_publish. exact IH.
  - apply accounted_consume. exact IH.
Qed.

Lemma accounted_invariant_witness :
  accounted (run OpConsume
               (set_faults [None; Some reset]
                  (run (OpPublish factories three_valid)
                       (started second_fails [])))).
Proof.
  apply accounted_invariant. apply serving_consume. apply serving_env.
  apply serving_publish. apply serving_start.
Defined.

(** ** The admission handler when nothing fails *)

Lemma publish_one_calm idx e a r errs w d' :
  well_formed e -> pool w = true -> faults w = [] ->
  update_stats 1 0 0 (db w) = inr d' ->
  full w = false ->
  exists w', publish_one idx e (a, r, errs) w = (Ret (S a, r, errs), w')
    /\ queue w' = (queue w ++ [e])%list
    /\ unfinished w' = S (unfinished w)
    /\ db w' = d' /\ pool w' = true /\ faults w' = [].
Proof.
  intros He Hp Hf Hup Hfull.
  destruct (increment_stats_calm 1 0 0 w d' Hp Hf Hup)
    as (C1 & C2 & C3 & C4 & C5 & C6).
  unfold publish_one, try_except. rewrite (Event_init_dict e He).
  rewrite (bind_returns _ _ w tt C1).
  unfold bind, queue_put, logger, ret.
  assert (Hfull1 : full (snd (increment_stats 1 0 0 w)) = false)
    by (unfold full in *; rewrite C5; exact Hfull).
  rewrite Hfull1. simpl.
  eexists. split; [reflexivity|]. simpl.
  rewrite C5, C6. repeat split; congruence.
Qed.

(** On a full queue the handler counts the event as received and waits
    in [put]: it answers nothing until the consumer takes an item. *)
Lemma publish_one_waits idx e a r errs w d' :
  well_formed e -> pool w = true -> faults w = [] ->
  update_stats 1 0 0 (db w) = inr d' ->
  full w = true ->
  fst (publish_one idx e (a, r, errs) w) = Pending
  /\ queue (snd (publish_one idx e (a, r, errs) w)) = queue w
  /\ db (snd (publish_one idx e (a, r, errs) w)) = d'.
Proof.
  intros He Hp Hf Hup Hfull.
  destruct (increment_stats_calm 1 0 0 w d' Hp Hf Hup)
    as (C1 & C2 & C3 & C4 & C5 & C6).
  unfold publish_one, try_except. rewrite (Event_init_dict e He).
  rewrite (bind_returns _ _ w tt C1).
  unfold bind, queue_put, logger, ret.
  assert (Hfull1 : full (snd (increment_stats 1 0 0 w)) = true)
    by (unfold full in *; rewrite C5; exact Hfull).
  rewrite Hfull1. simpl. auto.
Qed.

Lemma room_not_full w k :
  Z.of_nat (List.length (queue w)) + Z.of_nat (S k) <= maxsize ->
  full w = false.
Proof. intros H. unfold full. apply Z.leb_gt. lia. Qed.

Lemma publish_loop_calm evs : forall idx a r errs w s,
  Forall well_formed evs -> pool w = true -> faults w = [] ->
  event_stats (db w) = Some s ->
  int4 (received s) -> int4 (received s + Z.of_nat (List.length evs)) ->
  int4 (unique_processed s) -> int4 (duplicate_dropped s) ->
  Z.of_nat (List.length (queue w)) + Z.of_nat (List.length evs) <= maxsize ->
  exists w',
    publish_loop idx evs (a, r, errs) w
    = (Ret ((a + List.length evs)%nat, r, errs), w')
    /\ queue w' = (queue w ++ evs)%list
    /\ db w' = mkDB (processed_events (db w)) (dedup_store (db w))
                    (Some (add_stats s (Z.of_nat (List.length evs), 0, 0))).
Proof.
  induction evs as [|e rest IH];
    intros idx a r errs w s Hwf Hp Hf Hs Hr Hrn Hu Hd Hroom.
  - exists w. simpl. rewrite Nat.add_0_r, app_nil_r.
    split; [reflexivity|]. split; [reflexivity|].
    destruct (db w) as [pe ds st]; simpl in *. rewrite Hs.
    unfold add_stats. rewrite !Z.add_0_r. destruct s; reflexivity.
  - inversion Hwf as [|? ? He Hrest]; subst.
    simpl List.length in *.
    pose proof (room_not_full w _ Hroom) as Hfull.
    rewrite Nat2Z.inj_succ in Hrn, Hroom.
    assert (Hr1 : int4 (received s + 1)) by (unfold int4 in *; lia).
    assert (Hup : update_stats 1 0 0 (db w)
                  = inr (mkDB (processed_events (db w)) (dedup_store (db w))
                              (Some (add_stats s (1, 0, 0))))).
    { apply update_stats_ok; auto using int4_0, int4_1;
        rewrite Z.add_0_r; assumption. }
    destruct (publish_one_calm idx e a r errs w _ He Hp Hf Hup Hfull)
      as (w1 & H1 & Hq1 & _ & Hd1 & Hp1 & Hf1).
    change (publish_loop idx (e :: rest) (a, r, errs) w)
      with (bind (publish_one idx e (a, r, errs))
                 (fun acc' => publish_loop (S idx) rest acc') w).
    unfold bind. rewrite H1.
    destruct (IH (S idx) (S a) r errs w1 (add_stats s (1, 0, 0)) Hrest Hp1 Hf1)
      as (w' & H2 & Hq2 & Hd2).
    + rewrite Hd1. reflexivity.
    + exact Hr1.
    + simpl. unfold int4 in *. lia.
    + simpl. rewrite Z.add_0_r. exact Hu.
    + simpl. rewrite Z.add_0_r. exact Hd.
    + rewrite Hq1, length_app. simpl List.length. lia.
    + exists w'. rewrite H2.
      replace (a + S (List.length rest))%nat
        with (S a + List.length rest)%nat by lia.
      split; [reflexivity|].
      split; [rewrite Hq2, Hq1, <- app_assoc; reflexivity|].
      rewrite Hd2, Hd1. simpl. f_equal. f_equal. unfold add_stats. simpl.
      f_equal; lia.
Qed.

(** X13. With nothing failing and room on the queue for the whole batch
    (the queue holds at most [maxsize] = 10000 items), a batch of events
    the validator accepts is accepted whole: the response is
    [accepted = count], [rejected = 0] with no error entry, the validated
    events are on the queue after what was there, in the order of the
    request, and [received] has grown by the size of the batch. *)
Theorem publish_all_accepted f l w s :
  (forall r, In r l -> acceptable r) ->
  pool w = true -> faults w = [] ->
  event_stats (db w) = Some s ->
  int4 (received s) -> int4 (received s + Z.of_nat (List.length l)) ->
  int4 (unique_processed s) -> int4 (duplicate_dropped s) ->
  Z.of_nat (List.length (queue w)) + Z.of_nat (List.length l) <= maxsize ->
  exists es,
    validate_list f 0 l = inr es
    /\ fst (post_publish f (Some (Batch l)) w)
       = Ret (mkResponse "accepted" (List.length l) (List.length l) 0 [])
    /\ queue (snd (post_publish f (Some (Batch l)) w)) = (queue w ++ es)%list
    /\ event_stats (db (snd (post_publish f (Some (Batch l)) w)))
       = Some (add_stats s (Z.of_nat (List.length l), 0, 0)).
Proof.
  intros Hok Hp Hf Hs Hr Hrn Hu Hd Hroom.
  destruct (validate_list_total f l 0%nat Hok) as (es & Hes).
  pose proof (validate_list_well_formed f l 0%nat es Hes) as Hwf.
  destruct (validate_list_inr f l 0%nat es Hes) as (Hlen & _).
  rewrite <- Hlen in Hrn, Hroom.
  destruct (publish_loop_calm es O O O [] w s Hwf Hp Hf Hs Hr Hrn Hu Hd Hroom)
    as (w' & Hloop & Hq & Hdb).
  exists es. split; [exact Hes|].
  assert (Hrun : post_publish f (Some (Batch l)) w
                 = (Ret (mkResponse "accepted" (List.length l)
                                    (List.length l) 0 []), w')).
  { unfold post_publish. simpl. rewrite Hes.
    unfold publish_events, try_except, bind, get_events. simpl.
    rewrite Hloop. simpl. rewrite Hlen. reflexivity. }
  rewrite Hrun. simpl. split; [reflexivity|]. split; [exact Hq|].
  rewrite Hdb, Hlen. reflexivity.
Qed.

Lemma publish_all_accepted_witness :
  exists es,
    fst (post_publish factories three_valid (started [] []))
    = Ret (mkResponse "accepted" 3 3 0 [])
    /\ queue (snd (post_publish factories three_valid (started [] [])))
       = ([] ++ es)%list
    /\ List.length es = 3%nat.
Proof.
  assert (H3 : int4 (0 + Z.of_nat 3)) by (unfold int4; simpl; lia).
  destruct (publish_all_accepted factories
              [sample_raw (Some "t") "e1"; sample_raw (Some "t") "e2";
               sample_raw (Some "t") "e3"]
              (started [] []) (mkStats 0 0 0))
    as (es & Hes & Hresp & Hq & _); try reflexivity;
    try exact int4_0; try exact H3.
  - intros r [<-|[<-|[<-|[]]]]; exists "t", "service-a";
      repeat split; vm_compute; lia.
  - vm_compute. discriminate.
  - exists es. split; [exact Hresp|]. split; [exact Hq|].
    vm_compute in Hes. inversion Hes. reflexivity.
Defined.

(** ** The read path *)

Lemma fetch_effect {A} (sem : DB -> A) w :
  db (snd (get_connection (fetch sem) w)) = db w
  /\ same_process w (snd (get_connection (fetch sem) w))
  /\ match fst (get_connection (fetch sem) w) with
     | Ret a => a = sem (db w) /\ pool w = true
     | Raise x => from_database x
     | Pending => False
     end.
Proof.
  unfold get_connection, fetch, next_fault, same_process.
  destruct w as [d [|] [|[x|] fs] tf tr q n lg]; simpl; auto 6;
    destruct x; simpl; auto 6.
Qed.

(** X14. [get_events_by_topic] with a non-empty topic returns exactly the
    stored rows of that topic; with no topic, or with the empty string,
    it returns every stored row; and it changes nothing in the
    database. *)
Theorem events_by_topic topic w rows :
  fst (get_events_by_topic topic w) = Ret rows ->
  db (snd (get_events_by_topic topic w)) = db w
  /\ match topic with
     | None => rows = processed_events (db w)
     | Some t =>
         if (t =? "")%string then rows = processed_events (db w)
         else forall e, In e rows
                        <-> In e (processed_events (db w)) /\ Models.topic e = t
     end.
Proof.
  unfold get_events_by_topic. intros H.
  destruct topic as [t|]; [destruct (t =? "")%string|];
    match goal with
    | H : fst (get_connection (fetch ?sem) w) = Ret rows |- _ =>
        destruct (fetch_effect sem w) as (Hd & _ & Ho); rewrite H in Ho;
        destruct Ho as (-> & _)
    end; (split; [exact Hd|]); try reflexivity.
  intros e. rewrite filter_In, String.eqb_eq. reflexivity.
Qed.

Lemma events_by_topic_witness :
  db (snd (get_events_by_topic (Some "t") marked_once)) = db marked_once
  /\ forall e, In e [e1] <-> In e (processed_events (db marked_once))
                             /\ Models.topic e = "t".
Proof.
  exact (events_by_topic (Some "t") marked_once [e1] eq_refl).
Defined.

Lemma get_events_route_cases topic w :
  get_events_route topic w
  = match get_events_by_topic topic w with
    | (Ret [], w1) => (Ret [], w1)
    | (Ret (_ :: _), w1) =>
        (Raise (ResponseValidationError [("payload", DictType)]), w1)
    | (Raise y, w1) =>
        (Raise (HTTPException 500 (str y)),
         logged ERROR ("Error getting events: " ++ str y) w1)
    | (Pending, w1) => (Pending, w1)
    end.
Proof.
  unfold get_events_route, try_except, bind.
  destruct (get_events_by_topic topic w) as [[[|row rest]|y|] w1];
    reflexivity.
Qed.

(** X15. [GET /events] never changes the database, the pool handle or
    the queue, and its answer follows what [get_events_by_topic] did:
    the empty list when no row was returned; an internal server error
    from the validation of the response model as soon as one row is
    returned, the payload of a row being the text of the JSONB column
    where [EventResponse] wants a dict; an error 500 carrying the message
    when the read failed. *)
Theorem events_route topic w :
  db (snd (get_events_route topic w)) = db w
  /\ same_process w (snd (get_events_route topic w))
  /\ match fst (get_events_by_topic topic w) with
     | Ret [] => fst (get_events_route topic w) = Ret []
     | Ret (_ :: _) =>
         fst (get_events_route topic w)
         = Raise (ResponseValidationError [("payload", DictType)])
     | Raise y =>
         fst (get_events_route topic w) = Raise (HTTPException 500 (str y))
     | Pending => False
     end.
Proof.
  assert (H : db (snd (get_events_by_topic topic w)) = db w
              /\ same_process w (snd (get_events_by_topic topic w))
              /\ fst (get_events_by_topic topic w) <> Pending).
  { unfold get_events_by_topic.
    destruct topic as [t|]; [destruct (t =? "")%string|];
      match goal with
      | |- context [get_connection (fetch ?sem) w] =>
          destruct (fetch_effect sem w) as (Hd & Hf & Ho);
          destruct (fst (get_connection (fetch sem) w))
      end; (split; [exact Hd|]); (split; [exact Hf|]);
      try discriminate; intros _; exact Ho. }
  rewrite get_events_route_cases.
  destruct (get_events_by_topic topic w) as [[[|row rest]|y|] w1];
    simpl in *; tauto.
Qed.

Lemma events_route_witness :
  fst (get_events_route (Some "t") marked_once)
  = Raise (ResponseValidationError [("payload", DictType)])
  /\ fst (get_events_route (Some "u") marked_once) = Ret []
  /\ fst (get_events_route None (started [Some reset] []))
     = Raise (HTTPException 500 "connection reset by peer").
Proof.
  split; [|split].
  - exact (proj2 (proj2 (events_route (Some "t") marked_once))).
  - exact (proj2 (proj2 (events_route (Some "u") marked_once))).
  - exact (proj2 (proj2 (events_route None (started [Some reset] [])))).
Defined.

Lemma insert_sorted_perm le x l : Permutation (insert_sorted le x l) (x :: l).
Proof.
  induction l as [|y rest IH]; simpl; [apply Permutation_refl|].
  destruct (le x y); [apply Permutation_refl|].
  apply (perm_trans (perm_skip y IH)). apply perm_swap.
Qed.

Lemma order_by_perm le l : Permutation (order_by le l) l.
Proof.
  induction l as [|x rest IH]; simpl; [apply perm_nil|].
  apply (perm_trans (insert_sorted_perm le x _)). apply perm_skip, IH.
Qed.

(** X16. [get_topics] lists every topic that has a row in
    [processed_events], each of them once, and nothing else, whatever the
    collation the database sorts with. *)
Theorem topics_distinct le w topics :
  fst (get_topics le w) = Ret topics ->
  NoDup topics
  /\ forall t, In t topics
               <-> exists e, In e (processed_events (db w)) /\ topic e = t.
Proof.
  unfold get_topics. intros H.
  match type of H with
  | fst (get_connection (fetch ?sem) w) = _ =>
      destruct (fetch_effect sem w) as (_ & _ & Ho); rewrite H in Ho;
      destruct Ho as (-> & _)
  end.
  pose proof (order_by_perm le
                (nodup string_dec (map topic (processed_events (db w)))))
    as Hperm.
  split.
  - apply (Permutation_NoDup (Permutation_sym Hperm)). apply NoDup_nodup.
  - intros t. split.
    + intros Ht. apply (Permutation_in _ Hperm) in Ht.
      apply (proj1 (nodup_In _ _ _)) in Ht.
      apply (proj1 (in_map_iff _ _ _)) in Ht.
      destruct Ht as [ev [Htopic Hev]]. exists ev. split; assumption.
    + intros [ev [Hev Htopic]].
      apply (Permutation_in _ (Permutation_sym Hperm)).
      apply (proj2 (nodup_In _ _ _)). apply (proj2 (in_map_iff _ _ _)). eauto.
Qed.

Lemma topics_distinct_witness :
  NoDup ["t"]
  /\ forall t, In t ["t"]
               <-> exists e, In e (processed_events
                                     (db (run (OpMarkProcessed (sample "t" "e2"))
                                              marked_once)))
                             /\ topic e = t.
Proof.
  exact (topics_distinct String.leb
           (run (OpMarkProcessed (sample "t" "e2")) marked_once) ["t"] eq_refl).
Defined.

Lemma same_keys_insert e d :
  (forall k, in_dedup k d = in_processed k d) ->
  forall k,
    in_dedup k (insert_processed e (insert_dedup (topic e) (event_id e) d))
    = in_processed k (insert_processed e (insert_dedup (topic e) (event_id e) d)).
Proof.
  intros H k. apply eq_true_iff_eq.
  rewrite in_dedup_In, in_processed_In, insert_processed_In.
  rewrite (proj1 (insert_processed_frame _ _)), insert_dedup_In.
  rewrite <- (in_processed_In k (insert_dedup _ _ d)).
  unfold in_processed. rewrite (proj1 (insert_dedup_frame _ _ _)).
  fold (in_processed k d). rewrite <- H, in_dedup_In. reflexivity.
Qed.

(** X17. In every state the process can reach, [get_event_count] returns
    the number of rows of [processed_events], which is also the number of
    fingerprints in [dedup_store]. *)
Theorem event_count w count :
  reachable w -> fst (get_event_count w) = Ret count ->
  count = Z.of_nat (List.length (processed_events (db w)))
  /\ count = Z.of_nat (List.length (dedup_store (db w))).
Proof.
  intros Hreach H.
  assert (Hc : count = Z.of_nat (List.length (processed_events (db w)))).
  { unfold get_event_count, get_connection, fetch, next_fault, bind, ret in H.
    destruct w as [d [|] [|[x|] fs] tf tr q n lg]; simpl in H;
      try discriminate;
      destruct (Z.of_nat (List.length (processed_events d)) =? 0) eqn:E;
      inversion H; subst; simpl; auto;
      apply Z.eqb_eq in E; auto. }
  split; [exact Hc|]. rewrite Hc. f_equal.
  assert (HP : unique_keys (db w)
               /\ forall k, in_dedup k (db w) = in_processed k (db w)).
  { apply (inv_reachable
             (fun d => unique_keys d
                       /\ forall k, in_dedup k d = in_processed k d));
      [| |  |exact Hreach].
    - intros d d' (Hp & Hd) ((H1 & H2) & H3). unfold unique_keys.
      rewrite Hp, Hd. split; [auto|]. intros k.
      unfold in_dedup, in_processed. rewrite Hp, Hd. apply H3.
    - intros e d (H1 & H2).
      split; [apply unique_keys_insert, H1|apply same_keys_insert, H2].
    - intros d Hp Hd. unfold unique_keys, in_dedup, in_processed.
      rewrite Hp, Hd. split; [split; constructor|reflexivity]. }
  destruct HP as ((Hd & Hp) & Hk).
  rewrite <- (length_map key (processed_events (db w))).
  apply Permutation_length. apply NoDup_Permutation; auto.
  intros k. rewrite <- in_dedup_In, <- in_processed_In, Hk. reflexivity.
Qed.

Lemma event_count_witness :
  1 = Z.of_nat (List.length (processed_events (db (run (OpMarkProcessed e1)
                                                       marked_once))))
  /\ 1 = Z.of_nat (List.length (dedup_store (db (run (OpMarkProcessed e1)
                                                     marked_once)))).
Proof.
  apply event_count; [|reflexivity].
  apply reach_run. apply (reach_run (started [] []) (OpMarkProcessed e1)).
  apply reach_start.
Defined.

Lemma get_stats_answer w :
  pool w = true -> hd None (faults w) = None ->
  fst (get_stats w)
  = Ret (match event_stats (db w) with
         | Some s => s
         | None => mkStats 0 0 0
         end).
Proof.
  destruct w as [d p [|[x|] fs] tf tr q n lg]; simpl; intros -> H;
    try discriminate; unfold_py; simpl; destruct (event_stats d); reflexivity.
Qed.

(** X18. The counters read back. With nothing failing and the row of
    [event_stats] in place, [get_stats] after [increment_stats] returns
    the previous counters plus the deltas, as long as deltas and sums fit
    [INT]. *)
Theorem stats_read_back r u d w s :
  pool w = true -> faults w = [] ->
  event_stats (db w) = Some s ->
  int4 r -> int4 u -> int4 d ->
  int4 (received s + r) -> int4 (unique_processed s + u) ->
  int4 (duplicate_dropped s + d) ->
  fst (increment_stats r u d w) = Ret tt
  /\ fst (get_stats (snd (increment_stats r u d w)))
     = Ret (add_stats s (r, u, d)).
Proof.
  intros Hp Hf Hs H1 H2 H3 H4 H5 H6.
  pose proof (update_stats_ok r u d (db w) s Hs H1 H2 H3 H4 H5 H6) as Hup.
  destruct (increment_stats_calm r u d w _ Hp Hf Hup)
    as (C1 & C2 & C3 & (C4 & _)).
  split; [exact C1|].
  rewrite get_stats_answer; [|congruence|rewrite C3; reflexivity].
  rewrite C2. reflexivity.
Qed.

Lemma stats_read_back_witness :
  fst (get_stats (snd (increment_stats 10 7 3 (started [] []))))
  = Ret (add_stats (mkStats 0 0 0) (10, 7, 3)).
Proof.
  assert (H10 : int4 10) by (unfold int4; lia).
  assert (H7 : int4 7) by (unfold int4; lia).
  assert (H3 : int4 3) by (unfold int4; lia).
  exact (proj2 (stats_read_back 10 7 3 (started [] []) (mkStats 0 0 0)
                  eq_refl eq_refl eq_refl H10 H7 H3 H10 H7 H3)).
Defined.

(** The deltas are bound to [$1], [$2], [$3] of an [INTEGER] column:
    the driver refuses one outside the range before anything is sent
    further, with or without the row. *)
Lemma update_stats_out_of_range r u d x :
  ~ (int4 r /\ int4 u /\ int4 d) ->
  exists k z, update_stats r u d x = inl (out_of_int32 k z).
Proof.
  intros H. unfold update_stats.
  destruct (in_int4 r) eqn:Hr; simpl; [|eauto].
  destruct (in_int4 u) eqn:Hu; simpl; [|eauto].
  destruct (in_int4 d) eqn:Hd; simpl; [|eauto].
  exfalso. apply H. rewrite <- !in_int4_iff. auto.
Qed.

(** X19. Without the row of [event_stats], the update matches nothing:
    [increment_stats] returns as if it had counted, whatever the deltas
    in the range of [INTEGER], the database is as before, and
    [get_stats] reports zeros. *)
Theorem stats_without_row r u d w :
  pool w = true -> faults w = [] ->
  int4 r -> int4 u -> int4 d ->
  event_stats (db w) = None ->
  fst (increment_stats r u d w) = Ret tt
  /\ db (snd (increment_stats r u d w)) = db w
  /\ fst (get_stats (snd (increment_stats r u d w))) = Ret (mkStats 0 0 0).
Proof.
  intros Hp Hf Hr Hu Hd Hs.
  pose proof (update_stats_none r u d (db w) Hr Hu Hd Hs) as Hup.
  destruct (increment_stats_calm r u d w _ Hp Hf Hup)
    as (C1 & C2 & C3 & (C4 & _)).
  split; [exact C1|]. split; [exact C2|].
  rewrite get_stats_answer; [|congruence|rewrite C3; reflexivity].
  rewrite C2, Hs. reflexivity.
Qed.

Lemma stats_without_row_witness :
  fst (get_stats
         (snd (increment_stats 5 5 0
                 (set_db (mkDB [] [] None) (started [] [])))))
  = Ret (mkStats 0 0 0).
Proof.
  assert (H5 : int4 5) by (unfold int4; lia).
  exact (proj2 (proj2 (stats_without_row 5 5 0
                         (set_db (mkDB [] [] None) (started [] []))
                         eq_refl eq_refl H5 H5 int4_0 eq_refl))).
Defined.

(** ** When the received-increment cannot go through *)

Lemma publish_loop_blocked evs : forall idx a r errs w,
  Forall well_formed evs ->
  pool w = false \/ (exists x, update_stats 1 0 0 (db w) = inl x) ->
  exists errs' w',
    publish_loop idx evs (a, r, errs) w
    = (Ret (a, (r + List.length evs)%nat, errs'), w')
    /\ queue w' = queue w /\ unfinished w' = unfinished w /\ db w' = db w.
Proof.
  induction evs as [|e rest IH]; intros idx a r errs w Hwf Hb.
  - exists errs, w. simpl. rewrite Nat.add_0_r. auto.
  - inversion Hwf as [|? ? He Hrest]; subst.
    change (publish_loop idx (e :: rest) (a, r, errs) w)
      with (bind (publish_one idx e (a, r, errs))
                 (fun acc' => publish_loop (S idx) rest acc') w).
    unfold bind.
    destruct (publish_one_effect idx e a r errs w He)
      as (w1 & Hp1 & [(_ & _ & _ & Hd1 & Hpw & _)
                     | [(x & -> & Hq1 & Hu1 & Hd1)
                       | (_ & _ & _ & Hd1 & Hpw & _)]]).
    + exfalso. destruct Hb as [Hb|(y & Hb)]; congruence.
    + destruct (IH (S idx) a (S r) (errs ++ [mkDetail idx None (str x)])%list
                  w1 Hrest)
        as (errs' & w' & -> & Hq & Hu & Hd).
      { rewrite Hp1, Hd1. exact Hb. }
      exists errs', w'. simpl.
      replace (r + S (List.length rest))%nat
        with (S r + List.length rest)%nat by lia.
      repeat split; congruence.
    + exfalso. destruct Hb as [Hb|(y & Hb)]; congruence.
Qed.

(** X20. When the received-increment cannot go through (the pool is
    closed, or [received] cannot grow within [INT]), [POST /publish]
    still answers: every event of the request is counted in [rejected],
    none is accepted or put on the queue, and the database is as it
    was. *)
Theorem publish_blocked f body w resp :
  pool w = false \/ (exists x, update_stats 1 0 0 (db w) = inl x) ->
  fst (post_publish f body w) = Ret resp ->
  accepted resp = O /\ rejected resp = count resp
  /\ queue (snd (post_publish f body w)) = queue w
  /\ db (snd (post_publish f body w)) = db w.
Proof.
  intros Hb H. unfold post_publish in *.
  destruct (PublishRequest_init f body) as [x|request] eqn:E;
    [discriminate|].
  pose proof (PublishRequest_init_well_formed f body request E) as Hwf.
  destruct (publish_loop_blocked (get_events request) O O O [] w Hwf Hb)
    as (errs' & w' & Hloop & Hq & _ & Hd).
  assert (Hrun : publish_events request w
                 = (Ret (mkResponse "accepted"
                           (List.length (get_events request)) O
                           (List.length (get_events request)) errs'), w')).
  { unfold publish_events, try_except, bind. rewrite Hloop. reflexivity. }
  rewrite Hrun in *. simpl in *. inversion H; subst resp. simpl. auto.
Qed.

Lemma publish_blocked_witness :
  (forall resp,
      fst (post_publish factories three_valid (set_pool false (started [] [])))
      = Ret resp -> accepted resp = O /\ rejected resp = count resp)
  /\ (forall resp,
        fst (post_publish factories three_valid
               (set_db (mkDB [] [] (Some (mkStats 2147483647 0 0)))
                       (started [] [])))
        = Ret resp -> accepted resp = O /\ rejected resp = count resp).
Proof.
  split; intros resp H.
  - destruct (publish_blocked factories three_valid
                (set_pool false (started [] [])) resp
                (or_introl eq_refl) H) as (H1 & H2 & _).
    split; assumption.
  - destruct (publish_blocked factories three_valid
                (set_db (mkDB [] [] (Some (mkStats 2147483647 0 0)))
                        (started [] [])) resp
                (or_intror (ex_intro _ (PostgresError "integer out of range")
                                     eq_refl)) H) as (H1 & H2 & _).
    split; assumption.
Defined.

(** ** When the lookup fails *)

Lemma is_processed_fails t i w :
  pool w = false \/ (exists x fs, faults w = Some x :: fs) ->
  exists y, fst (is_processed t i w) = Raise y.
Proof.
  destruct w as [d p fs tf tr q n lg]; simpl.
  intros [-> | (x & fs' & ->)]; unfold_py; simpl.
  - eauto.
  - destruct p; simpl; eauto.
Qed.

(** X21. An event whose lookup in [dedup_store] fails is lost: with the
    pool closed, or with the round trip of [is_processed] failing, the
    turn of the consumer takes the event off the queue and marks it
    done, and the database (tables and counters) is as it was. *)
Theorem lookup_failure_drops w e rest n :
  queue w = e :: rest -> unfinished w = S n ->
  pool w = false \/ (exists x fs, faults w = Some x :: fs) ->
  option_map fst (consumer_worker w) = Some (Ret tt)
  /\ queue (run OpConsume w) = rest
  /\ unfinished (run OpConsume w) = n
  /\ db (run OpConsume w) = db w.
Proof.
  intros Hq Hn Hfail.
  pose (w0 := logged DEBUG ("Consumer processing event: " ++ fingerprint e)
                (set_queue rest (unfinished w) w)).
  destruct (is_processed_fails (topic e) (event_id e) w0 Hfail) as (y & Hy).
  destruct (is_processed_effect (topic e) (event_id e) w0)
    as ((_ & Hq1 & Hu1) & Hd1).
  set (w1 := snd (is_processed (topic e) (event_id e) w0)) in *.
  assert (Hrun : consumer_worker w
                 = Some (Ret tt,
                         set_queue (queue w1) n
                           (logged ERROR ("Error in consumer worker: " ++ str y)
                                   w1))).
  { unfold consumer_worker. rewrite Hq. f_equal.
    unfold try_except, process. fold w0.
    rewrite bind_logger. fold w0.
    rewrite (bind_raises _ _ w0 y Hy). fold w1.
    rewrite bind_logger.
    rewrite (task_done_returns _ n); [reflexivity|].
    simpl. rewrite Hu1. exact Hn. }
  unfold run. rewrite Hrun. simpl. auto.
Qed.

Lemma lookup_failure_drops_witness :
  queue (run OpConsume (started [Some reset] [e1])) = []
  /\ db (run OpConsume (started [Some reset] [e1])) = bootstrapped.
Proof.
  destruct (lookup_failure_drops (started [Some reset] [e1]) e1 [] 0%nat
              eq_refl eq_refl
              (or_intror (ex_intro _ reset (ex_intro _ [] eq_refl))))
    as (_ & H1 & _ & H2).
  split; [exact H1|exact H2].
Defined.

(** ** Clearing the data *)


(** ** The pool across a restart *)

(** X23. Closing the pool and opening it again keeps what was stored:
    between the two, [is_processed] raises the error of the missing
    pool; after [init_pool] has gone through, it answers as before the
    pool was closed, and a second [init_pool] does nothing. *)
Theorem pool_restart t i w :
  pool w = true ->
  hd None (faults w) = None -> hd None (tl (faults w)) = None ->
  fst (is_processed t i (snd (close_pool w)))
  = Raise (RuntimeError "Database pool not initialized")
  /\ fst (init_pool (snd (close_pool w))) = Ret tt
  /\ fst (is_processed t i (snd (init_pool (snd (close_pool w)))))
     = Ret (in_dedup (t, i) (db w))
  /\ init_pool (snd (init_pool (snd (close_pool w))))
     = (Ret tt, snd (init_pool (snd (close_pool w)))).
Proof.
  destruct w as [d p fs tf tr q n lg]; simpl. intros -> H1 H2.
  unfold init_pool. unfold_py. simpl.
  destruct fs as [|[x|] [|[y|] fs]]; simpl in *;
    try discriminate; repeat split; reflexivity.
Qed.

Lemma pool_restart_witness :
  fst (is_processed "t" "e1"
         (snd (init_pool
                 (snd (close_pool
                         (snd (mark_processed e1 (started [] []))))))))
  = Ret (in_dedup ("t", "e1")
           (db (snd (mark_processed e1 (started [] []))))).
Proof.
  exact (proj1 (proj2 (proj2
           (pool_restart "t" "e1" (snd (mark_processed e1 (started [] [])))
              eq_refl eq_refl eq_refl)))).
Defined.

(** A failed [init_pool] leaves the pool closed, logs the error and
    raises what [create_pool] raised; the tables are as they were. *)
Lemma init_pool_failure w x fs :
  pool w = false -> faults w = Some x :: fs ->
  fst (init_pool w) = Raise (exn_of x)
  /\ pool (snd (init_pool w)) = false
  /\ db (snd (init_pool w)) = db w
  /\ log (snd (init_pool w))
     = (log w ++ [(ERROR, ("Failed to initialize database pool: "
                             ++ str (exn_of x))%string)])%list.
Proof.
  destruct w as [d p fs' tf tr q n lg]; simpl. intros -> ->.
  unfold init_pool, next_fault. simpl. repeat split; reflexivity.
Qed.

(** ** Shutdown of a drained service *)

Lemma stopped_final s s' : phase s = Stopped -> consumer_task s <> Running -> ~ step s s'.
Proof.
  intros Hp Hc Hstep. inversion Hstep; subst; congruence.
Qed.

(** X24. With no unfinished item in the queue, the shutdown goes
    through: the service reaches the phase [Stopped] with the pool
    closed, the database as it was, and nothing can happen after. *)
Theorem shutdown_drained s :
  phase s = Serving -> unfinished (world s) = O ->
  exists s', steps s s'
    /\ phase s' = Stopped
    /\ pool (world s') = false
    /\ db (world s') = db (world s)
    /\ forall s'', ~ step s' s''.
Proof.
  intros Hp Hu.
  pose (w1 := logged INFO "Queue emptied" (world (shutdown_cancel s))).
  pose (s' := mkSys (logged INFO "Aggregator service stopped"
                       (snd (close_pool w1))) Cancelled Stopped).
  assert (E : shutdown_close (shutdown_cancel s) = Some s').
  { unfold shutdown_close, queue_join. simpl. rewrite Hu. reflexivity. }
  exists s'. split; [|split; [reflexivity|split; [|split]]].
  - apply (@steps_next s (shutdown_cancel s) s');
      [apply step_cancel; exact Hp|].
    apply (@steps_next (shutdown_cancel s) s' s');
      [apply step_close; [reflexivity|exact E]|apply steps_refl].
  - unfold s', w1, close_pool. simpl.
    destruct (pool (world s)) eqn:P; simpl; [reflexivity|].
    destruct (world s); simpl in *; exact P.
  - unfold s', w1, close_pool. simpl.
    destruct (pool (world s)); destruct (world s); reflexivity.
  - intros s''. apply stopped_final; [reflexivity|discriminate].
Qed.

Lemma shutdown_drained_witness :
  exists s', steps idle s' /\ phase s' = Stopped /\ pool (world s') = false.
Proof.
  destruct (shutdown_drained idle eq_refl eq_refl)
    as (s' & H1 & H2 & H3 & _).
  exists s'. split; [exact H1|split; [exact H2|exact H3]].
Defined.

(** ** Validation, twice *)

(** X25. What the request model has validated validates again to the
    same event: for an event [e] built by [Event] from a raw record,
    [Event(e.dict(), as keywords)] is [e], whatever the default factories would
    return, so the second validation in the loop of [publish_events]
    never changes an event. *)
Theorem validation_round_trip uuid now r e uuid' now' :
  Event_init uuid now r = inr e ->
  Event_init uuid' now' (dict e) = inr e.
Proof.
  intros H. apply Event_init_well_formed in H. destruct H as (Ht & Hs).
  apply Event_init_inr. exists (topic e), (source e).
  destruct e; simpl in *. repeat split; auto; lia.
Qed.

Lemma validation_round_trip_witness :
  Event_init "u2" "2026-01-01T00:00:00"
    (dict (mkEvent "t" "u1" "2025-12-18T10:30:00Z" "service-a" []))
  = inr (mkEvent "t" "u1" "2025-12-18T10:30:00Z" "service-a" []).
Proof.
  exact (validation_round_trip "u1" "2025-12-18T10:30:00"
           (mkRaw (Some "t") None None (Some "service-a") None)
           (mkEvent "t" "u1" "2025-12-18T10:30:00Z" "service-a" [])
           "u2" "2026-01-01T00:00:00" eq_refl).
Defined.

(** ** When the connection is lost inside the transaction *)

(** X26. A connection lost at one of the inserts of [mark_processed]
    does not come back as [(False, message)]: the handler inside the
    transaction returns it, but leaving the transaction on the closed
    connection raises [InterfaceError], which [mark_processed] does not
    catch. The consumer then drops the event: it is off the queue and
    marked done, and no counter is credited. *)
Theorem lost_connection_drops w e rest n m fs :
  queue w = e :: rest -> unfinished w = S n -> pool w = true ->
  in_dedup (topic e, event_id e) (db w) = false ->
  faults w = None :: None :: Some (ConnectionLost m) :: fs
  \/ faults w = None :: None :: None :: Some (ConnectionLost m) :: fs ->
  (forall w', pool w' = true ->
     faults w' = None :: Some (ConnectionLost m) :: fs
     \/ faults w' = None :: None :: Some (ConnectionLost m) :: fs ->
     fst (mark_processed e w')
     = Raise (InterfaceError
                "cannot call Transaction.__aexit__(): the underlying connection is closed"))
  /\ option_map fst (consumer_worker w) = Some (Ret tt)
  /\ queue (run OpConsume w) = rest
  /\ unfinished (run OpConsume w) = n
  /\ db (run OpConsume w) = db w.
Proof.
  intros Hq Hu Hp Hd Hf. split.
  - intros [d' p' fs' c' tr' q' n' lg']; simpl. intros -> [-> | ->];
      unfold_py; reflexivity.
  - destruct w as [d p fs0 c tr q n0 lg]; simpl in *. subst.
    unfold run, consumer_worker. simpl.
    unfold try_except, process.
    destruct Hf as [-> | ->]; unfold_py; simpl; rewrite Hd; simpl;
      unfold task_done, bind, logger, ret; simpl; auto.
Qed.

Lemma lost_connection_drops_witness :
  fst (mark_processed e1 (started [None; Some reset] [e1]))
  = Raise (InterfaceError
             "cannot call Transaction.__aexit__(): the underlying connection is closed")
  /\ queue (run OpConsume (started [None; None; Some reset] [e1])) = []
  /\ db (run OpConsume (started [None; None; Some reset] [e1])) = bootstrapped.
Proof.
  destruct (lost_connection_drops (started [None; None; Some reset] [e1])
              e1 [] 0%nat "connection reset by peer" []
              eq_refl eq_refl eq_refl eq_refl (or_introl eq_refl))
    as (H1 & _ & H2 & _ & H3).
  split; [|split; [exact H2|exact H3]].
  exact (H1 (started [None; Some reset] [e1]) eq_refl (or_introl eq_refl)).
Defined.

